(** * Verification of the auto-approve audit (commands/copilot/audit-auto-approve.ts)

    A shallow embedding of the pattern-risk classifier and of the health
    aggregator of the [osa copilot audit-auto-approve] command, together
    with the properties stated about them.

    Conventions of the embedding:
    - a JavaScript string is a [string]; every [ascii] stands for one code
      unit below 256, so patterns are Latin-1 text;
    - a JavaScript regular expression is a value of [Regex.RegExp]; only the
      boolean answer of [RegExp.prototype.test] is ever used by the program,
      so the engine is modelled by a decision procedure for the regular
      language (Brzozowski derivatives), proved sound and complete for the
      usual declarative reading of a regular expression;
    - the [Map] that holds the prefix health is a [gmap] together with the
      list of its keys in insertion order;
    - [console.log] calls are recorded as a list of structured lines;
    - a call that may throw returns an [option], [None] standing for the
      exception, and a run of the command records whether an exception
      left it;
    - a number that the program divides is a double ([SpecFloat], with the
      precision and the exponent range of binary64). *)

From Stdlib Require Import String Ascii List Bool Arith Lia Sorted.
From Stdlib Require SpecFloat.
From stdpp Require Import base option list gmap strings.

Local Open Scope string_scope.
Local Open Scope list_scope.

(* ===================================================================== *)
(** ** Regular expressions *)
(* ===================================================================== *)

Module Regex.

(** Abstract syntax of the regular expressions that occur in the program.
    [Cls f] is a character class given by its membership test. *)
Inductive re : Type :=
| Void
| Eps
| Chr (c : ascii)
| Cls (f : ascii → bool)
| Seq (r1 r2 : re)
| Alt (r1 r2 : re)
| Star (r : re).

(** Declarative meaning: the words of the language of a regular expression. *)
Inductive Lang : re → list ascii → Prop :=
| LEps : Lang Eps []
| LChr c : Lang (Chr c) [c]
| LCls f c : f c = true → Lang (Cls f) [c]
| LSeq r1 r2 w1 w2 : Lang r1 w1 → Lang r2 w2 → Lang (Seq r1 r2) (w1 ++ w2)
| LAltL r1 r2 w : Lang r1 w → Lang (Alt r1 r2) w
| LAltR r1 r2 w : Lang r2 w → Lang (Alt r1 r2) w
| LStarNil r : Lang (Star r) []
| LStarApp r w1 w2 : Lang r w1 → Lang (Star r) w2 → Lang (Star r) (w1 ++ w2).

Fixpoint nullable (r : re) : bool :=
  match r with
  | Void => false
  | Eps => true
  | Chr _ => false
  | Cls _ => false
  | Seq r1 r2 => nullable r1 && nullable r2
  | Alt r1 r2 => nullable r1 || nullable r2
  | Star _ => true
  end.

(** Constructors that prune [Void] and [Eps], to keep derivatives small. *)
Definition mkSeq (r1 r2 : re) : re :=
  match r1, r2 with
  | Void, _ => Void
  | _, Void => Void
  | Eps, _ => r2
  | _, _ => Seq r1 r2
  end.

Definition mkAlt (r1 r2 : re) : re :=
  match r1, r2 with
  | Void, _ => r2
  | _, Void => r1
  | _, _ => Alt r1 r2
  end.

Fixpoint deriv (a : ascii) (r : re) : re :=
  match r with
  | Void => Void
  | Eps => Void
  | Chr c => if Ascii.eqb a c then Eps else Void
  | Cls f => if f a then Eps else Void
  | Seq r1 r2 =>
      if nullable r1
      then mkAlt (mkSeq (deriv a r1) r2) (deriv a r2)
      else mkSeq (deriv a r1) r2
  | Alt r1 r2 => mkAlt (deriv a r1) (deriv a r2)
  | Star r1 => mkSeq (deriv a r1) (Star r1)
  end.

(** [accepts r w]: the whole word [w] belongs to the language of [r]. *)
Fixpoint accepts (r : re) (w : list ascii) : bool :=
  match w with
  | [] => nullable r
  | a :: w' => accepts (deriv a r) w'
  end.

(** Derived forms. *)
Definition Plus (r : re) : re := Seq r (Star r).
Definition Opt (r : re) : re := Alt r Eps.

Fixpoint LitL (w : list ascii) : re :=
  match w with
  | [] => Eps
  | c :: w' => Seq (Chr c) (LitL w')
  end.

(** The literal text [s]. *)
Definition Lit (s : string) : re := LitL (list_ascii_of_string s).

Fixpoint AltL (rs : list re) : re :=
  match rs with
  | [] => Void
  | [r] => r
  | r :: rs' => Alt r (AltL rs')
  end.

(** Concatenation of the items of a regular expression, left to right. *)
Fixpoint cat (rs : list re) : re :=
  match rs with
  | [] => Eps
  | [r] => r
  | r :: rs' => Seq r (cat rs')
  end.

Definition code (c : ascii) : nat := nat_of_ascii c.

(** [\s]: the white space code units below 256
    (TAB, LF, VT, FF, CR, SPACE, NBSP). *)
Definition isSpace (c : ascii) : bool :=
  let n := code c in
  (((9 <=? n) && (n <=? 13)) || (n =? 32) || (n =? 160))%nat.

(** [.] without the [s] flag: anything but a line terminator. *)
Definition isDot (c : ascii) : bool :=
  let n := code c in
  negb ((n =? 10) || (n =? 13))%nat.

(** [[A-Za-z0-9_-]] (written [[a-zA-Z0-9_-]] at one place). *)
Definition isIdent (c : ascii) : bool :=
  let n := code c in
  (((65 <=? n) && (n <=? 90)) || ((97 <=? n) && (n <=? 122))
   || ((48 <=? n) && (n <=? 57)) || (n =? 95) || (n =? 45))%nat.

Definition ws : re := Cls isSpace.
Definition dot : re := Cls isDot.
Definition ident : re := Cls isIdent.
Definition anyUnit : re := Cls (λ _, true).

(** One top-level alternative of a regular expression object: a body,
    possibly anchored by a leading [^] and a trailing [$]. *)
Record branch := Branch { bos : bool; body : re; eos : bool }.

(** A regular expression object: the disjunction of its top-level
    alternatives.  Every regular expression of the program has its
    anchors at the ends of a top-level alternative only. *)
Definition RegExp := list branch.

Definition rx (r : re) : RegExp := [Branch false r false].
Definition rxBos (r : re) : RegExp := [Branch true r false].
Definition rxEos (r : re) : RegExp := [Branch false r true].

(** Searching for a match of a branch anywhere in the subject is accepting
    the whole subject with arbitrary text around the body, on the sides
    that are not anchored. *)
Definition padded (b : branch) : re :=
  Seq (if bos b then Eps else Star anyUnit)
      (Seq (body b) (if eos b then Eps else Star anyUnit)).

Definition testL (R : RegExp) (w : list ascii) : bool :=
  existsb (λ b, accepts (padded b) w) R.

(** [R.test(s)] *)
Definition test (R : RegExp) (s : string) : bool :=
  testL R (list_ascii_of_string s).

(** Declarative reading of [test]: some alternative matches some factor
    of the subject, at the start if anchored by [^] and up to the end if
    anchored by [$]. *)
Definition Occurs (b : branch) (w : list ascii) : Prop :=
  ∃ pre mid post,
    w = pre ++ mid ++ post ∧ Lang (body b) mid
    ∧ (bos b = true → pre = []) ∧ (eos b = true → post = []).

End Regex.

Import Regex.

(* ===================================================================== *)
(** ** Strings *)
(* ===================================================================== *)

(** [s.includes(needle)] *)
Fixpoint includes (needle s : string) : bool :=
  String.prefix needle s
  || match s with
     | EmptyString => false
     | String _ s' => includes needle s'
     end.

(** [(s.match(/c/g) || []).length] for a one-character expression [c]:
    the number of occurrences of [c] in [s]. *)
Fixpoint countUnit (c : ascii) (s : string) : nat :=
  match s with
  | EmptyString => 0
  | String a s' => (if Ascii.eqb a c then 1 else 0) + countUnit c s'
  end.

(** [items.join(sep)] *)
Fixpoint join (sep : string) (items : list string) : string :=
  match items with
  | [] => EmptyString
  | [x] => x
  | x :: rest => x ++ sep ++ join sep rest
  end.

(** [s.split(",")]: the pieces between commas; never empty. *)
Fixpoint splitComma (w : list ascii) : list (list ascii) :=
  match w with
  | [] => [[]]
  | c :: w' =>
      if Ascii.eqb c ","
      then [] :: splitComma w'
      else match splitComma w' with
           | [] => [[c]]
           | piece :: pieces => (c :: piece) :: pieces
           end
  end.

Fixpoint trimStart (w : list ascii) : list ascii :=
  match w with
  | [] => []
  | c :: w' => if isSpace c then trimStart w' else w
  end.

(** [s.trim()] *)
Definition trim (w : list ascii) : list ascii :=
  rev (trimStart (rev (trimStart w))).

(** The NUL character and the string made of it. *)
Definition nul : ascii := ascii_of_nat 0.
Definition nulString : string := String nul EmptyString.

(** The double quote character. *)
Definition dquote : ascii := ascii_of_nat 34.

(* ===================================================================== *)
(** ** Pattern classifier *)
(* ===================================================================== *)

(** [RISKY_PATTERNS]: the fixed danger taxonomy, in source order. *)
Definition RISKY_PATTERNS : list RegExp :=
  [ (* File system dangers *)
    rx (Lit "**");                                   (* /\*\*/ *)
    rx (Lit "..");                                   (* /\.\./ *)
    rxBos (Lit "/");                                 (* /^\// *)
    rxBos (Lit "~/");                                (* /^~\// *)
    rx (Lit "/..");                                  (* /\/\.\./ *)
    rx (cat [Lit "/"; Plus (Lit "/")]);              (* /\/\/+/ *)
    (* System and privilege escalation *)
    rx (Lit "sudo");
    rx (cat [Lit "su"; ws]);                         (* /su\s/ *)
    rx (cat [Lit "chmod"; Plus ws; Lit "777"]);      (* /chmod\s+777/ *)
    rx (cat [Lit "chown"; Plus ws; Lit "root"]);     (* /chown\s+root/ *)
    rx (cat [Lit "chown"; Plus ws; Lit "0"]);        (* /chown\s+0/ *)
    (* System operations *)
    rx (cat [Lit "dd"; Plus ws; Lit "if="]);         (* /dd\s+if=/ *)
    rx (Lit "mkfs");
    rx (Lit "fdisk");
    rx (Lit "format");
    rx (Lit "shutdown");
    rx (Lit "reboot");
    rx (Lit "halt");
    rx (Lit "poweroff");
    rx (Lit "killall");
    rx (cat [Lit "pkill"; Plus ws; Lit "-9"]);       (* /pkill\s+-9/ *)
    (* Network and remote execution *)
    rx (cat [Lit "curl"; Star dot; Lit "|"; Star ws;
             AltL [Lit "sh"; Lit "bash"; Lit "zsh"]]); (* /curl.*\|\s*(sh|bash|zsh)/ *)
    rx (cat [Lit "wget"; Star dot; Lit "|"; Star ws;
             AltL [Lit "sh"; Lit "bash"; Lit "zsh"]]); (* /wget.*\|\s*(sh|bash|zsh)/ *)
    rx (cat [Lit "ssh"; ws]);                        (* /ssh\s/ *)
    rx (cat [Lit "scp"; ws]);                        (* /scp\s/ *)
    rx (Lit "rsync");
    (* Code execution *)
    rx (Lit "eval");
    rx (Lit "exec");
    rx (Lit "system");
    rx (Lit "popen");
    rx (Lit "subprocess");
    rx (Lit "spawn");
    rx (cat [Lit "node"; Plus ws; Lit "-e"]);        (* /node\s+-e/ *)
    rx (cat [Lit "python"; Plus ws; Lit "-c"]);      (* /python\s+-c/ *)
    rx (cat [Lit "perl"; Plus ws; Lit "-e"]);        (* /perl\s+-e/ *)
    rx (cat [Lit "ruby"; Plus ws; Lit "-e"]);        (* /ruby\s+-e/ *)
    (* Sensitive files and directories *)
    rx (Lit "~/.ssh");                               (* /~\/\.ssh/ *)
    rx (Lit "/etc/passwd");
    rx (Lit "/etc/shadow");
    rx (Lit "/etc/sudoers");
    rx (Lit "/root");
    rx (Lit "/home");
    rx (Lit "/var/log");
    rx (Lit "/proc");
    rx (Lit "/sys");
    (* Database operations *)
    rx (cat [Lit "mysql"; Plus ws]);                 (* /mysql\s+/ *)
    rx (cat [Lit "psql"; Plus ws]);                  (* /psql\s+/ *)
    rx (cat [Lit "mongo"; Plus ws]);                 (* /mongo\s+/ *)
    rx (Lit "redis-cli");
    (* Package managers with dangerous flags *)
    rx (cat [Lit "npm"; Plus ws; Lit "install"; Plus ws; Star dot; Lit "-g"]);
                                                     (* /npm\s+install\s+.*-g/ *)
    rx (cat [Lit "pip"; Plus ws; Lit "install"; Plus ws; Star dot; Lit "--user"]);
                                                     (* /pip\s+install\s+.*--user/ *)
    rx (cat [Lit "apt-get"; Plus ws; Lit "install"]);
    rx (cat [Lit "yum"; Plus ws; Lit "install"]);
    rx (cat [Lit "brew"; Plus ws; Lit "install"]);
    (* Git operations that could be dangerous *)
    rx (cat [Lit "git"; Plus ws; Lit "push"; Plus ws; Lit "--force"]);
    rx (cat [Lit "git"; Plus ws; Lit "reset"; Plus ws; Lit "--hard"]);
    rx (cat [Lit "git"; Plus ws; Lit "clean"; Plus ws; Lit "-fd"]);
    (* Dangerous shell constructs *)
    rx (cat [Lit "`"; Star dot; Lit "`"]);           (* /`.*`/ *)
    rx (cat [Lit "$("; Star dot; Lit ")"]);          (* /\$\(.*\)/ *)
    rx (cat [Lit ">"; Star ws; Lit "/dev/null"]);    (* />\s*\/dev\/null/ *)
    rxEos (cat [Lit "&"; Star ws]);                  (* /&\s*$/ *)
    (* Unterminated or malformed patterns *)
    rxEos (cat [Lit ";"; Star ws]);                  (* /;\s*$/ *)
    rxEos (cat [Lit "|"; Star ws]);                  (* /\|\s*$/ *)
    rxEos (cat [Lit "&&"; Star ws]);                 (* /&&\s*$/ *)
    rxEos (cat [Lit "||"; Star ws]);                 (* /\|\|\s*$/ *)
    (* Path manipulation *)
    rx (Lit "PATH=");
    rx (Lit "LD_LIBRARY_PATH=");
    rx (Lit "LD_PRELOAD=")
  ].

(** [SAFE_RM_TARGETS].  The fourth expression is written [/.next/] in the
    source: its first item is an unescaped dot. *)
Definition SAFE_RM_TARGETS : list RegExp :=
  [ rx (Lit "node_modules");
    rx (Lit "build");
    rx (Lit "dist");
    rx (cat [dot; Lit "next"]);
    rx (Lit "out");
    rx (Lit ".cache");
    rx (Lit ".tmp");
    rx (Lit "temp");
    rx (Lit "tmp")
  ].

(** [DANGEROUS_RM_PATTERNS] *)
Definition DANGEROUS_RM_PATTERNS : list RegExp :=
  [ rx (Lit "*");          (* Wildcards *)
    rx (Lit "..");         (* Parent directory *)
    rxBos (Lit "/");       (* Absolute paths *)
    rxBos (Lit "~/");      (* Home directory *)
    rx (Lit "..")          (* Any parent directory traversal *)
  ].

(** [/rm\s+-rf/] *)
Definition rmRf : RegExp := rx (cat [Lit "rm"; Plus ws; Lit "-rf"]).

(** [list.some(r => r.test(pattern))] *)
Definition some (rs : list RegExp) (pattern : string) : bool :=
  existsb (λ r, test r pattern) rs.

Definition isDangerousRmRf (pattern : string) : bool :=
  if test rmRf pattern then
    let hasDangerousPattern := some DANGEROUS_RM_PATTERNS pattern in
    if hasDangerousPattern then true
    else
      let hasSafeTarget := some SAFE_RM_TARGETS pattern in
      negb hasSafeTarget
  else false.

Record SyntaxValidation := { valid : bool; issues : list string }.

(** [if (cond) issues.push(label)] *)
Definition pushIf (cond : bool) (label : string) (issues : list string) : list string :=
  if cond then issues ++ [label] else issues.

Definition validatePatternSyntax (pattern : string) : SyntaxValidation :=
  let issues : list string := [] in
  (* unterminated quotes *)
  let singleQuotes := countUnit "'" pattern in
  let doubleQuotes := countUnit dquote pattern in
  let backticks := countUnit "`" pattern in
  let issues := pushIf (negb (singleQuotes mod 2 =? 0)%nat) "unterminated single quotes" issues in
  let issues := pushIf (negb (doubleQuotes mod 2 =? 0)%nat) "unterminated double quotes" issues in
  let issues := pushIf (negb (backticks mod 2 =? 0)%nat) "unterminated backticks" issues in
  (* unbalanced parentheses/brackets *)
  let openParens := countUnit "(" pattern in
  let closeParens := countUnit ")" pattern in
  let openBrackets := countUnit "[" pattern in
  let closeBrackets := countUnit "]" pattern in
  let openBraces := countUnit "{" pattern in
  let closeBraces := countUnit "}" pattern in
  let issues := pushIf (negb (openParens =? closeParens)%nat) "unbalanced parentheses" issues in
  let issues := pushIf (negb (openBrackets =? closeBrackets)%nat) "unbalanced brackets" issues in
  let issues := pushIf (negb (openBraces =? closeBraces)%nat) "unbalanced braces" issues in
  (* dangerous path constructs *)
  let issues := pushIf (includes "/../" pattern || includes "\..\" pattern)
                       "directory traversal (..)" issues in
  (* null bytes *)
  let issues := pushIf (includes nulString pattern) "null bytes detected" issues in
  (* extremely long patterns *)
  let issues := pushIf (1000 <? String.length pattern)%nat "pattern too long" issues in
  {| valid := (List.length issues =? 0)%nat; issues := issues |}.

(** [buildSafeTemplate(prefixes)]:
    [^:(p1|...|pn)-[A-Za-z0-9_-]+(:[A-Za-z0-9_-]+)?$|^:clean$].
    Every prefix is embedded after [replace(/[-/\\^$*+?.()|[\]{}]/g, "\\$&")],
    which escapes each character that has a meaning in a regular
    expression, so a prefix stands for its own text; an empty list leaves
    an empty group. *)
Definition buildSafeTemplate (prefixes : list string) : RegExp :=
  let alt := match prefixes with
             | [] => Eps
             | _ => AltL (map Lit prefixes)
             end in
  [ Branch true
      (cat [Lit ":"; alt; Lit "-"; Plus ident; Opt (cat [Lit ":"; Plus ident])])
      true;
    Branch true (Lit ":clean") true ].

(** The checks of one boolean entry (lines 311-329 of the audit loop). *)
Definition isRiskyPattern (pattern : string) : bool :=
  some RISKY_PATTERNS pattern.

Definition isAllowed (explicitPrefixes : list string) (pattern : string) : bool :=
  match explicitPrefixes with
  | [] => true (* no explicit prefixes: allow all *)
  | _ => test (buildSafeTemplate explicitPrefixes) pattern
  end.

Definition isRisky (explicitPrefixes : list string) (pattern : string) : bool :=
  isRiskyPattern pattern
  || isDangerousRmRf pattern
  || negb (isAllowed explicitPrefixes pattern)
  || negb (valid (validatePatternSyntax pattern)).

Inductive RiskVerdict := Safe | Risky.

Definition verdict (explicitPrefixes : list string) (pattern : string) : RiskVerdict :=
  if isRisky explicitPrefixes pattern then Risky else Safe.

(* ===================================================================== *)
(** ** Prefix extraction *)
(* ===================================================================== *)

(** The longest run of identifier characters at the head of [w]. *)
Fixpoint identRun (w : list ascii) : list ascii :=
  match w with
  | [] => []
  | c :: w' => if isIdent c then c :: identRun w' else []
  end.

(** The part of [w] before its last hyphen, if it has one. *)
Fixpoint beforeLastHyphen (w : list ascii) : option (list ascii) :=
  match w with
  | [] => None
  | c :: w' =>
      match beforeLastHyphen w' with
      | Some u => Some (c :: u)
      | None => if Ascii.eqb c "-" then Some [] else None
      end
  end.

(** [/^:([a-zA-Z0-9_-]+)-/] *)
Definition prefixRe : RegExp :=
  rxBos (cat [Lit ":"; Plus ident; Lit "-"]).

(** Group 1 of a match of [prefixRe] against the text [w].  The group is
    greedy and the hyphen is itself an identifier character: the group is
    the run of identifier characters after the colon, cut before its last
    hyphen, and it keeps at least one character. *)
Definition groupOf (w : list ascii) : option (list ascii) :=
  match w with
  | ":"%char :: w' =>
      match identRun w' with
      | [] => None
      | c :: run =>
          match beforeLastHyphen run with
          | Some u => Some (c :: u)
          | None => None
          end
      end
  | _ => None
  end.

(** [pattern.match(/^:([a-zA-Z0-9_-]+)-/)], reduced to its group 1. *)
Definition prefixMatch (pattern : string) : option string :=
  match groupOf (list_ascii_of_string pattern) with
  | Some u => Some (string_of_list_ascii u)
  | None => None
  end.

Definition prefixOf (pattern : string) : string :=
  match prefixMatch pattern with
  | Some p => p
  | None => "unknown"
  end.

(* ===================================================================== *)
(** ** Health aggregator *)
(* ===================================================================== *)

(** A parsed JSON value.  The entries of [JObj] are the own properties in
    the order of [Object.entries]; their keys are pairwise distinct. *)
#[local] Unset Elimination Schemes.
Inductive json : Type :=
| JNull
| JBool (b : bool)
| JNum (n : Z)
| JStr (s : string)
| JArr (items : list json)
| JObj (entries : list (string * json)).
#[local] Set Elimination Schemes.

Record Finding := {
  file : string;
  riskyPatterns : list string;
  nonBoolean : option (list string)
}.

Record PrefixHealth := {
  prefix : string;
  totalPatterns : nat;
  riskyCount : nat;        (* field [riskyPatterns] of [PrefixHealth] *)
  safePatterns : nat;
  patterns : list string;
  riskyList : list string
}.

(** [Map<string, PrefixHealth>]: the bindings and the keys in insertion
    order. *)
Record HealthMap := {
  bindings : gmap string PrefixHealth;
  keys : list string
}.

Definition emptyHealth : HealthMap := {| bindings := ∅; keys := [] |}.

(** The accumulators of the loop over the entries of one rule map. *)
Record Ingest := {
  riskyAcc : list string;
  nonBooleanAcc : list string;
  healthAcc : HealthMap
}.

Definition freshHealth (p : string) : PrefixHealth :=
  {| prefix := p; totalPatterns := 0; riskyCount := 0; safePatterns := 0;
     patterns := []; riskyList := [] |}.

(** [`syntax issues: ${issues.join(", ")}`] *)
Definition syntaxLine (sv : SyntaxValidation) : string :=
  "syntax issues: " ++ join ", " (issues sv).

(** One iteration of the loop over [Object.entries(map)]. *)
Definition ingestEntry (explicitPrefixes : list string)
    (st : Ingest) (entry : string * json) : Ingest :=
  let '(pattern, val) := entry in
  match val with
  | JBool _ =>
      let hm := healthAcc st in
      let p := prefixOf pattern in
      (* initialize prefix health tracking *)
      let '(health, keys') :=
        match bindings hm !! p with
        | Some h => (h, keys hm)
        | None => (freshHealth p, keys hm ++ [p])
        end in
      let total' := S (totalPatterns health) in
      let patterns' := patterns health ++ [pattern] in
      let sv := validatePatternSyntax pattern in
      let risky1 :=
        if valid sv then riskyAcc st else riskyAcc st ++ [syntaxLine sv] in
      if isRisky explicitPrefixes pattern then
        let health' :=
          {| prefix := prefix health; totalPatterns := total';
             riskyCount := S (riskyCount health);
             safePatterns := safePatterns health;
             patterns := patterns';
             riskyList := riskyList health ++ [pattern] |} in
        {| riskyAcc := risky1 ++ [pattern];
           nonBooleanAcc := nonBooleanAcc st;
           healthAcc := {| bindings := <[p := health']> (bindings hm);
                           keys := keys' |} |}
      else
        let health' :=
          {| prefix := prefix health; totalPatterns := total';
             riskyCount := riskyCount health;
             safePatterns := S (safePatterns health);
             patterns := patterns';
             riskyList := riskyList health |} in
        {| riskyAcc := risky1;
           nonBooleanAcc := nonBooleanAcc st;
           healthAcc := {| bindings := <[p := health']> (bindings hm);
                           keys := keys' |} |}
  | _ =>
      {| riskyAcc := riskyAcc st;
         nonBooleanAcc := nonBooleanAcc st ++ [pattern];
         healthAcc := healthAcc st |}
  end.

(** The loop over the entries of one rule map. *)
Definition ingest (explicitPrefixes : list string) (hm : HealthMap)
    (entries : list (string * json)) : Ingest :=
  fold_left (ingestEntry explicitPrefixes) entries
    {| riskyAcc := []; nonBooleanAcc := []; healthAcc := hm |}.

(** JavaScript truthiness of a parsed JSON value. *)
Definition truthy (v : json) : bool :=
  match v with
  | JNull => false
  | JBool b => b
  | JNum n => negb (n =? 0)%Z
  | JStr s => negb (String.eqb s EmptyString)
  | JArr _ => true
  | JObj _ => true
  end.

Fixpoint assoc (k : string) (entries : list (string * json)) : option json :=
  match entries with
  | [] => None
  | (k', v) :: rest => if String.eqb k' k then Some v else assoc k rest
  end.

(** [data["chat.tools.terminal.autoApprove"]]; [None] is [undefined]. *)
Definition autoApproveOf (data : json) : option json :=
  match data with
  | JObj entries => assoc "chat.tools.terminal.autoApprove" entries
  | _ => None
  end.

(** The rule map of a loaded settings file, or [None] when the loop skips
    the file: [loadSettings] gave [null] (unreadable or not JSON), the
    data is falsy, or the setting is [null], absent, not an object, or an
    array. *)
Definition ruleMapOf (loaded : option json) : option (list (string * json)) :=
  match loaded with
  | None => None
  | Some data =>
      if truthy data then
        match autoApproveOf data with
        | Some (JObj entries) => Some entries
        | _ => None
        end
      else None
  end.

Definition nonEmpty {A : Type} (l : list A) : bool :=
  negb (List.length l =? 0)%nat.

(** The finding of one file, if it has one (lines 340-344). *)
Definition findingOf (f : string) (st : Ingest) : option Finding :=
  if nonEmpty (riskyAcc st) || nonEmpty (nonBooleanAcc st) then
    Some {| file := f;
            riskyPatterns := riskyAcc st;
            nonBoolean := if nonEmpty (nonBooleanAcc st)
                          then Some (nonBooleanAcc st) else None |}
  else None.

(** The state of the loop over the settings files. *)
Record Audit := {
  findings : list Finding;
  prefixHealth : HealthMap
}.

(** One iteration of the loop over the settings files. *)
Definition auditFile (explicitPrefixes : list string)
    (loadSettings : string → option json)
    (a : Audit) (f : string) : Audit :=
  match ruleMapOf (loadSettings f) with
  | None => a
  | Some entries =>
      let st := ingest explicitPrefixes (prefixHealth a) entries in
      {| findings := match findingOf f st with
                     | Some fd => findings a ++ [fd]
                     | None => findings a
                     end;
         prefixHealth := healthAcc st |}
  end.

Definition auditFiles (explicitPrefixes : list string)
    (loadSettings : string → option json)
    (settingsFiles : list string) : Audit :=
  fold_left (auditFile explicitPrefixes loadSettings) settingsFiles
    {| findings := []; prefixHealth := emptyHealth |}.

(* ===================================================================== *)
(** ** Reporting and the command itself *)
(* ===================================================================== *)

(** The status marker of a health line: check mark, cross, warning sign. *)
Inductive Status := Healthy | Critical | Mixed.

(** One [console.log] call; the constructors follow the call sites. *)
Inductive LogLine : Type :=
| LogReportTitle                      (* Prefix Health Report: *)
| LogReportRule                       (* ======================== *)
| LogHealth (st : Status) (p : string) (safeN total percent : nat)
                                      (* st p: safeN/total safe (percent% risky) *)
| LogRiskyList (shown : list string) (more : bool)
                                      (* Risky patterns: shown joined, then ... if more *)
| LogBlank
| LogJson (fs : list Finding) (prefixes : list string) (hm : HealthMap)
| LogAllSafe (prefixes : list string) (* All autoApprove entries are safe ... *)
| LogFoundIssues (n : nat)            (* Found issues in n file(s): *)
| LogFile (f : string)                (* - f *)
| LogRisky (p : string)               (* risky (enabled & not allowed): p *)
| LogExpected (prefixes : list string). (* Expected safe pattern: template *)

(** The double that holds the count [n]. *)
Definition double (n : nat) : SpecFloat.spec_float :=
  SpecFloat.binary_normalize 53 1024 (Z.of_nat n) 0 false.

(** [Math.round(x)] for a double that is finite and not negative, as
    every quotient of two counts is: the integer nearest to [x], the
    upper one when [x] lies halfway. *)
Definition mathRound (x : SpecFloat.spec_float) : nat :=
  match x with
  | SpecFloat.S754_finite false m e =>
      Z.to_nat (if (0 <=? e)%Z then Z.pos m * 2 ^ e
                else (2 * Z.pos m + 2 ^ (- e)) / 2 ^ (1 - e))%Z
  | _ => 0%nat
  end.

(** [Math.round((risky / total) * 100)], or [0] when [total] is [0]; the
    division and the product are those of doubles, each rounded to the
    nearest double. *)
Definition riskPercentage (h : PrefixHealth) : nat :=
  if (0 <? totalPatterns h)%nat
  then mathRound
         (SpecFloat.SFmul 53 1024
            (SpecFloat.SFdiv 53 1024 (double (riskyCount h)) (double (totalPatterns h)))
            (double 100))
  else 0%nat.

Definition statusOf (h : PrefixHealth) : Status :=
  if (riskyCount h =? 0)%nat then Healthy
  else if (safePatterns h =? 0)%nat then Critical
  else Mixed.

(** [Array.from(prefixHealth.values())] *)
Definition healthValues (hm : HealthMap) : list PrefixHealth :=
  omap (λ k, bindings hm !! k) (keys hm).

(** Stable sort by [b.totalPatterns - a.totalPatterns]: larger totals
    first, ties in their original order. *)
Fixpoint insertByTotal (x : PrefixHealth) (l : list PrefixHealth) : list PrefixHealth :=
  match l with
  | [] => [x]
  | y :: l' =>
      if (totalPatterns y <=? totalPatterns x)%nat
      then x :: y :: l'
      else y :: insertByTotal x l'
  end.

Definition sortByTotal (l : list PrefixHealth) : list PrefixHealth :=
  fold_right insertByTotal [] l.

Definition healthLines (h : PrefixHealth) : list LogLine :=
  LogHealth (statusOf h) (prefix h) (safePatterns h) (totalPatterns h) (riskPercentage h)
  :: (if (0 <? riskyCount h)%nat
      then [LogRiskyList (firstn 3 (riskyList h)) (3 <? List.length (riskyList h))%nat]
      else []).

Definition reportPrefixHealth (hm : HealthMap) (json : bool) : list LogLine :=
  let healthArray := healthValues hm in
  if json then []
  else [LogReportTitle; LogReportRule]
       ++ flat_map healthLines (sortByTotal healthArray)
       ++ [LogBlank].

Record Options := {
  allowPrefix : option string;
  settingsFile : option string;
  failOnRisk : bool;
  json_ : bool;            (* option [json] *)
  silent : bool;           (* absent counts as false *)
  scanPrefixes : bool      (* absent counts as false *)
}.

(** What the command reads from the machine: the result of
    [readSettingsFiles()], or [None] when that call throws (it has no
    handler around [readdirSync]), and, for every path, the result of
    [loadSettings], which catches its own exceptions. *)
Record Env := {
  readSettingsFiles : option (list string);
  loadSettings : string → option json
}.

(** Truthiness of an optional string option: given and not empty. *)
Definition given (o : option string) : bool :=
  match o with
  | Some s => negb (String.eqb s EmptyString)
  | None => false
  end.

(** [allowPrefix.split(",").map(s => s.trim()).filter(Boolean)], or the
    empty list when the option is not given. *)
Definition explicitPrefixesOf (o : option string) : list string :=
  match o with
  | Some s =>
      if given o then
        List.filter (λ p, negb (String.eqb p EmptyString))
          (map (λ w, string_of_list_ascii (trim w))
               (splitComma (list_ascii_of_string s)))
      else []
  | None => []
  end.

(** [opts.settingsFile ? [opts.settingsFile] : readSettingsFiles()];
    [None] when the call throws. *)
Definition settingsFilesOf (env : Env) (opts : Options) : option (list string) :=
  match settingsFile opts with
  | Some f => if given (settingsFile opts) then Some [f] else readSettingsFiles env
  | None => readSettingsFiles env
  end.

(** The lines of the warning block (lines 369-377). *)
Definition warningLines (explicitPrefixes : list string) (fs : list Finding) : list LogLine :=
  LogFoundIssues (List.length fs)
  :: flat_map (λ f, LogFile (file f) :: map LogRisky (riskyPatterns f)) fs
  ++ (if nonEmpty explicitPrefixes then [LogExpected explicitPrefixes] else []).

(** What a run leaves behind: the findings and the health map, the lines
    logged, the argument of [exit] if it was called, and whether an
    exception left the command. *)
Record Outcome := {
  result : Audit;
  logged : list LogLine;
  exited : option nat;
  thrown : bool
}.

(** The exit code of the process: the argument of [exit]; without a call
    of [exit], [1] when an exception left the command, and [0] when the
    command returns.  The command line program ([cli.ts]) awaits the
    command in an action with no handler and calls [parseAsync] without
    one: the rejection is unhandled, and the runtime (one with top-level
    await and import attributes, which [cli.ts] uses) ends the process
    with status 1. *)
Definition exitCode (o : Outcome) : nat :=
  match exited o with
  | Some c => c
  | None => if thrown o then 1%nat else 0%nat
  end.

(** The command from the loop on: what it does once the list of
    settings files is there. *)
Definition auditSettingsFiles (env : Env) (opts : Options)
    (settingsFiles : list string) : Outcome :=
  let explicitPrefixes := explicitPrefixesOf (allowPrefix opts) in
  let a := auditFiles explicitPrefixes (loadSettings env) settingsFiles in
  let fs := findings a in
  (* report prefix health if requested or if no explicit prefixes provided *)
  let log1 :=
    if scanPrefixes opts || negb (given (allowPrefix opts))
    then reportPrefixHealth (prefixHealth a) (json_ opts)
    else [] in
  let log2 :=
    if json_ opts then [LogJson fs explicitPrefixes (prefixHealth a)]
    else if negb (nonEmpty fs) then
      (if negb (silent opts) then [LogAllSafe explicitPrefixes] else [])
    else
      (* always show warnings when failing, regardless of silent option *)
      let shouldShowWarnings := negb (silent opts) || failOnRisk opts in
      if shouldShowWarnings then warningLines explicitPrefixes fs else [] in
  {| result := a;
     logged := log1 ++ log2;
     exited := if nonEmpty fs && failOnRisk opts then Some 1%nat else None;
     thrown := false |}.

(** The command.  When [readSettingsFiles()] throws, the exception leaves
    the command at once: [findings] and [prefixHealth] are still empty,
    nothing has been logged and [exit] is not called. *)
Definition auditAutoApprove (env : Env) (opts : Options) : Outcome :=
  match settingsFilesOf env opts with
  | Some settingsFiles => auditSettingsFiles env opts settingsFiles
  | None =>
      {| result := {| findings := []; prefixHealth := emptyHealth |};
         logged := [];
         exited := None;
         thrown := true |}
  end.

(* ===================================================================== *)
(** ** The earlier revision of the loop *)
(* ===================================================================== *)

Module Legacy.

(** The loop body of the earlier revision of the command, which has no
    prefix health: [if (val === true && !safe.test(pattern)) risky.push(pattern)]. *)
Definition ingestEntry (safeTemplate : RegExp)
    (st : list string * list string) (entry : string * json)
    : list string * list string :=
  let '(risky, nonBoolean) := st in
  let '(pattern, val) := entry in
  match val with
  | JBool b =>
      if b && negb (test safeTemplate pattern)
      then (risky ++ [pattern], nonBoolean)
      else (risky, nonBoolean)
  | _ => (risky, nonBoolean ++ [pattern])
  end.

Definition ingest (prefixes : list string) (entries : list (string * json))
    : list string * list string :=
  fold_left (ingestEntry (buildSafeTemplate prefixes)) entries ([], []).

End Legacy.

(* ===================================================================== *)
(** ** Notions used to state the properties *)
(* ===================================================================== *)

(** The number of occurrences of the quote [q] that are not escaped,
    scanning left to right: a backslash takes away the special meaning of
    the character after it. *)
Fixpoint unescapedCount (q : ascii) (w : list ascii) : nat :=
  match w with
  | [] => 0
  | c :: w' =>
      if Ascii.eqb c "\" then
        match w' with
        | [] => 0
        | _ :: w'' => unescapedCount q w''
        end
      else (if Ascii.eqb c q then 1 else 0) + unescapedCount q w'
  end.

(** The text contains [rm], then white space, then the flag [-rf]. *)
Definition ContainsRmRf (pattern : string) : Prop :=
  ∃ pre gap post : list ascii,
    list_ascii_of_string pattern
    = pre ++ list_ascii_of_string "rm" ++ gap ++ list_ascii_of_string "-rf" ++ post
    ∧ gap ≠ [] ∧ Forall (λ c, isSpace c = true) gap.

(** A character of a word: a letter, a digit or the underscore. *)
Definition isWordChar (c : ascii) : bool :=
  let n := code c in
  (((65 <=? n) && (n <=? 90)) || ((97 <=? n) && (n <=? 122))
   || ((48 <=? n) && (n <=? 57)) || (n =? 95))%nat.

(** The text has the token [rm], then white space, then the flag [-rf]
    in this exact spelling: no character of a word stands right before
    [rm] nor right after [-rf]. *)
Definition HasRmRfToken (pattern : string) : Prop :=
  ∃ pre gap post : list ascii,
    list_ascii_of_string pattern
    = pre ++ list_ascii_of_string "rm" ++ gap ++ list_ascii_of_string "-rf" ++ post
    ∧ gap ≠ [] ∧ Forall (λ c, isSpace c = true) gap
    ∧ (∀ pre' c, pre = pre' ++ [c] → isWordChar c = false)
    ∧ (∀ c post', post = c :: post' → isWordChar c = false).

(** The same notion as a regular expression, to decide it: the token
    between the ends of the text or characters that are not of a word. *)
Definition tokenRmRf : RegExp :=
  let body := cat [Lit "rm"; Plus ws; Lit "-rf"] in
  let other := Cls (λ c, negb (isWordChar c)) in
  [ Branch true body true;
    Branch true (Seq body other) false;
    Branch false (Seq other body) true;
    Branch false (Seq other (Seq body other)) false ].

(** The text [w] is a colon, the identifier [u], a hyphen and [post]:
    a way for [prefixRe] to match [w] with [u] as its group. *)
Definition PrefixSplit (w u post : list ascii) : Prop :=
  w = ":"%char :: u ++ "-"%char :: post
  ∧ u ≠ [] ∧ Forall (λ c, isIdent c = true) u.

(** [u] is the group of the greedy match: the longest one. *)
Definition GreedyGroup (w u : list ascii) : Prop :=
  (∃ post, PrefixSplit w u post)
  ∧ ∀ u' post', PrefixSplit w u' post' → (List.length u' ≤ List.length u)%nat.

(** A boolean entry of a rule map, enabled or not, that the loop judges
    risky. *)
Definition JudgedRisky (explicitPrefixes : list string) (entry : string * json) : Prop :=
  ∃ b, entry.2 = JBool b ∧ isRisky explicitPrefixes entry.1 = true.

(** A risky rule as the specification has it: an enabled rule, that is an
    entry whose value is [true], with a risky verdict.  A disabled entry
    is no rule to be judged. *)
Definition EnabledRiskyRule (explicitPrefixes : list string) (entry : string * json) : Prop :=
  entry.2 = JBool true ∧ verdict explicitPrefixes entry.1 = Risky.

(** An entry of a rule map whose value is not a boolean. *)
Definition NonBooleanEntry (entry : string * json) : Prop :=
  ∀ b, entry.2 ≠ JBool b.

(** What one entry adds to the risky list of its file. *)
Definition riskyOf (explicitPrefixes : list string) (entry : string * json) : list string :=
  match entry.2 with
  | JBool _ =>
      let sv := validatePatternSyntax entry.1 in
      (if valid sv then [] else [syntaxLine sv])
      ++ (if isRisky explicitPrefixes entry.1 then [entry.1] else [])
  | _ => []
  end.

(** What one entry adds to the list of non-boolean keys of its file. *)
Definition nonBooleanOf (entry : string * json) : list string :=
  match entry.2 with
  | JBool _ => []
  | _ => [entry.1]
  end.

(** The keys in insertion order are the keys of the bindings, once each. *)
Definition KeysAgree (hm : HealthMap) : Prop :=
  NoDup (keys hm) ∧ ∀ k, In k (keys hm) ↔ is_Some (bindings hm !! k).

(** The invariant of a prefix health entry. *)
Definition Consistent (h : PrefixHealth) : Prop :=
  riskyCount h + safePatterns h = totalPatterns h
  ∧ List.length (patterns h) = totalPatterns h.

(** The health entry of a prefix as an iteration finds it: the binding
    of the prefix, or a fresh entry. *)
Definition healthBefore (st : Ingest) (p : string) : PrefixHealth :=
  match bindings (healthAcc st) !! p with
  | Some h => h
  | None => freshHealth p
  end.

(** The discovery of the settings files returns: a settings file is
    given, so that [readSettingsFiles()] is not called, or the call does
    not throw. *)
Definition DiscoveryReturns (env : Env) (opts : Options) : Prop :=
  given (settingsFile opts) = true ∨ readSettingsFiles env ≠ None.

(** A finding for the file [f] is appended by the iteration that turns
    the findings [before] into [after]. *)
Definition FindingProduced (f : string) (before after : list Finding) : Prop :=
  ∃ fd, after = before ++ [fd] ∧ file fd = f.

(* ===================================================================== *)
(** ** Scenarios *)
(* ===================================================================== *)

Definition settingsPath : string := "/test/.vscode/settings.json".

(** One workspace settings file whose auto-approve setting is [rules]. *)
Definition oneFile (rules : list (string * json)) : Env :=
  {| readSettingsFiles := Some [settingsPath];
     loadSettings := λ _,
       Some (JObj [("chat.tools.terminal.autoApprove", JObj rules)]) |}.

Definition plainOpts (allow : option string) : Options :=
  {| allowPrefix := allow; settingsFile := None; failOnRisk := false;
     json_ := false; silent := false; scanPrefixes := false |}.

(** Scenarios A, B and C: an explicit allow-prefix. *)
Definition scenarioA_rules : list (string * json) :=
  [(":tachyon-build", JBool true); (":clean", JBool true)].

Definition scenarioB_rules : list (string * json) :=
  [(":tachyon-build", JBool true); (":unknown-task", JBool true)].

Definition scenarioC_rules : list (string * json) :=
  [(":safe-task", JBool true); (":non-boolean-task", JStr "string")].

(** Scenario D: two rules under [:bad:], no allow-prefix, prefix scan. *)
Definition scenarioD_rules : list (string * json) :=
  [(":bad:rm -rf /", JBool true); (":bad:rm -rf *", JBool true)].

Definition scenarioD_opts : Options :=
  {| allowPrefix := None; settingsFile := None; failOnRisk := false;
     json_ := false; silent := false; scanPrefixes := true |}.

(** Scenario E: a risky rule, fail-on-risk and silent mode. *)
Definition scenarioE_rules : list (string * json) :=
  [(":risky:task", JBool true)].

Definition scenarioE_opts (json : bool) : Options :=
  {| allowPrefix := Some "safe"; settingsFile := None; failOnRisk := true;
     json_ := json; silent := true; scanPrefixes := false |}.

(** A rule whose pattern has an unbalanced bracket. *)
Definition invalid_rules : list (string * json) :=
  [(":invalid[pattern", JBool true)].

(** Two disabled rules. *)
Definition disabled_rules : list (string * json) :=
  [(":unknown-task", JBool false); (":tachyon-build", JBool false)].

Arguments isRisky : simpl never.
Arguments isRiskyPattern : simpl never.
Arguments isDangerousRmRf : simpl never.
Arguments validatePatternSyntax : simpl never.
Arguments prefixOf : simpl never.
Arguments test : simpl never.
Arguments buildSafeTemplate : simpl never.

(* ===================================================================== *)
(** ** Notions used to state further properties *)
(* ===================================================================== *)

(** The text [needle] occurs in the text [s]. *)
Definition Substring (needle s : string) : Prop :=
  ∃ pre post : list ascii,
    list_ascii_of_string s = pre ++ list_ascii_of_string needle ++ post.

(** The text [s] starts with the text [needle]. *)
Definition StartsWith (needle s : string) : Prop :=
  ∃ post : list ascii,
    list_ascii_of_string s = list_ascii_of_string needle ++ post.

(** The number of occurrences of the character [c] in [s]. *)
Definition occurrences (c : ascii) (s : string) : nat :=
  List.length (List.filter (λ a, Ascii.eqb a c) (list_ascii_of_string s)).

(** The labels of [validatePatternSyntax], in the order of its checks. *)
Definition issueLabels : list string :=
  [ "unterminated single quotes"; "unterminated double quotes";
    "unterminated backticks"; "unbalanced parentheses";
    "unbalanced brackets"; "unbalanced braces";
    "directory traversal (..)"; "null bytes detected"; "pattern too long" ].

(** What a pattern needs to pass [validatePatternSyntax]. *)
Definition SyntaxOK (pattern : string) : Prop :=
  Nat.even (occurrences "'" pattern) = true
  ∧ Nat.even (occurrences dquote pattern) = true
  ∧ Nat.even (occurrences "`" pattern) = true
  ∧ occurrences "(" pattern = occurrences ")" pattern
  ∧ occurrences "[" pattern = occurrences "]" pattern
  ∧ occurrences "{" pattern = occurrences "}" pattern
  ∧ ¬ Substring "/../" pattern
  ∧ ¬ Substring "\..\" pattern
  ∧ ¬ In nul (list_ascii_of_string pattern)
  ∧ (String.length pattern ≤ 1000)%nat.

(** The pattern names a build directory, as [SAFE_RM_TARGETS] reads it:
    one of the names occurs in it, or [next] after any character that is
    not a line terminator. *)
Definition NamesSafeTarget (pattern : string) : Prop :=
  Substring "node_modules" pattern ∨ Substring "build" pattern
  ∨ Substring "dist" pattern
  ∨ (∃ c, isDot c = true ∧ Substring (String c "next") pattern)
  ∨ Substring "out" pattern ∨ Substring ".cache" pattern
  ∨ Substring ".tmp" pattern ∨ Substring "temp" pattern
  ∨ Substring "tmp" pattern.

(** The pattern has one of the marks of [DANGEROUS_RM_PATTERNS]. *)
Definition HasDangerMark (pattern : string) : Prop :=
  Substring "*" pattern ∨ Substring ".." pattern
  ∨ StartsWith "/" pattern ∨ StartsWith "~/" pattern.

(** A text made of identifier characters: letters, digits, underscore
    and hyphen. *)
Definition IdentText (w : list ascii) : Prop :=
  Forall (λ c, isIdent c = true) w.

(** The texts that [buildSafeTemplate] accepts: [:clean], or a colon, an
    allowed prefix, a hyphen, a module name and possibly a colon and a
    task name.  With no prefix at all the group of the template is empty
    and the prefix is the empty text. *)
Definition AllowedShape (prefixes : list string) (w : list ascii) : Prop :=
  w = list_ascii_of_string ":clean"
  ∨ ∃ (a : string) (m t : list ascii),
      (In a prefixes ∨ (prefixes = [] ∧ a = EmptyString))
      ∧ w = ":"%char :: list_ascii_of_string a ++ "-"%char :: m ++ t
      ∧ m ≠ [] ∧ IdentText m
      ∧ (t = [] ∨ ∃ t', t = ":"%char :: t' ∧ t' ≠ [] ∧ IdentText t').

(** The patterns of the boolean entries of a rule map, in order. *)
Definition booleanPatterns (entries : list (string * json)) : list string :=
  flat_map (λ e : string * json,
              match e.2 with JBool _ => [e.1] | _ => [] end) entries.

(** The boolean patterns of all the files of a batch that have a rule
    map, in the order of the files. *)
Definition batchPatterns (load : string → option json) (files : list string) : list string :=
  flat_map (λ f, match ruleMapOf (load f) with
                 | Some entries => booleanPatterns entries
                 | None => []
                 end) files.

(** The patterns of [seen] whose prefix is [k]. *)
Definition withPrefix (k : string) (seen : list string) : list string :=
  List.filter (λ p, String.eqb (prefixOf p) k) seen.

(** The health entry that the patterns [seen] call for under the key [k]:
    none if no pattern has this prefix. *)
Definition healthOf (explicitPrefixes : list string) (k : string)
    (seen : list string) : option PrefixHealth :=
  match withPrefix k seen with
  | [] => None
  | ps =>
      let rs := List.filter (isRisky explicitPrefixes) ps in
      Some {| prefix := k;
              totalPatterns := List.length ps;
              riskyCount := List.length rs;
              safePatterns := List.length ps - List.length rs;
              patterns := ps;
              riskyList := rs |}
  end.

(** The distinct elements of a list, in the order of their first
    occurrences. *)
Definition firstOccurrences (l : list string) : list string :=
  rev (nodup string_dec (rev l)).

(** The finding that a settings file calls for, computed from the file
    alone. *)
Definition fileFinding (explicitPrefixes : list string)
    (load : string → option json) (f : string) : option Finding :=
  match ruleMapOf (load f) with
  | None => None
  | Some entries =>
      let r := flat_map (riskyOf explicitPrefixes) entries in
      let nb := flat_map nonBooleanOf entries in
      if nonEmpty r || nonEmpty nb
      then Some {| file := f; riskyPatterns := r;
                   nonBoolean := if nonEmpty nb then Some nb else None |}
      else None
  end.

(** A text with no white space at its start nor at its end. *)
Definition Trimmed (w : list ascii) : Prop :=
  (∀ c w', w = c :: w' → isSpace c = false)
  ∧ (∀ c w', w = w' ++ [c] → isSpace c = false).

(** The pieces of a split, joined again with commas. *)
Fixpoint unsplit (pieces : list (list ascii)) : list ascii :=
  match pieces with
  | [] => []
  | [p] => p
  | p :: rest => p ++ ","%char :: unsplit rest
  end.

(** The health entry [h] after one more pattern of its prefix: the
    increments of lines 308-337. *)
Definition tally (explicitPrefixes : list string) (pattern : string)
    (h : PrefixHealth) : PrefixHealth :=
  if isRisky explicitPrefixes pattern then
    {| prefix := prefix h; totalPatterns := S (totalPatterns h);
       riskyCount := S (riskyCount h); safePatterns := safePatterns h;
       patterns := patterns h ++ [pattern];
       riskyList := riskyList h ++ [pattern] |}
  else
    {| prefix := prefix h; totalPatterns := S (totalPatterns h);
       riskyCount := riskyCount h; safePatterns := S (safePatterns h);
       patterns := patterns h ++ [pattern];
       riskyList := riskyList h |}.

(** The prefix and the total of every health line of a report. *)
Definition reportedHealth (lines : list LogLine) : list (string * nat) :=
  flat_map (λ l, match l with
                 | LogHealth _ p _ total _ => [(p, total)]
                 | _ => []
                 end) lines.

(** The boolean test of [Legacy.ingestEntry]: an enabled rule that the
    template does not accept. *)
Definition legacyRisky (prefixes : list string) (entry : string * json) : bool :=
  match entry.2 with
  | JBool b => b && negb (test (buildSafeTemplate prefixes) entry.1)
  | _ => false
  end.

(** One settings file with a risky rule and a non-boolean entry. *)
Definition mixed_rules : list (string * json) :=
  [(":tachyon-build", JBool true); (":unknown-task", JBool true);
   (":odd-entry", JStr "yes")].

(* ===================================================================== *)
(** ** The earlier revision of the command *)
(* ===================================================================== *)

(** [s.split(",").map((s) => s.trim()).filter(Boolean)] *)
Definition splitPrefixes (s : string) : list string :=
  List.filter (λ p, negb (String.eqb p EmptyString))
    (map (λ w, string_of_list_ascii (trim w))
         (splitComma (list_ascii_of_string s))).

Module LegacyAudit.

(** The options of the earlier revision: the allow-prefix is required. *)
Record Options := {
  allowPrefix : string;
  failOnRisk : bool;
  json_ : bool;
  silent : bool            (* absent counts as false *)
}.

(** One [console.log] call of the earlier revision. *)
Inductive LogLine : Type :=
| LogJson (fs : list Finding) (prefixes : list string)
| LogAllSafe (prefixes : list string)
| LogFoundIssues (n : nat)
| LogFile (f : string)
| LogRisky (p : string)
| LogExpected (prefixes : list string).

(** One iteration of the loop over the settings files. *)
Definition auditFile (prefixes : list string) (load : string → option json)
    (fs : list Finding) (f : string) : list Finding :=
  match ruleMapOf (load f) with
  | None => fs
  | Some entries =>
      let '(risky, nonBoolean) := Legacy.ingest prefixes entries in
      if nonEmpty risky || nonEmpty nonBoolean
      then fs ++ [{| file := f; riskyPatterns := risky;
                     nonBoolean := if nonEmpty nonBoolean
                                   then Some nonBoolean else None |}]
      else fs
  end.

Record Outcome := {
  found : list Finding;
  logged : list LogLine;
  exited : option nat;
  thrown : bool
}.

(** The command from the loop on. *)
Definition auditSettingsFiles (env : Env) (opts : Options)
    (settingsFiles : list string) : Outcome :=
  let prefixes := splitPrefixes (allowPrefix opts) in
  let fs := fold_left (auditFile prefixes (loadSettings env)) settingsFiles [] in
  {| found := fs;
     logged :=
       if json_ opts then [LogJson fs prefixes]
       else if negb (nonEmpty fs) then
         (if negb (silent opts) then [LogAllSafe prefixes] else [])
       else
         (if negb (silent opts) then
            LogFoundIssues (List.length fs)
            :: flat_map (λ f, LogFile (file f) :: map LogRisky (riskyPatterns f)) fs
            ++ [LogExpected prefixes]
          else []);
     exited := if nonEmpty fs && failOnRisk opts then Some 1%nat else None;
     thrown := false |}.

(** The command; [readSettingsFiles env] is the result of the discovery
    of this revision, [None] when it throws. *)
Definition auditAutoApprove (env : Env) (opts : Options) : Outcome :=
  match readSettingsFiles env with
  | Some settingsFiles => auditSettingsFiles env opts settingsFiles
  | None => {| found := []; logged := []; exited := None; thrown := true |}
  end.

End LegacyAudit.


(* ===================================================================== *)
(** ** Discovery of the settings files *)
(* ===================================================================== *)

(** An entry of a directory, as [readdirSync(dir, { withFileTypes: true })]
    gives it: a file, a directory with its own entries ([None] when
    reading it throws), or something else (a link, a socket). *)
#[local] Unset Elimination Schemes.
Inductive Dirent : Type :=
| DFile (name : string)
| DDir (name : string) (listing : option (list Dirent))
| DOther (name : string).
#[local] Set Elimination Schemes.

(** [join(dir, name)] in the walk, where [dir] is the working directory
    or a path made by the walk, hence a normalized POSIX path, and [name]
    is the name of an entry as [readdirSync] gives it, never empty, [.] or
    [..] and without a slash: [join] has nothing to normalize, and the
    result is [dir], a slash unless [dir] is the root, and [name]. *)
Definition joinPath (dir name : string) : string :=
  if String.eqb dir "/" then "/" ++ name else dir ++ "/" ++ name.

(** The loop [for (const e of entries) ...] with [visit] as its body:
    the files pushed to [results], or [None] as soon as an iteration
    throws. *)
Definition forEntries (visit : Dirent → option (list string))
    : list Dirent → option (list string) :=
  fix loop (entries : list Dirent) : option (list string) :=
    match entries with
    | [] => Some []
    | e :: rest =>
        match visit e with
        | Some found =>
            match loop rest with
            | Some others => Some (found ++ others)%list
            | None => None
            end
        | None => None
        end
    end.

(** The body of the loop of [recurse(dir)] for the entry [e] of [dir];
    [None] when [readdirSync] throws somewhere below. *)
Fixpoint visitEntry (dir : string) (e : Dirent) {struct e} : option (list string) :=
  match e with
  | DDir name (Some sub) => forEntries (visitEntry (joinPath dir name)) sub
  | DDir name None => None
  | DFile name =>
      let full := joinPath dir name in
      if String.eqb name "settings.json" && includes ".vscode" full
      then Some [full] else Some []
  | DOther name => Some []
  end.

(** [recurse(dir)], given the entries of [dir]. *)
Definition recurse (dir : string) (entries : list Dirent) : option (list string) :=
  forEntries (visitEntry dir) entries.

(** The segments of a path: the pieces between slashes. *)
Fixpoint segments (w : list ascii) : list (list ascii) :=
  match w with
  | [] => [[]]
  | c :: w' =>
      if Ascii.eqb c "/"
      then [] :: segments w'
      else match segments w' with
           | [] => [[c]]
           | seg :: segs => (c :: seg) :: segs
           end
  end.

(** One step of [normalizeString] of [node:path], on the segments kept
    so far, the last one first: an empty segment and [.] are dropped;
    [..] takes away the segment before it and, where there is none to
    take, is kept in a relative path and dropped in an absolute one. *)
Definition normalizeStep (allowAboveRoot : bool) (kept : list string)
    (seg : string) : list string :=
  if String.eqb seg EmptyString || String.eqb seg "." then kept
  else if String.eqb seg ".." then
    match kept with
    | last :: before =>
        if String.eqb last ".."
        then (if allowAboveRoot then ".." :: kept else kept)
        else before
    | [] => if allowAboveRoot then [".."] else []
    end
  else seg :: kept.

(** [path.posix.normalize(path)] *)
Definition normalize (path : string) : string :=
  match list_ascii_of_string path with
  | [] => "."
  | c :: w =>
      let isAbsolute := Ascii.eqb c "/" in
      let trailingSeparator :=
        match rev (c :: w) with
        | c' :: _ => Ascii.eqb c' "/"
        | [] => false
        end in
      let kept :=
        fold_left (normalizeStep (negb isAbsolute))
                  (map string_of_list_ascii (segments (c :: w))) [] in
      let body := join "/" (rev kept) in
      if String.eqb body EmptyString then
        (if isAbsolute then "/" else if trailingSeparator then "./" else ".")
      else
        (if isAbsolute then "/" else EmptyString)
        ++ body ++ (if trailingSeparator then "/" else EmptyString)
  end.

(** [path.posix.join(...args)]: the arguments that are not empty, joined
    by slashes and normalized. *)
Definition pathJoin (args : list string) : string :=
  match List.filter (λ a, negb (String.eqb a EmptyString)) args with
  | [] => "."
  | parts => normalize (join "/" parts)
  end.

(** A name as [readdirSync] gives it: not empty, neither [.] nor [..],
    and without a slash. *)
Definition EntryName (name : string) : Prop :=
  name ≠ EmptyString ∧ name ≠ "." ∧ name ≠ ".."
  ∧ ¬ In "/"%char (list_ascii_of_string name).

(** The absolute path with the segments [segs]: the root when there is
    none. *)
Definition absolutePath (segs : list string) : string := "/" ++ join "/" segs.

(** What [readSettingsFiles] reads from the machine. *)
Record Machine := {
  homedir : string;
  cwd : string;
  readable : string → bool;          (* [readFileSync] does not throw *)
  tree : option (list Dirent)        (* the entries of [cwd] *)
}.

(** [join(homedir(), "Library", "Application Support", "Code", "User",
    "settings.json")] *)
Definition userSettingsPath (m : Machine) : string :=
  pathJoin [homedir m; "Library"; "Application Support"; "Code"; "User";
            "settings.json"].

(** [readSettingsFiles()]; [None] when it throws. *)
Definition readSettingsFilesOn (m : Machine) : option (list string) :=
  let results := if readable m (userSettingsPath m)
                 then [userSettingsPath m] else [] in
  match tree m with
  | None => None
  | Some entries =>
      match recurse (cwd m) entries with
      | Some found => Some (results ++ found)%list
      | None => None
      end
  end.


(** What the command reads on the machine [m], where [load] is
    [loadSettings]. *)
Definition envOn (m : Machine) (load : string → option json) : Env :=
  {| readSettingsFiles := readSettingsFilesOn m; loadSettings := load |}.



(** A workspace with a folder that the user may not read. *)
Definition locked_machine : Machine :=
  {| homedir := "/Users/dev"; cwd := "/work";
     readable := λ _, true;
     tree := Some [ DDir ".vscode" (Some [DFile "settings.json"]);
                    DDir "private" None ] |}.

(** Some directory below the entry cannot be read. *)
Fixpoint unreadableIn (e : Dirent) : bool :=
  match e with
  | DDir _ (Some sub) => existsb unreadableIn sub
  | DDir _ None => true
  | _ => false
  end.

Definition hasUnreadable (entries : list Dirent) : bool :=
  existsb unreadableIn entries.

(** The number of files named [settings.json] at or below the entry. *)
Fixpoint settingsIn (e : Dirent) : nat :=
  match e with
  | DDir _ (Some sub) => list_sum (map settingsIn sub)
  | DFile name => if String.eqb name "settings.json" then 1 else 0
  | _ => 0
  end.

Definition settingsCount (entries : list Dirent) : nat :=
  list_sum (map settingsIn entries).

(** [p] is the path of a regular file named [settings.json] in the tree
    whose root [dir] has the entries [entries]. *)
Inductive SettingsFileAt : string → list Dirent → string → Prop :=
| SettingsFile_here dir entries :
    In (DFile "settings.json") entries →
    SettingsFileAt dir entries (joinPath dir "settings.json")
| SettingsFile_below dir entries name sub p :
    In (DDir name (Some sub)) entries →
    SettingsFileAt (joinPath dir name) sub p →
    SettingsFileAt dir entries p.

(** The text [s] ends with the text [suffix]. *)
Definition EndsWith (suffix s : string) : Prop :=
  ∃ pre : list ascii,
    list_ascii_of_string s = pre ++ list_ascii_of_string suffix.

(** A workspace nested in a folder whose name contains [.vscode]. *)
Definition nested_tree : list Dirent :=
  [ DDir "src" (Some [DFile "settings.json"; DOther "link"]);
    DFile "settings.json"; DFile "README.md" ].

(** A [.vscode] folder where [settings.json] is, in turn, the name of a
    link (it is neither a file nor a directory), of a directory and of a
    file. *)
Definition linked_tree : list Dirent :=
  [ DDir "a" (Some [DOther "settings.json"]);
    DDir "settings.json" (Some [DFile "notes.txt"]);
    DDir "b" (Some [DFile "settings.json"; DOther "socket"]) ].

(* ===================================================================== *)
(** ** The source text of the allow template *)
(* ===================================================================== *)

(** The class [[-/\\^$*+?.()|[\]{}]] of [buildSafeTemplate]. *)
Definition isSpecial (c : ascii) : bool :=
  existsb (Ascii.eqb c) (list_ascii_of_string "-/\^$*+?.()|[]{}").

Fixpoint escapeL (w : list ascii) : list ascii :=
  match w with
  | [] => []
  | c :: w' =>
      if isSpecial c then "\"%char :: c :: escapeL w' else c :: escapeL w'
  end.

(** [p.replace(/[-/\\^$*+?.()|[\]{}]/g, "\\$&")]: a backslash before every
    character of the class. *)
Definition escapeRegExp (p : string) : string :=
  string_of_list_ascii (escapeL (list_ascii_of_string p)).

(** [prefixes.map(escape).join("|")] *)
Definition altSource (prefixes : list string) : string :=
  join "|" (map escapeRegExp prefixes).

(** The text given to [new RegExp] by [buildSafeTemplate]. *)
Definition templateSource (prefixes : list string) : string :=
  "^:(" ++ altSource prefixes ++ ")-[A-Za-z0-9_-]+(:[A-Za-z0-9_-]+)?$|^:clean$".



(* ===================================================================== *)
(** ** The matcher decides the language *)
(* ===================================================================== *)

Section RegexFacts.

Create HintDb lang.
#[local] Hint Constructors Lang : lang.

Lemma Lang_nil_app r1 r2 : Lang r1 [] → Lang r2 [] → Lang (Seq r1 r2) [].
Proof. intros H1 H2. exact (LSeq r1 r2 [] [] H1 H2). Qed.

Lemma nullable_Lang r : nullable r = true ↔ Lang r [].
Proof.
  induction r as [| | c | f | r1 IH1 r2 IH2 | r1 IH1 r2 IH2 | r IH]; simpl.
  - split; [discriminate | inversion 1].
  - split; [constructor | reflexivity].
  - split; [discriminate | inversion 1].
  - split; [discriminate | inversion 1].
  - rewrite andb_true_iff, IH1, IH2. split.
    + intros [H1 H2]. by apply Lang_nil_app.
    + inversion 1 as [| | |? ? w1 w2 H1 H2 Hr Hw| | | |]; subst.
      apply app_eq_nil in Hw as [-> ->]. by split.
  - rewrite orb_true_iff, IH1, IH2. split.
    + intros [H | H]; eauto with lang.
    + inversion 1; subst; auto.
  - split; [constructor | reflexivity].
Qed.

Lemma Lang_mkSeq r1 r2 w : Lang (mkSeq r1 r2) w ↔ Lang (Seq r1 r2) w.
Proof.
  split.
  - destruct r1, r2; simpl; intros H; try (inversion H; fail); try exact H;
      try (exact (LSeq Eps _ [] w LEps H)).
  - intros H. inversion H as [| | |? ? w1 w2 H1 H2 Hr Hw| | | |]; subst.
    destruct r1, r2; simpl; try (inversion H1; fail); try (inversion H2; fail);
      try exact H; inversion H1; subst; simpl; exact H2.
Qed.

Lemma Lang_mkAlt r1 r2 w : Lang (mkAlt r1 r2) w ↔ Lang (Alt r1 r2) w.
Proof.
  split.
  - destruct r1, r2; simpl; intros H; try exact H;
      first [ exact (LAltL _ _ _ H) | exact (LAltR _ _ _ H) ].
  - intros H. inversion H as [| | | |? ? ? H1|? ? ? H2| |]; subst.
    + destruct r1, r2; simpl; try (inversion H1; fail); try exact H; exact H1.
    + destruct r1, r2; simpl; try (inversion H2; fail); try exact H; exact H2.
Qed.

(** A non-empty word of a starred language starts with a non-empty word of
    the language itself. *)
Lemma Lang_Star_cons r a w :
  Lang (Star r) (a :: w) →
  ∃ w1 w2, w = w1 ++ w2 ∧ Lang r (a :: w1) ∧ Lang (Star r) w2.
Proof.
  intros H. remember (Star r) as sr eqn:Hsr. remember (a :: w) as aw eqn:Haw.
  revert w Hsr Haw.
  induction H as [| | | | | | r' | r' w1 w2 H1 _ H2 IH2]; intros u Hsr Haw;
    try discriminate.
  injection Hsr as ->.
  destruct w1 as [| b w1]; simpl in Haw.
  - by apply IH2.
  - injection Haw as Hb Hu. subst b u. by exists w1, w2.
Qed.

Lemma deriv_Lang a r w : Lang (deriv a r) w ↔ Lang r (a :: w).
Proof.
  revert w.
  induction r as [| | c | f | r1 IH1 r2 IH2 | r1 IH1 r2 IH2 | r IH]; intros w; simpl.
  - split; inversion 1.
  - split; inversion 1.
  - destruct (Ascii.eqb_spec a c) as [-> | Hne].
    + split; inversion 1; subst; constructor.
    + split; inversion 1; subst; congruence.
  - destruct (f a) eqn:Hf.
    + split; inversion 1; subst; by constructor.
    + split; inversion 1; subst; congruence.
  - assert (Hstep : Lang (Seq (deriv a r1) r2) w ∨ (nullable r1 = true ∧ Lang (deriv a r2) w)
                    ↔ Lang (Seq r1 r2) (a :: w)).
    { split.
      - intros [H | [Hn H]].
        + inversion H as [| | |? ? w1 w2 H1 H2 Hr Hw| | | |]; subst.
          apply IH1 in H1. exact (LSeq r1 r2 (a :: w1) w2 H1 H2).
        + apply nullable_Lang in Hn. apply IH2 in H.
          exact (LSeq r1 r2 [] (a :: w) Hn H).
      - inversion 1 as [| | |? ? w1 w2 H1 H2 Hr Hw| | | |]; subst.
        destruct w1 as [| b w1]; simpl in Hw.
        + subst w2. right. split; [by apply nullable_Lang | by apply IH2].
        + injection Hw as Hb Hu. subst b w. left. apply IH1 in H1. by constructor. }
    rewrite <- Hstep. destruct (nullable r1).
    + rewrite Lang_mkAlt. split.
      * inversion 1; subst; [left; by apply Lang_mkSeq | right; by split].
      * intros [H | [_ H]]; [apply LAltL; by apply Lang_mkSeq | by apply LAltR].
    + rewrite Lang_mkSeq. split; [by left | intros [H | [Hn _]]; [done | discriminate]].
  - rewrite Lang_mkAlt. split.
    + inversion 1; subst; [apply LAltL; by apply IH1 | apply LAltR; by apply IH2].
    + inversion 1; subst; [apply LAltL; by apply IH1 | apply LAltR; by apply IH2].
  - rewrite Lang_mkSeq. split.
    + inversion 1 as [| | |? ? w1 w2 H1 H2 Hr Hw| | | |]; subst.
      apply IH in H1. exact (LStarApp r (a :: w1) w2 H1 H2).
    + intros H. apply Lang_Star_cons in H as (w1 & w2 & -> & H1 & H2).
      apply IH in H1. by constructor.
Qed.

(** The matcher accepts exactly the words of the language. *)
Lemma accepts_Lang r w : accepts r w = true ↔ Lang r w.
Proof.
  revert r. induction w as [| a w IH]; intros r; simpl.
  - apply nullable_Lang.
  - rewrite IH. apply deriv_Lang.
Qed.

Lemma Lang_anyUnit_star w : Lang (Star anyUnit) w.
Proof.
  induction w as [| a w IH]; [constructor |].
  exact (LStarApp anyUnit [a] w (LCls _ a eq_refl) IH).
Qed.

Lemma Lang_padded b w : Lang (padded b) w ↔ Occurs b w.
Proof.
  unfold padded, Occurs. split.
  - inversion 1 as [| | |? ? pre w' Hpre Hrest Hr Hw| | | |]; subst.
    inversion Hrest as [| | |? ? mid post Hmid Hpost Hr Hw| | | |]; subst.
    exists pre, mid, post. repeat split; [done | |].
    + intros Hb. rewrite Hb in Hpre. by inversion Hpre.
    + intros He. rewrite He in Hpost. by inversion Hpost.
  - intros (pre & mid & post & -> & Hmid & Hb & He).
    constructor; [| constructor; [done |]].
    + destruct (bos b); [rewrite Hb by done; constructor | apply Lang_anyUnit_star].
    + destruct (eos b); [rewrite He by done; constructor | apply Lang_anyUnit_star].
Qed.

(** [test] answers [true] exactly when an alternative occurs in the subject. *)
Lemma testL_Occurs R w : testL R w = true ↔ ∃ b, In b R ∧ Occurs b w.
Proof.
  unfold testL. rewrite existsb_exists. split.
  - intros (b & Hin & Hacc). exists b. split; [done |].
    by apply Lang_padded, accepts_Lang.
  - intros (b & Hin & Hocc). exists b. split; [done |].
    by apply accepts_Lang, Lang_padded.
Qed.

Lemma Lang_LitL u w : Lang (LitL u) w ↔ w = u.
Proof.
  revert w. induction u as [| c u IH]; intros w; simpl.
  - split; [by inversion 1 | intros ->; constructor].
  - split.
    + inversion 1 as [| | |? ? w1 w2 H1 H2 Hr Hw| | | |]; subst.
      inversion H1; subst. apply IH in H2 as ->. done.
    + intros ->. apply (LSeq (Chr c) (LitL u) [c] u); [constructor | by apply IH].
Qed.

Lemma Lang_Cls_star f w : Lang (Star (Cls f)) w ↔ Forall (λ c, f c = true) w.
Proof.
  split.
  - intros H. remember (Star (Cls f)) as sr eqn:Hsr. revert Hsr.
    induction H as [| | | | | | r' | r' w1 w2 H1 _ H2 IH2]; intros Hsr;
      try discriminate; [constructor |].
    injection Hsr as ->. inversion H1; subst. constructor; [done | by apply IH2].
  - induction 1 as [| c w Hc _ IH]; [constructor |].
    exact (LStarApp (Cls f) [c] w (LCls f c Hc) IH).
Qed.

Lemma Lang_Cls_plus f w :
  Lang (Plus (Cls f)) w ↔ w ≠ [] ∧ Forall (λ c, f c = true) w.
Proof.
  unfold Plus. split.
  - inversion 1 as [| | |? ? w1 w2 H1 H2 Hr Hw| | | |]; subst.
    inversion H1; subst. apply Lang_Cls_star in H2. split; [done |].
    by constructor.
  - intros [Hne Hall]. destruct Hall as [| c w Hc Hall]; [done |].
    apply (LSeq (Cls f) (Star (Cls f)) [c] w); [by constructor | by apply Lang_Cls_star].
Qed.

(** The expression [/rm\s+-rf/] finds what its text says. *)
Lemma test_rmRf pattern : test rmRf pattern = true ↔ ContainsRmRf pattern.
Proof.
  unfold test, ContainsRmRf. rewrite testL_Occurs. split.
  - intros (b & Hin & pre & mid & post & Hw & Hmid & _).
    destruct Hin as [<- | []]. simpl in Hmid.
    inversion Hmid as [| | |? ? w1 w2 H1 H2 Hr Hw'| | | |]; subst.
    inversion H2 as [| | |? ? gap w3 Hg H3 Hr Hw'| | | |]; subst.
    apply (Lang_LitL (list_ascii_of_string "rm")) in H1 as ->.
    apply (Lang_LitL (list_ascii_of_string "-rf")) in H3 as ->.
    apply Lang_Cls_plus in Hg as [Hne Hall].
    exists pre, gap, post. rewrite Hw. by rewrite <- !app_assoc.
  - intros (pre & gap & post & Hw & Hne & Hall).
    exists (Branch false (cat [Lit "rm"; Plus ws; Lit "-rf"]) false).
    split; [by left |].
    exists pre, (list_ascii_of_string "rm" ++ gap ++ list_ascii_of_string "-rf"), post.
    split; [rewrite Hw; by rewrite <- !app_assoc |].
    split; [| done]. cbn [body cat].
    apply LSeq; [by apply (Lang_LitL (list_ascii_of_string "rm")) |].
    apply LSeq; [by apply Lang_Cls_plus |].
    by apply (Lang_LitL (list_ascii_of_string "-rf")).
Qed.

End RegexFacts.

(* ===================================================================== *)
(** ** The prefix of a pattern is the group of the greedy match *)
(* ===================================================================== *)

Section PrefixFacts.

Let Ident (u : list ascii) : Prop := Forall (λ c, isIdent c = true) u.

Lemma identRun_app v x : Ident v → identRun (v ++ x) = v ++ identRun x.
Proof.
  induction 1 as [| c v Hc _ IH]; simpl; [done |]. by rewrite Hc, IH.
Qed.

Lemma identRun_Ident w : Ident (identRun w).
Proof.
  induction w as [| c w IH]; simpl; [constructor |].
  destruct (isIdent c) eqn:Hc; by constructor.
Qed.

Lemma identRun_prefix w : ∃ rest, w = identRun w ++ rest.
Proof.
  induction w as [| c w [rest IH]]; simpl; [by exists [] |].
  destruct (isIdent c); [| by eexists].
  exists rest. simpl. by rewrite <- IH.
Qed.

Lemma beforeLastHyphen_None x :
  beforeLastHyphen x = None ↔ ¬ In "-"%char x.
Proof.
  induction x as [| c x IH]; simpl; [tauto |].
  destruct (beforeLastHyphen x) as [u |].
  - split; [discriminate |]. intros Hno. exfalso. 
    assert (Hx : ¬ In "-"%char x) by tauto.
    apply IH in Hx. discriminate Hx.
  - destruct (Ascii.eqb_spec c "-") as [-> | Hne].
    + split; [discriminate | tauto].
    + split; [| done]. intros _ [Hc | Hin]; [done |]. by apply IH in Hin.
Qed.

Lemma beforeLastHyphen_Some x u :
  beforeLastHyphen x = Some u →
  ∃ t, x = u ++ "-"%char :: t ∧ ¬ In "-"%char t.
Proof.
  revert u. induction x as [| c x IH]; intros u; simpl; [discriminate |].
  destruct (beforeLastHyphen x) as [u0 |] eqn:Hx.
  - intros [= <-]. destruct (IH u0 eq_refl) as (t & -> & Hno). by exists t.
  - destruct (Ascii.eqb_spec c "-") as [-> | Hne]; [| discriminate].
    intros [= <-]. exists x. split; [done |]. by apply beforeLastHyphen_None.
Qed.

(** No hyphen-terminated prefix is longer than the one before the last
    hyphen. *)
Lemma last_hyphen_longest (u t u' t' : list ascii) :
  u ++ "-"%char :: t = u' ++ "-"%char :: t' →
  ¬ In "-"%char t → (List.length u' ≤ List.length u)%nat.
Proof.
  intros Heq Hno.
  destruct (le_lt_dec (List.length u') (List.length u)) as [Hle | Hlt]; [done |].
  exfalso. apply app_eq_app in Heq as [l [[Hu Ht] | [Hu Ht]]].
  - subst u. rewrite length_app in Hlt. lia.
  - subst u'. destruct l as [| c l].
    + rewrite app_nil_r in Hlt. lia.
    + injection Ht as _ ->. apply Hno, in_or_app. right. by left.
Qed.

Lemma groupOf_split w u :
  groupOf w = Some u → ∃ post, PrefixSplit w u post.
Proof.
  unfold groupOf.
  destruct w as [| c0 w']; [discriminate |].
  destruct (Ascii.eqb_spec c0 ":") as [-> | Hne];
    [| by destruct c0 as [[] [] [] [] [] [] [] []]].
  destruct (identRun w') as [| c run] eqn:Hrun; [discriminate |].
  destruct (beforeLastHyphen run) as [u0 |] eqn:Hlast; [| discriminate].
  intros [= <-].
  apply beforeLastHyphen_Some in Hlast as (t & -> & Hno).
  destruct (identRun_prefix w') as [rest Hw']. rewrite Hrun in Hw'.
  exists (t ++ rest). split; [| split; [done |]].
  - rewrite Hw'. simpl. by rewrite <- app_assoc.
  - pose proof (identRun_Ident w') as Hid. rewrite Hrun in Hid.
    change (c :: u0 ++ "-"%char :: t) with ((c :: u0) ++ "-"%char :: t) in Hid.
    by apply Forall_app in Hid as [Hid _].
Qed.

Lemma groupOf_longest w u u' post' :
  groupOf w = Some u → PrefixSplit w u' post' → (List.length u' ≤ List.length u)%nat.
Proof.
  intros Hg (-> & Hne & Hid). unfold groupOf in Hg.
  assert (Hrun : identRun (u' ++ "-"%char :: post')
                 = u' ++ "-"%char :: identRun post').
  { change (u' ++ "-"%char :: post') with (u' ++ ["-"%char] ++ post').
    rewrite app_assoc, identRun_app, <- app_assoc; [done |].
    apply Forall_app. split; [done | by constructor]. }
  rewrite Hrun in Hg. destruct u' as [| c u1]; [done |]. simpl in Hg.
  destruct (beforeLastHyphen (u1 ++ "-"%char :: identRun post')) as [u0 |] eqn:Hlast;
    [| discriminate].
  injection Hg as <-.
  apply beforeLastHyphen_Some in Hlast as (t & Heq & Hno).
  simpl. apply le_n_S. symmetry in Heq. by eapply last_hyphen_longest.
Qed.

Lemma split_groupOf w u post : PrefixSplit w u post → is_Some (groupOf w).
Proof.
  intros (-> & Hne & Hid). unfold groupOf.
  change (u ++ "-"%char :: post) with (u ++ ["-"%char] ++ post).
  rewrite app_assoc, identRun_app;
    [| apply Forall_app; split; [done | by constructor]].
  destruct u as [| c u1]; [done |]. simpl.
  destruct (beforeLastHyphen ((u1 ++ ["-"%char]) ++ identRun post)) as [u0 |] eqn:Hlast;
    [done |].
  exfalso. apply beforeLastHyphen_None in Hlast. apply Hlast.
  apply in_or_app. left. apply in_or_app. right. by left.
Qed.

(** [groupOf] computes the group of the greedy match, and only that. *)
Lemma groupOf_greedy w u : groupOf w = Some u ↔ GreedyGroup w u.
Proof.
  split.
  - intros Hg. split; [by apply groupOf_split |].
    intros u' post'. by apply groupOf_longest.
  - intros [[post Hsplit] Hmax].
    destruct (split_groupOf w u post Hsplit) as [u0 Hg]. rewrite Hg. f_equal.
    destruct (groupOf_split w u0 Hg) as [post0 Hsplit0].
    pose proof (groupOf_longest w u0 u post Hg Hsplit) as Hle.
    pose proof (Hmax u0 post0 Hsplit0) as Hge.
    destruct Hsplit as (Hw & _ & _), Hsplit0 as (Hw0 & _ & _).
    rewrite Hw in Hw0. injection Hw0 as Heq.
    apply app_inj_1 in Heq as [Heq _]; [done | lia].
Qed.

(** The expression matches exactly when a group exists. *)
Lemma test_prefixRe pattern :
  test prefixRe pattern = true ↔ is_Some (prefixMatch pattern).
Proof.
  unfold test, prefixMatch. rewrite testL_Occurs.
  set (w := list_ascii_of_string pattern). split.
  - intros (b & Hin & pre & mid & post & Hw & Hmid & Hbos & _).
    destruct Hin as [<- | []]. rewrite (Hbos eq_refl) in Hw. simpl in Hw, Hmid.
    inversion Hmid as [| | |? ? w1 w2 H1 H2 Hr Hw'| | | |]; subst.
    inversion H2 as [| | |? ? u w3 Hu H3 Hr Hw'| | | |]; subst.
    apply (Lang_LitL (list_ascii_of_string ":")) in H1 as ->.
    apply (Lang_LitL (list_ascii_of_string "-")) in H3 as ->.
    apply Lang_Cls_plus in Hu as [Hne Hid].
    destruct (split_groupOf w u post) as [u0 Hg]; [| by rewrite Hg].
    split; [| done]. rewrite Hw. simpl. by rewrite <- app_assoc.
  - intros Hsome. destruct (groupOf w) as [u |] eqn:Hg; [| by destruct Hsome].
    apply groupOf_split in Hg as (post & Hw & Hne & Hid).
    exists (Branch true (cat [Lit ":"; Plus ident; Lit "-"]) false).
    split; [by left |].
    exists [], (":"%char :: u ++ ["-"%char]), post.
    split; [rewrite Hw; simpl; by rewrite <- app_assoc |].
    split; [| done]. cbn [body cat].
    apply (LSeq (Lit ":") _ [":"%char] (u ++ ["-"%char]));
      [by apply (Lang_LitL (list_ascii_of_string ":")) |].
    apply LSeq; [by apply Lang_Cls_plus |].
    by apply (Lang_LitL (list_ascii_of_string "-")).
Qed.

End PrefixFacts.

(* ===================================================================== *)
(** ** The loop over the entries of a rule map *)
(* ===================================================================== *)

Section IngestFacts.

Variable explicitPrefixes : list string.

Lemma nonEmpty_true {A : Type} (l : list A) : nonEmpty l = true ↔ l ≠ [].
Proof. destruct l; simpl; split; done. Qed.

Lemma invalid_isRisky pattern :
  valid (validatePatternSyntax pattern) = false →
  isRisky explicitPrefixes pattern = true.
Proof. unfold isRisky. intros ->. by rewrite !orb_true_r. Qed.

(** The lists after one iteration, whatever the accumulators were. *)
Lemma ingestEntry_riskyAcc st entry :
  riskyAcc (ingestEntry explicitPrefixes st entry)
  = riskyAcc st ++ riskyOf explicitPrefixes entry.
Proof.
  destruct entry as [pattern val]. unfold ingestEntry, riskyOf.
  destruct val; try (simpl; by rewrite app_nil_r).
  cbn [fst snd].
  generalize (validatePatternSyntax pattern) (isRisky explicitPrefixes pattern).
  intros sv r.
  destruct (bindings (healthAcc st) !! prefixOf pattern);
    destruct (valid sv); destruct r; cbn [riskyAcc];
    rewrite ?app_nil_r, <- ?app_assoc; reflexivity.
Qed.

Lemma ingestEntry_nonBooleanAcc st entry :
  nonBooleanAcc (ingestEntry explicitPrefixes st entry)
  = nonBooleanAcc st ++ nonBooleanOf entry.
Proof.
  destruct entry as [pattern val]. unfold ingestEntry, nonBooleanOf.
  destruct val; try reflexivity.
  cbn [fst snd].
  destruct (bindings (healthAcc st) !! prefixOf pattern);
    destruct (isRisky explicitPrefixes pattern); cbn [nonBooleanAcc];
    by rewrite app_nil_r.
Qed.

Lemma fold_riskyAcc entries st :
  riskyAcc (fold_left (ingestEntry explicitPrefixes) entries st)
  = riskyAcc st ++ flat_map (riskyOf explicitPrefixes) entries.
Proof.
  revert st. induction entries as [| e entries IH]; intros st; simpl.
  - by rewrite app_nil_r.
  - by rewrite IH, ingestEntry_riskyAcc, <- app_assoc.
Qed.

Lemma fold_nonBooleanAcc entries st :
  nonBooleanAcc (fold_left (ingestEntry explicitPrefixes) entries st)
  = nonBooleanAcc st ++ flat_map nonBooleanOf entries.
Proof.
  revert st. induction entries as [| e entries IH]; intros st; simpl.
  - by rewrite app_nil_r.
  - by rewrite IH, ingestEntry_nonBooleanAcc, <- app_assoc.
Qed.

Lemma riskyOf_nonEmpty entry :
  riskyOf explicitPrefixes entry ≠ [] ↔ JudgedRisky explicitPrefixes entry.
Proof.
  destruct entry as [pattern val]. unfold riskyOf, JudgedRisky. cbn [fst snd]. split.
  - destruct val; try done. intros H. exists b. split; [done |].
    destruct (isRisky explicitPrefixes pattern) eqn:Hr; [done |].
    destruct (valid (validatePatternSyntax pattern)) eqn:Hv; [done |].
    apply invalid_isRisky in Hv. congruence.
  - intros (b & -> & ->). by destruct (valid _).
Qed.

Lemma nonBooleanOf_nonEmpty entry :
  nonBooleanOf entry ≠ [] ↔ NonBooleanEntry entry.
Proof.
  destruct entry as [pattern val]. unfold nonBooleanOf, NonBooleanEntry. cbn [fst snd].
  destruct val; split; try done; intros H; by destruct (H b).
Qed.

Lemma flat_map_nonEmpty {A B : Type} (f : A → list B) (l : list A) :
  flat_map f l ≠ [] ↔ ∃ x, In x l ∧ f x ≠ [].
Proof.
  induction l as [| a l IH]; simpl.
  - split; [done | by intros (x & [] & _)].
  - split.
    + intros H. destruct (f a) eqn:Hfa.
      * simpl in H. apply IH in H as (x & Hin & Hx). exists x. auto.
      * exists a. split; [by left | by rewrite Hfa].
    + intros (x & [-> | Hin] & Hx) Happ; apply app_eq_nil in Happ as [H1 H2].
      * done.
      * apply IH in H2; [done | by exists x].
Qed.

(** The invariant of a health entry. *)
Lemma freshHealth_consistent p : Consistent (freshHealth p).
Proof. by split. Qed.

Lemma ingestEntry_consistent st entry :
  map_Forall (λ _, Consistent) (bindings (healthAcc st)) →
  map_Forall (λ _, Consistent)
    (bindings (healthAcc (ingestEntry explicitPrefixes st entry))).
Proof.
  intros Hall. destruct entry as [pattern val]. unfold ingestEntry.
  destruct val; try exact Hall.
  assert (Hold : Consistent
            match bindings (healthAcc st) !! prefixOf pattern with
            | Some h => h
            | None => freshHealth (prefixOf pattern)
            end).
  { destruct (bindings (healthAcc st) !! prefixOf pattern) eqn:Hget.
    - exact (Hall _ _ Hget).
    - apply freshHealth_consistent. }
  destruct (bindings (healthAcc st) !! prefixOf pattern);
    destruct Hold as [Hsum Hlen];
    destruct (isRisky explicitPrefixes pattern); cbn [healthAcc bindings];
    apply map_Forall_insert_2; try exact Hall;
    split; cbn [riskyCount safePatterns totalPatterns patterns];
    rewrite ?length_app; simpl; lia.
Qed.

Lemma fold_consistent entries st :
  map_Forall (λ _, Consistent) (bindings (healthAcc st)) →
  map_Forall (λ _, Consistent)
    (bindings (healthAcc (fold_left (ingestEntry explicitPrefixes) entries st))).
Proof.
  revert st. induction entries as [| e entries IH]; intros st Hall; simpl.
  - exact Hall.
  - by apply IH, ingestEntry_consistent.
Qed.

Lemma auditFile_consistent load a f :
  map_Forall (λ _, Consistent) (bindings (prefixHealth a)) →
  map_Forall (λ _, Consistent)
    (bindings (prefixHealth (auditFile explicitPrefixes load a f))).
Proof.
  intros Hall. unfold auditFile. destruct (ruleMapOf (load f)); [| exact Hall].
  simpl. unfold ingest. by apply fold_consistent.
Qed.

Lemma auditFiles_consistent load files :
  map_Forall (λ _, Consistent)
    (bindings (prefixHealth (auditFiles explicitPrefixes load files))).
Proof.
  unfold auditFiles.
  assert (Hgen : ∀ a, map_Forall (λ _, Consistent) (bindings (prefixHealth a)) →
            map_Forall (λ _, Consistent)
              (bindings (prefixHealth
                 (fold_left (auditFile explicitPrefixes load) files a)))).
  { induction files as [| f files IH]; intros a Hall; simpl; [done |].
    by apply IH, auditFile_consistent. }
  apply Hgen. simpl. apply map_Forall_empty.
Qed.

(** The list of keys of the health map names its bindings, once each. *)
Lemma keys_update hm p h0 h :
  bindings hm !! p = Some h0 → KeysAgree hm →
  KeysAgree {| bindings := <[p := h]> (bindings hm); keys := keys hm |}.
Proof.
  intros Hget [Hnd Hdom]. split; [exact Hnd |]. intros k. cbn [keys bindings].
  rewrite lookup_insert_is_Some, Hdom.
  destruct (decide (p = k)) as [<- | Hne]; [| tauto].
  rewrite Hget. split; [by left | by eexists].
Qed.

Lemma keys_set hm p h :
  bindings hm !! p = None → KeysAgree hm →
  KeysAgree {| bindings := <[p := h]> (bindings hm); keys := keys hm ++ [p] |}.
Proof.
  intros Hget [Hnd Hdom]. split; cbn [keys bindings].
  - apply NoDup_app. split; [exact Hnd |]. split; [| apply NoDup_singleton].
    intros k Hk Hk'. apply list_elem_of_singleton in Hk' as ->.
    apply list_elem_of_In, Hdom in Hk. rewrite Hget in Hk. by destruct Hk.
  - intros k. rewrite lookup_insert_is_Some, in_app_iff, Hdom. simpl.
    destruct (decide (p = k)) as [<- | Hne]; [tauto |]. split.
    + intros [H | [H | []]]; [by right | done].
    + intros [H | [_ H]]; [done | by left].
Qed.

Lemma ingestEntry_keys st entry :
  KeysAgree (healthAcc st) →
  KeysAgree (healthAcc (ingestEntry explicitPrefixes st entry)).
Proof.
  intros Hk. destruct entry as [pattern val]. unfold ingestEntry.
  destruct val; try exact Hk.
  destruct (bindings (healthAcc st) !! prefixOf pattern) as [h |] eqn:Hget;
    destruct (isRisky explicitPrefixes pattern); cbn [healthAcc];
    first [ by eapply keys_update | by apply keys_set ].
Qed.

Lemma auditFiles_keys load files :
  KeysAgree (prefixHealth (auditFiles explicitPrefixes load files)).
Proof.
  unfold auditFiles.
  assert (Hgen : ∀ a, KeysAgree (prefixHealth a) →
            KeysAgree (prefixHealth
              (fold_left (auditFile explicitPrefixes load) files a))).
  { induction files as [| f files IH]; intros a Hk; simpl; [done |].
    apply IH. unfold auditFile. destruct (ruleMapOf (load f)); [| done].
    cbn [prefixHealth]. unfold ingest.
    generalize dependent (prefixHealth a). intros hm.
    change hm with (healthAcc {| riskyAcc := []; nonBooleanAcc := []; healthAcc := hm |}) at 1.
    generalize {| riskyAcc := []; nonBooleanAcc := []; healthAcc := hm |}.
    induction l as [| e l IHl]; intros st Hst; simpl; [done |].
    by apply IHl, ingestEntry_keys. }
  apply Hgen. split; [constructor |]. intros k. simpl.
  rewrite lookup_empty. split; [done | by intros [? ?]].
Qed.

End IngestFacts.

(* ===================================================================== *)
(** ** Properties of the classifier *)
(* ===================================================================== *)

Lemma some_exists rs pattern :
  some rs pattern = true ↔ ∃ r, In r rs ∧ test r pattern = true.
Proof. unfold some. apply existsb_exists. Qed.

Lemma isAllowed_false explicitPrefixes pattern :
  isAllowed explicitPrefixes pattern = false ↔
  explicitPrefixes ≠ [] ∧ test (buildSafeTemplate explicitPrefixes) pattern = false.
Proof.
  unfold isAllowed. destruct explicitPrefixes as [| p ps].
  - split; [discriminate | by intros [H _]].
  - split; [by intros -> | by intros [_ ->]].
Qed.

Lemma isRisky_iff explicitPrefixes pattern :
  isRisky explicitPrefixes pattern = true ↔
    valid (validatePatternSyntax pattern) = false
    ∨ (∃ r, In r RISKY_PATTERNS ∧ test r pattern = true)
    ∨ isDangerousRmRf pattern = true
    ∨ (explicitPrefixes ≠ [] ∧
       test (buildSafeTemplate explicitPrefixes) pattern = false).
Proof.
  unfold isRisky, isRiskyPattern.
  rewrite !orb_true_iff, !negb_true_iff, some_exists, isAllowed_false.
  tauto.
Qed.

(** The tallies of the prefix of a boolean entry after its iteration. *)
Lemma ingestEntry_health explicitPrefixes st pattern b :
  let h0 := healthBefore st (prefixOf pattern) in
  let st' := ingestEntry explicitPrefixes st (pattern, JBool b) in
  ∃ h', bindings (healthAcc st') !! prefixOf pattern = Some h'
    ∧ totalPatterns h' = S (totalPatterns h0)
    ∧ patterns h' = patterns h0 ++ [pattern]
    ∧ (if isRisky explicitPrefixes pattern
       then riskyCount h' = S (riskyCount h0) ∧ safePatterns h' = safePatterns h0
            ∧ riskyList h' = riskyList h0 ++ [pattern]
       else riskyCount h' = riskyCount h0 ∧ safePatterns h' = S (safePatterns h0)
            ∧ riskyList h' = riskyList h0).
Proof.
  unfold healthBefore, ingestEntry. cbv zeta.
  destruct (bindings (healthAcc st) !! prefixOf pattern);
    destruct (isRisky explicitPrefixes pattern); cbn [healthAcc bindings];
    rewrite lookup_insert_eq; eexists; split; try reflexivity; done.
Qed.

(** C1: for a boolean entry and any allow-prefix list, the verdict is risky
    exactly when the pattern fails syntax validation, or matches an
    expression of the danger taxonomy, or is flagged by the
    dangerous-removal check, or the list is not empty and the pattern does
    not match the allow template built from it; otherwise the verdict is
    safe.  The iteration of the loop tallies the entry by this verdict. *)
Theorem verdict_risky_iff (explicitPrefixes : list string) (pattern : string) :
  (verdict explicitPrefixes pattern = Risky ↔
     valid (validatePatternSyntax pattern) = false
     ∨ (∃ r, In r RISKY_PATTERNS ∧ test r pattern = true)
     ∨ isDangerousRmRf pattern = true
     ∨ (explicitPrefixes ≠ [] ∧
        test (buildSafeTemplate explicitPrefixes) pattern = false))
  ∧ (verdict explicitPrefixes pattern ≠ Risky ↔
     verdict explicitPrefixes pattern = Safe)
  ∧ (∀ st b,
       let h0 := healthBefore st (prefixOf pattern) in
       ∃ h', bindings (healthAcc
                 (ingestEntry explicitPrefixes st (pattern, JBool b)))
               !! prefixOf pattern = Some h'
         ∧ match verdict explicitPrefixes pattern with
           | Risky => riskyCount h' = S (riskyCount h0)
                      ∧ safePatterns h' = safePatterns h0
           | Safe => riskyCount h' = riskyCount h0
                     ∧ safePatterns h' = S (safePatterns h0)
           end).
Proof.
  split; [| split].
  - rewrite <- isRisky_iff. unfold verdict.
    destruct (isRisky explicitPrefixes pattern); split; congruence.
  - unfold verdict. destruct (isRisky explicitPrefixes pattern); split; congruence.
  - intros st b h0.
    destruct (ingestEntry_health explicitPrefixes st pattern b)
      as (h' & Hget & _ & _ & Hcase).
    exists h'. split; [exact Hget |]. unfold verdict.
    destruct (isRisky explicitPrefixes pattern); tauto.
Qed.

(** The first check of [validatePatternSyntax] counts every single quote. *)
Lemma countUnit_filter c s :
  countUnit c s
  = List.length (List.filter (λ a, Ascii.eqb a c) (list_ascii_of_string s)).
Proof.
  induction s as [| a s IH]; simpl; [done |].
  destruct (Ascii.eqb a c); simpl; by rewrite IH.
Qed.

Lemma pushIf_In c label x l : In x l → In x (pushIf c label l).
Proof. unfold pushIf. destruct c; [| done]. intros H. apply in_or_app. by left. Qed.

Lemma odd_mod2 n : Nat.odd n = true → negb (n mod 2 =? 0)%nat = true.
Proof.
  intros H. apply negb_true_iff, Nat.eqb_neq.
  rewrite <- Nat.bit0_mod, Nat.bit0_odd, H. done.
Qed.

(** C3 (as the program has it): if the number of single quote characters
    of a pattern, escaped or not, is odd, then [validatePatternSyntax]
    answers invalid and its issues include the unterminated single quote
    marker. *)
Theorem odd_single_quotes_invalid (pattern : string) :
  Nat.odd (List.length (List.filter (λ a, Ascii.eqb a "'")
                          (list_ascii_of_string pattern))) = true →
  valid (validatePatternSyntax pattern) = false
  ∧ In "unterminated single quotes" (issues (validatePatternSyntax pattern)).
Proof.
  intros Hodd. rewrite <- countUnit_filter in Hodd. apply odd_mod2 in Hodd.
  assert (Hin : In "unterminated single quotes"
                  (issues (validatePatternSyntax pattern))).
  { unfold validatePatternSyntax. cbv zeta. cbn [issues].
    do 8 apply pushIf_In. rewrite Hodd. by left. }
  split; [| exact Hin].
  unfold validatePatternSyntax in *. cbv zeta in *. cbn [issues valid] in *.
  destruct (pushIf _ _ _); [destruct Hin | reflexivity].
Qed.

Lemma odd_single_quotes_invalid_witness :
  Nat.odd (List.length (List.filter (λ a, Ascii.eqb a "'")
                          (list_ascii_of_string ":say-it's"))) = true
  ∧ valid (validatePatternSyntax ":say-it's") = false
  ∧ In "unterminated single quotes" (issues (validatePatternSyntax ":say-it's")).
Proof.
  split; [reflexivity |].
  apply (odd_single_quotes_invalid ":say-it's"). reflexivity.
Defined.

(** C3 as stated fails: in the pattern made of a single quote, a backslash
    and a single quote, the second quote is escaped, so one single quote
    is unescaped; the pattern is valid all the same. *)
Lemma escaped_quote_counterexample :
  Nat.odd (unescapedCount "'" (list_ascii_of_string "'\'")) = true
  ∧ ¬ (valid (validatePatternSyntax "'\'") = false
       ∧ In "unterminated single quotes" (issues (validatePatternSyntax "'\'"))).
Proof.
  split; [reflexivity |]. intros [Hv _]. vm_compute in Hv. discriminate Hv.
Qed.

(** C4: a recursive force delete of an absolute path whose text contains
    the name of a build directory is not flagged, and the rule is judged
    safe when no allow-prefix is given. *)
Theorem absolute_path_not_flagged :
  test rmRf "rm -rf /tmp" = true
  ∧ isDangerousRmRf "rm -rf /tmp" = false
  ∧ verdict [] "rm -rf /tmp" = Safe
  ∧ isDangerousRmRf ":clean-all:rm -rf /usr/local/build" = false.
Proof. repeat split; vm_compute; reflexivity. Qed.

(** C10 (as the program has it): a pattern that does not contain the
    characters [rm], white space and the characters [-rf] one after the
    other, at any place, inside longer words included, is not flagged by
    the dangerous-removal check. *)
Theorem isDangerousRmRf_only_rm_rf (pattern : string) :
  ¬ ContainsRmRf pattern → isDangerousRmRf pattern = false.
Proof.
  intros Hno. unfold isDangerousRmRf.
  destruct (test rmRf pattern) eqn:Ht; [| reflexivity].
  apply test_rmRf in Ht. contradiction.
Qed.

Lemma not_ContainsRmRf pattern : test rmRf pattern = false → ¬ ContainsRmRf pattern.
Proof. intros Ht Hc. apply test_rmRf in Hc. congruence. Qed.

Lemma isDangerousRmRf_only_rm_rf_witness :
  (¬ ContainsRmRf "rm -fr /" ∧ isDangerousRmRf "rm -fr /" = false)
  ∧ (¬ ContainsRmRf "rm -r -f /" ∧ isDangerousRmRf "rm -r -f /" = false).
Proof.
  split; (split; [apply not_ContainsRmRf; vm_compute; reflexivity |]).
  - apply (isDangerousRmRf_only_rm_rf "rm -fr /").
    apply not_ContainsRmRf. vm_compute. reflexivity.
  - apply (isDangerousRmRf_only_rm_rf "rm -r -f /").
    apply not_ContainsRmRf. vm_compute. reflexivity.
Defined.

(** A text with the token has the characters, so that a text without the
    characters has no token: the statement above covers fewer patterns
    than one about tokens would. *)
Lemma HasRmRfToken_ContainsRmRf pattern : HasRmRfToken pattern → ContainsRmRf pattern.
Proof.
  intros (pre & gap & post & Hw & Hne & Hall & _). by exists pre, gap, post.
Qed.

Lemma HasRmRfToken_test pattern : HasRmRfToken pattern → test tokenRmRf pattern = true.
Proof.
  intros (pre & gap & post & Hw & Hne & Hall & Hpre & Hpost).
  unfold test. rewrite testL_Occurs, Hw.
  set (rm := list_ascii_of_string "rm") in *.
  set (rf := list_ascii_of_string "-rf") in *.
  assert (Hbody : Lang (cat [Lit "rm"; Plus ws; Lit "-rf"]) (rm ++ gap ++ rf)).
  { cbn [cat]. apply LSeq; [by apply (Lang_LitL rm) |].
    apply LSeq; [by apply Lang_Cls_plus | by apply (Lang_LitL rf)]. }
  assert (Hother : ∀ c, isWordChar c = false →
            Lang (Cls (λ c, negb (isWordChar c))) [c]).
  { intros c Hc. constructor. by rewrite Hc. }
  destruct pre as [| c0 pre0 _] using rev_ind; destruct post as [| c1 post1].
  - eexists. split; [left; reflexivity |].
    exists [], (rm ++ gap ++ rf), []. cbn [bos body eos].
    split; [by rewrite <- !app_assoc |]. by split.
  - eexists. split; [right; left; reflexivity |].
    exists [], ((rm ++ gap ++ rf) ++ [c1]), post1. cbn [bos body eos].
    split; [by rewrite <- !app_assoc |]. split; [| done].
    apply LSeq; [done |]. apply Hother. by eapply Hpost.
  - eexists. split; [right; right; left; reflexivity |].
    exists pre0, ([c0] ++ rm ++ gap ++ rf), []. cbn [bos body eos].
    split; [by rewrite <- !app_assoc |]. split; [| done].
    apply LSeq; [| done]. apply Hother. by eapply Hpre.
  - eexists. split; [right; right; right; left; reflexivity |].
    exists pre0, ([c0] ++ (rm ++ gap ++ rf) ++ [c1]), post1. cbn [bos body eos].
    split; [by rewrite <- !app_assoc |]. split; [| done].
    apply LSeq; [apply Hother; by eapply Hpre |].
    apply LSeq; [done |]. apply Hother. by eapply Hpost.
Qed.

Lemma not_HasRmRfToken pattern : test tokenRmRf pattern = false → ¬ HasRmRfToken pattern.
Proof. intros Ht Hc. apply HasRmRfToken_test in Hc. congruence. Qed.

(** The reading of the token is not empty: the pattern of scenario D has
    it. *)
Example scenarioD_has_token : HasRmRfToken ":bad:rm -rf /".
Proof.
  exists (list_ascii_of_string ":bad:"), [" "%char], (list_ascii_of_string " /").
  split; [reflexivity |]. split; [done |]. split; [by repeat constructor |].
  split.
  - intros pre' c Hpre.
    change (list_ascii_of_string ":bad:") with (list_ascii_of_string ":bad" ++ [":"%char]) in Hpre.
    by apply app_inj_tail in Hpre as [_ <-].
  - by intros c post' [= <- _].
Qed.

(** C10 as stated fails: [rm] at the end of a longer word, or [-rf] at
    the start of a longer flag, is no token [rm] followed by the flag
    [-rf], and the pattern is flagged all the same. *)
Lemma rm_inside_word_counterexample :
  (¬ HasRmRfToken "farm -rf x" ∧ isDangerousRmRf "farm -rf x" = true)
  ∧ (¬ HasRmRfToken "rm -rfv /" ∧ isDangerousRmRf "rm -rfv /" = true)
  ∧ (¬ HasRmRfToken "xrm -rfoo" ∧ isDangerousRmRf "xrm -rfoo" = true).
Proof.
  split; [| split];
    (split; [apply not_HasRmRfToken; vm_compute; reflexivity
            | vm_compute; reflexivity]).
Qed.

(* ===================================================================== *)
(** ** Properties of the aggregator *)
(* ===================================================================== *)

(** The loop never looks at the value of a boolean entry. *)
Lemma ingestEntry_ignores_enablement explicitPrefixes st pattern b :
  ingestEntry explicitPrefixes st (pattern, JBool b)
  = ingestEntry explicitPrefixes st (pattern, JBool true).
Proof. reflexivity. Qed.

(** C2: two disabled rules are classified like enabled ones: the first is
    listed as risky, counted as risky under its prefix and reported in a
    finding, the second is counted as safe under its prefix.  The earlier
    revision of the loop skips both. *)
Theorem disabled_rules_are_classified :
  let st := ingest ["tachyon"] emptyHealth disabled_rules in
  riskyAcc st = [":unknown-task"]
  ∧ bindings (healthAcc st) !! "unknown"
    = Some {| prefix := "unknown"; totalPatterns := 1; riskyCount := 1;
              safePatterns := 0; patterns := [":unknown-task"];
              riskyList := [":unknown-task"] |}
  ∧ bindings (healthAcc st) !! "tachyon"
    = Some {| prefix := "tachyon"; totalPatterns := 1; riskyCount := 0;
              safePatterns := 1; patterns := [":tachyon-build"];
              riskyList := [] |}
  ∧ findingOf settingsPath st
    = Some {| file := settingsPath; riskyPatterns := [":unknown-task"];
              nonBoolean := None |}
  ∧ Legacy.ingest ["tachyon"] disabled_rules = ([], []).
Proof. repeat split; vm_compute; reflexivity. Qed.

(** C5: in scenario D the prefix expression matches neither pattern, so
    both rules are filed under the key [unknown]; the health map has no
    entry keyed [bad], and the report line reads 0/2 safe (100% risky) for
    [unknown]. *)
Theorem scenarioD_prefix_is_unknown :
  let o := auditAutoApprove (oneFile scenarioD_rules) scenarioD_opts in
  test prefixRe ":bad:rm -rf /" = false
  ∧ test prefixRe ":bad:rm -rf *" = false
  ∧ bindings (prefixHealth (result o)) !! "bad" = None
  ∧ keys (prefixHealth (result o)) = ["unknown"]
  ∧ bindings (prefixHealth (result o)) !! "unknown"
    = Some {| prefix := "unknown"; totalPatterns := 2; riskyCount := 2;
              safePatterns := 0;
              patterns := [":bad:rm -rf /"; ":bad:rm -rf *"];
              riskyList := [":bad:rm -rf /"; ":bad:rm -rf *"] |}
  ∧ logged o
    = [LogReportTitle; LogReportRule;
       LogHealth Critical "unknown" 0 2 100;
       LogRiskyList [":bad:rm -rf /"; ":bad:rm -rf *"] false;
       LogBlank;
       LogFoundIssues 1; LogFile settingsPath;
       LogRisky ":bad:rm -rf /"; LogRisky ":bad:rm -rf *"].
Proof. repeat split; vm_compute; reflexivity. Qed.

(** C6: after any batch of settings files, every entry of the prefix
    health map has [riskyPatterns + safePatterns = totalPatterns] and
    [patterns.length = totalPatterns]. *)
Theorem prefix_health_consistent (env : Env) (opts : Options) :
  map_Forall
    (λ _ h, riskyCount h + safePatterns h = totalPatterns h
            ∧ List.length (patterns h) = totalPatterns h)
    (bindings (prefixHealth (result (auditAutoApprove env opts)))).
Proof.
  unfold auditAutoApprove. destruct (settingsFilesOf env opts) as [files |].
  - apply auditFiles_consistent.
  - cbn [result prefixHealth emptyHealth bindings]. apply map_Forall_empty.
Qed.

(** The invariant is not empty-handed: scenario D leaves an entry. *)
Example prefix_health_consistent_scenarioD :
  ∃ h, bindings (prefixHealth
         (result (auditAutoApprove (oneFile scenarioD_rules) scenarioD_opts)))
       !! "unknown" = Some h
    ∧ riskyCount h + safePatterns h = 2 ∧ List.length (patterns h) = 2.
Proof. eexists. split; [vm_compute; reflexivity | by vm_compute]. Qed.



(** The discovery returns exactly when the command gets its list of
    settings files. *)
Lemma DiscoveryReturns_files env opts :
  DiscoveryReturns env opts ↔ ∃ files, settingsFilesOf env opts = Some files.
Proof.
  unfold DiscoveryReturns, settingsFilesOf, given.
  destruct (settingsFile opts) as [f |].
  - destruct (negb (String.eqb f EmptyString)).
    + split; [by eauto | by left].
    + split.
      * intros [? | Hsome]; [done |].
        destruct (readSettingsFiles env) as [files |]; [by eauto | done].
      * intros [files Hfiles]. right. by rewrite Hfiles.
  - split.
    + intros [? | Hsome]; [done |].
      destruct (readSettingsFiles env) as [files |]; [by eauto | done].
    + intros [files Hfiles]. right. by rewrite Hfiles.
Qed.

Lemma not_DiscoveryReturns env opts :
  ¬ DiscoveryReturns env opts ↔ settingsFilesOf env opts = None.
Proof.
  rewrite DiscoveryReturns_files.
  destruct (settingsFilesOf env opts) as [files |]; split; try done.
  - intros H. destruct H. by eauto.
  - by intros _ [files ?].
Qed.

(** The parts of a run whose discovery returned, spelled out. *)
Lemma auditAutoApprove_run env opts files :
  settingsFilesOf env opts = Some files →
  let A := explicitPrefixesOf (allowPrefix opts) in
  let a := auditFiles A (loadSettings env) files in
  let o := auditAutoApprove env opts in
  result o = a
  ∧ exited o = (if nonEmpty (findings a) && failOnRisk opts then Some 1 else None)
  ∧ thrown o = false
  ∧ ∃ l, logged o
      = l ++ (if json_ opts then [LogJson (findings a) A (prefixHealth a)]
              else if negb (nonEmpty (findings a)) then
                     (if negb (silent opts) then [LogAllSafe A] else [])
              else if negb (silent opts) || failOnRisk opts
                   then warningLines A (findings a) else []).
Proof.
  intros Hfiles A a o. unfold o, auditAutoApprove. rewrite Hfiles.
  repeat split. eexists. reflexivity.
Qed.

(** A run whose discovery threw. *)
Lemma auditAutoApprove_thrown env opts :
  settingsFilesOf env opts = None →
  auditAutoApprove env opts
  = {| result := {| findings := []; prefixHealth := emptyHealth |};
       logged := []; exited := None; thrown := true |}.
Proof. intros Hnone. unfold auditAutoApprove. by rewrite Hnone. Qed.




Lemma findingOf_Some f st :
  (∃ fd, findingOf f st = Some fd) ↔ riskyAcc st ≠ [] ∨ nonBooleanAcc st ≠ [].
Proof.
  unfold findingOf. rewrite <- !nonEmpty_true, <- orb_true_iff.
  destruct (nonEmpty (riskyAcc st) || nonEmpty (nonBooleanAcc st)); split;
    try done; [by eexists | by intros [fd Hfd]].
Qed.

Lemma findingOf_fields f st fd :
  findingOf f st = Some fd → file fd = f ∧ riskyPatterns fd = riskyAcc st.
Proof.
  unfold findingOf.
  destruct (nonEmpty (riskyAcc st) || nonEmpty (nonBooleanAcc st)); [| done].
  intros [= <-]. done.
Qed.

Lemma ingest_lists explicitPrefixes hm entries :
  riskyAcc (ingest explicitPrefixes hm entries)
  = flat_map (riskyOf explicitPrefixes) entries
  ∧ nonBooleanAcc (ingest explicitPrefixes hm entries)
    = flat_map nonBooleanOf entries.
Proof. unfold ingest. by rewrite fold_riskyAcc, fold_nonBooleanAcc. Qed.

(** A rule map leads to a finding exactly when it has a risky rule or a
    non-boolean entry. *)
Lemma ingest_finding explicitPrefixes hm entries f :
  (∃ fd, findingOf f (ingest explicitPrefixes hm entries) = Some fd) ↔
  ∃ e, In e entries ∧ (JudgedRisky explicitPrefixes e ∨ NonBooleanEntry e).
Proof.
  rewrite findingOf_Some.
  destruct (ingest_lists explicitPrefixes hm entries) as [-> ->].
  rewrite !flat_map_nonEmpty. split.
  - intros [(e & Hin & He) | (e & Hin & He)]; exists e; split; try done.
    + left. by apply riskyOf_nonEmpty.
    + right. by apply nonBooleanOf_nonEmpty.
  - intros (e & Hin & [He | He]).
    + left. exists e. split; [done | by apply riskyOf_nonEmpty].
    + right. exists e. split; [done | by apply nonBooleanOf_nonEmpty].
Qed.

Lemma ruleMapOf_wrong_shape data :
  (∀ entries, autoApproveOf data ≠ Some (JObj entries)) →
  ruleMapOf (Some data) = None.
Proof.
  intros Hshape. unfold ruleMapOf. destruct (truthy data); [| done].
  destruct (autoApproveOf data) as [[| | | | | entries] |]; try done.
  by destruct (Hshape entries).
Qed.

(** The iteration over a settings file appends a finding for that file
    exactly when its rule map has a boolean entry judged risky, enabled or
    not, or a non-boolean entry, and leaves the findings unchanged
    otherwise; in particular a file whose rule map is empty or absent, or
    is not an object, or that could not be loaded, gets no finding. *)
Lemma finding_iff_judged_or_non_boolean
    (explicitPrefixes : list string) (load : string → option json)
    (a : Audit) (f : string) :
  let after := findings (auditFile explicitPrefixes load a f) in
  (FindingProduced f (findings a) after ↔
     ∃ entries, ruleMapOf (load f) = Some entries
       ∧ ∃ e, In e entries ∧ (JudgedRisky explicitPrefixes e ∨ NonBooleanEntry e))
  ∧ (FindingProduced f (findings a) after ∨ after = findings a)
  ∧ (ruleMapOf (load f) = Some [] → after = findings a)
  ∧ (load f = None → after = findings a)
  ∧ (∀ data, load f = Some data →
       (∀ entries, autoApproveOf data ≠ Some (JObj entries)) →
       after = findings a).
Proof.
  intros after. unfold after, auditFile, FindingProduced.
  split; [| split; [| split; [| split]]].
  - destruct (ruleMapOf (load f)) as [entries |].
    + cbn [findings]. split.
      * intros (fd & Hfd & _). exists entries. split; [done |].
        apply (ingest_finding explicitPrefixes (prefixHealth a) entries f).
        destruct (findingOf f (ingest explicitPrefixes (prefixHealth a) entries)) as [fd' |].
        -- by exists fd'.
        -- exfalso. apply (f_equal (@List.length _)) in Hfd.
           rewrite length_app in Hfd. simpl in Hfd. lia.
      * intros (entries' & [= <-] & He).
        apply (ingest_finding explicitPrefixes (prefixHealth a) entries f) in He
          as [fd Hfd].
        rewrite Hfd. exists fd.
        split; [done |]. by apply findingOf_fields in Hfd as [-> _].
    + split.
      * intros (fd & Hfd & _). exfalso. apply (f_equal (@List.length _)) in Hfd.
        rewrite length_app in Hfd. simpl in Hfd. lia.
      * by intros (entries & [=] & _).
  - destruct (ruleMapOf (load f)) as [entries |]; [| by right]. cbn [findings].
    destruct (findingOf f (ingest explicitPrefixes (prefixHealth a) entries)) as [fd |] eqn:Hfd;
      [| by right].
    left. exists fd. split; [done |]. by apply findingOf_fields in Hfd as [-> _].
  - intros ->. reflexivity.
  - intros ->. reflexivity.
  - intros data -> Hshape. by rewrite (ruleMapOf_wrong_shape data Hshape).
Qed.

(** C8: a settings file whose rule map holds one disabled rule and
    nothing else has no enabled risky rule and no non-boolean entry, and
    yet the audit produces a finding for it: the disabled rule is listed
    among the risky patterns, logged as risky and makes the run fail.  The
    same rule, enabled, is an enabled risky rule, and the earlier revision
    of the command has no finding for the file. *)
Theorem disabled_rule_gets_finding :
  let rules := [(":unknown-task", JBool false)] in
  let opts := {| allowPrefix := Some "tachyon"; settingsFile := None;
                 failOnRisk := true; json_ := false; silent := false;
                 scanPrefixes := false |} in
  let o := auditAutoApprove (oneFile rules) opts in
  let old := LegacyAudit.auditAutoApprove (oneFile rules)
               {| LegacyAudit.allowPrefix := "tachyon"; LegacyAudit.failOnRisk := true;
                  LegacyAudit.json_ := false; LegacyAudit.silent := false |} in
  (∀ e, In e rules → ¬ EnabledRiskyRule ["tachyon"] e ∧ ¬ NonBooleanEntry e)
  ∧ EnabledRiskyRule ["tachyon"] (":unknown-task", JBool true)
  ∧ findings (result o)
    = [{| file := settingsPath; riskyPatterns := [":unknown-task"];
          nonBoolean := None |}]
  ∧ In (LogRisky ":unknown-task") (logged o)
  ∧ exitCode o = 1
  ∧ LegacyAudit.found old = []
  ∧ LegacyAudit.exited old = None.
Proof.
  intros rules opts o old. split; [| split; [| split; [| split; [| split; [| split]]]]].
  - intros e [<- | []]. split.
    + by intros [Hval _].
    + intros Hnb. by apply (Hnb false).
  - split; [reflexivity | vm_compute; reflexivity].
  - vm_compute. reflexivity.
  - assert (Hlog : logged o = [LogFoundIssues 1; LogFile settingsPath;
                               LogRisky ":unknown-task"; LogExpected ["tachyon"]])
      by (vm_compute; reflexivity).
    rewrite Hlog. right. right. by left.
  - vm_compute. reflexivity.
  - vm_compute. reflexivity.
  - vm_compute. reflexivity.
Qed.

(** C9: an enabled rule whose pattern fails syntax validation adds two
    entries to the risky list of its file: the line made of
    [syntax issues: ] and the issue labels joined by commas, and then the
    pattern itself; both are in the risky patterns of the finding. *)
Theorem invalid_rule_listed_twice
    (explicitPrefixes : list string) (pattern : string) :
  valid (validatePatternSyntax pattern) = false →
  let line := ("syntax issues: "
               ++ join ", " (issues (validatePatternSyntax pattern)))%string in
  (∀ st, riskyAcc (ingestEntry explicitPrefixes st (pattern, JBool true))
         = riskyAcc st ++ [line; pattern])
  ∧ (∀ hm entries f, In (pattern, JBool true) entries →
       ∃ fd l1 l2, findingOf f (ingest explicitPrefixes hm entries) = Some fd
                   ∧ riskyPatterns fd = l1 ++ [line; pattern] ++ l2).
Proof.
  intros Hv line.
  assert (Hof : riskyOf explicitPrefixes (pattern, JBool true) = [line; pattern]).
  { unfold riskyOf. cbn [fst snd]. rewrite Hv, (invalid_isRisky _ _ Hv). reflexivity. }
  split.
  - intros st. by rewrite ingestEntry_riskyAcc, Hof.
  - intros hm entries f Hin.
    apply in_split in Hin as (es1 & es2 & ->).
    destruct (ingest_lists explicitPrefixes hm (es1 ++ (pattern, JBool true) :: es2))
      as [Hrisky _].
    rewrite flat_map_app in Hrisky. cbn [flat_map] in Hrisky. rewrite Hof in Hrisky.
    destruct (findingOf f (ingest explicitPrefixes hm (es1 ++ (pattern, JBool true) :: es2)))
      as [fd |] eqn:Hfd.
    + exists fd, (flat_map (riskyOf explicitPrefixes) es1),
             (flat_map (riskyOf explicitPrefixes) es2).
      split; [done |]. apply findingOf_fields in Hfd as [_ ->]. exact Hrisky.
    + exfalso. assert (Hsome : ∃ fd, findingOf f
                 (ingest explicitPrefixes hm (es1 ++ (pattern, JBool true) :: es2)) = Some fd).
      { apply findingOf_Some. left. rewrite Hrisky. by destruct (flat_map _ es1). }
      destruct Hsome as [fd Hfd']. congruence.
Qed.

Lemma invalid_rule_listed_twice_witness :
  valid (validatePatternSyntax ":invalid[pattern") = false
  ∧ riskyAcc (ingest ["safe"] emptyHealth invalid_rules)
    = ["syntax issues: unbalanced brackets"; ":invalid[pattern"]
  ∧ ¬ In "syntax issues: unbalanced brackets" (map fst invalid_rules).
Proof.
  split; [reflexivity |]. split.
  - destruct (invalid_rule_listed_twice ["safe"] ":invalid[pattern" eq_refl) as [Hstep _].
    exact (Hstep {| riskyAcc := []; nonBooleanAcc := []; healthAcc := emptyHealth |}).
  - intros [H | []]. discriminate H.
Defined.

(* ===================================================================== *)
(** ** The scenarios with an explicit allow-prefix *)
(* ===================================================================== *)

Example taxonomy_size : List.length RISKY_PATTERNS = 68.
Proof. reflexivity. Qed.

Example scenarioA_no_finding :
  findings (result (auditAutoApprove (oneFile scenarioA_rules)
                      (plainOpts (Some "tachyon")))) = [].
Proof. vm_compute. reflexivity. Qed.

Example scenarioB_one_finding :
  findings (result (auditAutoApprove (oneFile scenarioB_rules)
                      (plainOpts (Some "tachyon"))))
  = [{| file := settingsPath; riskyPatterns := [":unknown-task"];
        nonBoolean := None |}].
Proof. vm_compute. reflexivity. Qed.

Example scenarioC_non_boolean :
  findings (result (auditAutoApprove (oneFile scenarioC_rules)
                      (plainOpts (Some "safe"))))
  = [{| file := settingsPath; riskyPatterns := [];
        nonBoolean := Some [":non-boolean-task"] |}].
Proof. vm_compute. reflexivity. Qed.

Example prefixes_are_split_and_trimmed :
  explicitPrefixesOf (Some " tachyon , vllc,,") = ["tachyon"; "vllc"].
Proof. vm_compute. reflexivity. Qed.

(** The percentage is the one of the double division: 23 of 40 is 57%,
    where the exact quotient 57.5 would round to 58. *)
Example riskPercentage_of_doubles :
  riskPercentage {| prefix := "p"; totalPatterns := 40; riskyCount := 23;
                    safePatterns := 17; patterns := []; riskyList := [] |} = 57%nat
  ∧ riskPercentage {| prefix := "p"; totalPatterns := 3; riskyCount := 1;
                      safePatterns := 2; patterns := []; riskyList := [] |} = 33%nat
  ∧ riskPercentage {| prefix := "p"; totalPatterns := 8; riskyCount := 1;
                      safePatterns := 7; patterns := []; riskyList := [] |} = 13%nat.
Proof. split; [| split]; vm_compute; reflexivity. Qed.

Example prefix_of_hyphenated : prefixOf ":tachyon-archiver-x:task" = "tachyon-archiver".
Proof. vm_compute. reflexivity. Qed.

(* ===================================================================== *)
(** ** Reading regular expressions *)
(* ===================================================================== *)

Section ReadingFacts.

Lemma Lang_Eps w : Lang Eps w ↔ w = [].
Proof. split; [by inversion 1 | intros ->; constructor]. Qed.

Lemma Lang_Seq r1 r2 w :
  Lang (Seq r1 r2) w ↔ ∃ w1 w2, w = w1 ++ w2 ∧ Lang r1 w1 ∧ Lang r2 w2.
Proof.
  split.
  - inversion 1 as [| | |? ? w1 w2 H1 H2 Hr Hw| | | |]; subst. by exists w1, w2.
  - intros (w1 & w2 & -> & H1 & H2). by constructor.
Qed.

Lemma Lang_Alt r1 r2 w : Lang (Alt r1 r2) w ↔ Lang r1 w ∨ Lang r2 w.
Proof.
  split.
  - inversion 1; subst; auto.
  - intros [H | H]; [by apply LAltL | by apply LAltR].
Qed.

Lemma Lang_Opt r w : Lang (Opt r) w ↔ Lang r w ∨ w = [].
Proof. unfold Opt. by rewrite Lang_Alt, Lang_Eps. Qed.

Lemma Lang_Lit s w : Lang (Lit s) w ↔ w = list_ascii_of_string s.
Proof. apply Lang_LitL. Qed.

Lemma Lang_AltL rs w : Lang (AltL rs) w ↔ ∃ r, In r rs ∧ Lang r w.
Proof.
  induction rs as [| r rs IH]; simpl.
  - split; [inversion 1 | by intros (r & [] & _)].
  - destruct rs as [| r' rs].
    + split; [intros H; exists r; auto | by intros (r0 & [<- | []] & H)].
    + rewrite Lang_Alt, IH. split.
      * intros [H | (r0 & Hin & H)]; [exists r; auto | exists r0; auto].
      * intros (r0 & [<- | Hin] & H); [by left | right; by exists r0].
Qed.

Lemma Lang_cat_cons r rs w :
  Lang (cat (r :: rs)) w ↔
  ∃ w1 w2, w = w1 ++ w2 ∧ Lang r w1 ∧ Lang (cat rs) w2.
Proof.
  destruct rs as [| r' rs].
  - simpl. split.
    + intros H. exists w, []. rewrite app_nil_r. repeat split; [done | constructor].
    + intros (w1 & w2 & -> & H1 & H2). apply Lang_Eps in H2 as ->.
      by rewrite app_nil_r.
  - change (cat (r :: r' :: rs)) with (Seq r (cat (r' :: rs))). apply Lang_Seq.
Qed.

Lemma test_single b s : test [b] s = true ↔ Occurs b (list_ascii_of_string s).
Proof.
  unfold test. rewrite testL_Occurs. split.
  - by intros (b' & [<- | []] & H).
  - intros H. exists b. split; [by left | done].
Qed.

(** A literal searched anywhere, and a literal anchored at the start. *)
Lemma test_rx_Lit needle s : test (rx (Lit needle)) s = true ↔ Substring needle s.
Proof.
  unfold rx. rewrite test_single. unfold Occurs, Substring. simpl. split.
  - intros (pre & mid & post & Hw & Hmid & _). apply Lang_Lit in Hmid as ->.
    by exists pre, post.
  - intros (pre & post & Hw). exists pre, (list_ascii_of_string needle), post.
    repeat split; [done | by apply Lang_Lit | done | done].
Qed.

Lemma test_rxBos_Lit needle s :
  test (rxBos (Lit needle)) s = true ↔ StartsWith needle s.
Proof.
  unfold rxBos. rewrite test_single. unfold Occurs, StartsWith. simpl. split.
  - intros (pre & mid & post & Hw & Hmid & Hpre & _). apply Lang_Lit in Hmid as ->.
    rewrite (Hpre eq_refl) in Hw. by exists post.
  - intros (post & Hw). exists [], (list_ascii_of_string needle), post.
    repeat split; [done | by apply Lang_Lit | done].
Qed.

Lemma prefix_StartsWith needle s :
  String.prefix needle s = true ↔ StartsWith needle s.
Proof.
  unfold StartsWith. revert s. induction needle as [| a needle IH]; intros s; simpl.
  - split; [intros _; by eexists | by destruct s].
  - destruct s as [| b s]; simpl.
    + split; [done | by intros (post & [=])].
    + destruct (ascii_dec a b) as [-> | Hne].
      * rewrite IH. split; intros (post & Hw); exists post; congruence.
      * split; [done |]. intros (post & [= Hb _]). congruence.
Qed.

Lemma includes_Substring needle s : includes needle s = true ↔ Substring needle s.
Proof.
  unfold Substring. induction s as [| b s IH].
  - cbn [includes]. rewrite orb_false_r, prefix_StartsWith. unfold StartsWith.
    cbn [list_ascii_of_string]. split.
    + intros (post & Hw). by exists [], post.
    + intros (pre & post & Hw). destruct pre; [by exists post | done].
  - cbn [includes]. rewrite orb_true_iff, IH, prefix_StartsWith. unfold StartsWith.
    split.
    + intros [(post & Hw) | (pre & post & Hw)].
      * by exists [], post.
      * exists (b :: pre), post. cbn [list_ascii_of_string app]. by rewrite Hw.
    + intros ([| c pre] & post & Hw).
      * left. by exists post.
      * right. cbn [list_ascii_of_string app] in Hw. injection Hw as _ Hw.
        by exists pre, post.
Qed.

End ReadingFacts.

(* ===================================================================== *)
(** ** Further properties of the classifier *)
(* ===================================================================== *)

Section SyntaxFacts.

Lemma countUnit_occurrences c s : countUnit c s = occurrences c s.
Proof. apply countUnit_filter. Qed.

Lemma In_pushIf c label x l :
  In x (pushIf c label l) ↔ In x l ∨ (c = true ∧ x = label).
Proof.
  unfold pushIf. destruct c.
  - rewrite in_app_iff. simpl. intuition congruence.
  - intuition congruence.
Qed.

Lemma pushIf_nil c label l :
  pushIf c label l = [] ↔ c = false ∧ l = [].
Proof.
  unfold pushIf. destruct c.
  - split; [by destruct l | by intros [? _]].
  - tauto.
Qed.

Lemma pushIf_sublist c label l labels :
  sublist l labels → sublist (pushIf c label l) (labels ++ [label]).
Proof.
  intros H. unfold pushIf. destruct c.
  - by apply sublist_app.
  - by apply sublist_inserts_r.
Qed.

Lemma odd_test n : negb (n mod 2 =? 0)%nat = true ↔ Nat.even n = false.
Proof.
  rewrite negb_true_iff, Nat.eqb_neq, <- Nat.bit0_mod, Nat.bit0_odd.
  rewrite <- Nat.negb_even. destruct (Nat.even n); simpl; split; congruence.
Qed.

Lemma includes_nul s : includes nulString s = true ↔ In nul (list_ascii_of_string s).
Proof.
  rewrite includes_Substring. unfold Substring. simpl. split.
  - intros (pre & post & ->). apply in_or_app. right. by left.
  - intros Hin. apply in_split in Hin as (pre & post & ->). by exists pre, post.
Qed.

Lemma In_pushIf_other c label x l :
  x ≠ label → (In x (pushIf c label l) ↔ In x l).
Proof. intros Hne. rewrite In_pushIf. intuition congruence. Qed.

Lemma In_pushIf_here c label l :
  ¬ In label l → (In label (pushIf c label l) ↔ c = true).
Proof. intros Hno. rewrite In_pushIf. intuition congruence. Qed.

(** Each issue is reported exactly under its own condition. *)
Theorem issues_reported (pattern : string) :
  let reported label := In label (issues (validatePatternSyntax pattern)) in
  (reported "unterminated single quotes" ↔ Nat.even (occurrences "'" pattern) = false)
  ∧ (reported "unterminated double quotes" ↔ Nat.even (occurrences dquote pattern) = false)
  ∧ (reported "unterminated backticks" ↔ Nat.even (occurrences "`" pattern) = false)
  ∧ (reported "unbalanced parentheses" ↔ occurrences "(" pattern ≠ occurrences ")" pattern)
  ∧ (reported "unbalanced brackets" ↔ occurrences "[" pattern ≠ occurrences "]" pattern)
  ∧ (reported "unbalanced braces" ↔ occurrences "{" pattern ≠ occurrences "}" pattern)
  ∧ (reported "directory traversal (..)" ↔
     Substring "/../" pattern ∨ Substring "\..\" pattern)
  ∧ (reported "null bytes detected" ↔ In nul (list_ascii_of_string pattern))
  ∧ (reported "pattern too long" ↔ (1000 < String.length pattern)%nat).
Proof.
  intros reported. unfold reported, validatePatternSyntax. cbv zeta. cbn [issues].
  rewrite !countUnit_occurrences.
  repeat split;
    rewrite ?In_pushIf_other by discriminate;
    (rewrite In_pushIf_here
       by (rewrite ?In_pushIf_other by discriminate; by intros []));
    rewrite ?odd_test, ?negb_true_iff, ?Nat.eqb_neq, ?orb_true_iff,
            ?includes_nul, ?includes_Substring, ?Nat.ltb_lt;
    tauto.
Qed.

(** A pattern is valid exactly when none of the nine conditions holds. *)
Theorem valid_iff_SyntaxOK (pattern : string) :
  valid (validatePatternSyntax pattern) = true ↔ SyntaxOK pattern.
Proof.
  unfold validatePatternSyntax, SyntaxOK. cbv zeta. cbn [valid].
  rewrite Nat.eqb_eq, length_zero_iff_nil, !pushIf_nil.
  rewrite !countUnit_occurrences.
  rewrite <- !not_true_iff_false, !odd_test, !negb_true_iff, !Nat.eqb_neq,
          orb_true_iff, includes_nul, !includes_Substring, Nat.ltb_lt.
  rewrite !not_false_iff_true.
  split.
  - intros (H9 & H8 & H7 & H6 & H5 & H4 & H3 & H2 & H1 & _).
    repeat split; try tauto; try lia.
  - intros (H1 & H2 & H3 & H4 & H5 & H6 & H7 & H8 & H9 & H10).
    repeat split; try tauto; try lia.
Qed.

(** The issues come in the order of the checks, each at most once. *)
Theorem issues_in_order (pattern : string) :
  sublist (issues (validatePatternSyntax pattern)) issueLabels.
Proof.
  unfold validatePatternSyntax. cbv zeta. cbn [issues].
  change issueLabels with
    (((((((((([] ++ ["unterminated single quotes"])
      ++ ["unterminated double quotes"]) ++ ["unterminated backticks"])
      ++ ["unbalanced parentheses"]) ++ ["unbalanced brackets"])
      ++ ["unbalanced braces"]) ++ ["directory traversal (..)"])
      ++ ["null bytes detected"]) ++ ["pattern too long"])).
  do 9 apply pushIf_sublist. constructor.
Qed.

End SyntaxFacts.

Section RemovalFacts.

Lemma test_dot_next s :
  test (rx (cat [dot; Lit "next"])) s = true ↔
  ∃ c, isDot c = true ∧ Substring (String c "next") s.
Proof.
  unfold rx. rewrite test_single. unfold Occurs, Substring. cbn [body bos eos]. split.
  - intros (pre & mid & post & Hw & Hmid & _).
    apply Lang_cat_cons in Hmid as (w1 & w2 & -> & H1 & H2).
    inversion H1 as [| | ? c Hc | | | | |]; subst.
    apply (Lang_Lit "next") in H2 as ->.
    exists c. split; [done |]. by exists pre, post.
  - intros (c & Hc & pre & post & Hw).
    exists pre, (list_ascii_of_string (String c "next")), post.
    repeat split; [done | | done | done].
    apply Lang_cat_cons. exists [c], (list_ascii_of_string "next").
    repeat split; [by constructor | by apply (Lang_Lit "next")].
Qed.

Lemma some_DANGEROUS_RM_PATTERNS pattern :
  some DANGEROUS_RM_PATTERNS pattern = true ↔ HasDangerMark pattern.
Proof.
  unfold some, DANGEROUS_RM_PATTERNS, HasDangerMark. cbn [existsb].
  rewrite !orb_true_iff, !test_rx_Lit, !test_rxBos_Lit. intuition discriminate.
Qed.

Lemma some_SAFE_RM_TARGETS pattern :
  some SAFE_RM_TARGETS pattern = true ↔ NamesSafeTarget pattern.
Proof.
  unfold some, SAFE_RM_TARGETS, NamesSafeTarget. cbn [existsb].
  rewrite !orb_true_iff, test_dot_next, !test_rx_Lit. intuition discriminate.
Qed.

Lemma dangerous_removal_read (pattern : string) :
  isDangerousRmRf pattern = true ↔
  ContainsRmRf pattern ∧ (HasDangerMark pattern ∨ ¬ NamesSafeTarget pattern).
Proof.
  unfold isDangerousRmRf. cbv zeta.
  rewrite <- test_rmRf, <- some_DANGEROUS_RM_PATTERNS, <- some_SAFE_RM_TARGETS.
  destruct (test rmRf pattern), (some DANGEROUS_RM_PATTERNS pattern),
    (some SAFE_RM_TARGETS pattern); simpl; intuition congruence.
Qed.


(** A wildcard or a parent directory after [rm -rf] is flagged whatever
    directory names the pattern contains. *)
Lemma wildcard_removal_is_dangerous (pattern : string) :
  ContainsRmRf pattern →
  Substring "*" pattern ∨ Substring ".." pattern →
  isDangerousRmRf pattern = true.
Proof.
  intros Hrm Hmark. apply dangerous_removal_read. split; [done |]. left.
  unfold HasDangerMark. tauto.
Qed.

Lemma wildcard_removal_is_dangerous_witness :
  ContainsRmRf "rm -rf build/*"
  ∧ Substring "*" "rm -rf build/*"
  ∧ isDangerousRmRf "rm -rf build/*" = true.
Proof.
  assert (Hrm : ContainsRmRf "rm -rf build/*")
    by (apply test_rmRf; vm_compute; reflexivity).
  assert (Hstar : Substring "*" "rm -rf build/*")
    by (apply test_rx_Lit; vm_compute; reflexivity).
  split; [exact Hrm |]. split; [exact Hstar |].
  apply (wildcard_removal_is_dangerous "rm -rf build/*" Hrm). by left.
Defined.

(** Removing a build directory by a relative path, with no wildcard and no
    parent directory, is not flagged. *)
Theorem build_cleanup_is_not_dangerous (pattern : string) :
  ¬ HasDangerMark pattern → NamesSafeTarget pattern →
  isDangerousRmRf pattern = false.
Proof.
  intros Hno Hsafe. apply not_true_iff_false. rewrite dangerous_removal_read. tauto.
Qed.

Lemma build_cleanup_is_not_dangerous_witness :
  ¬ HasDangerMark ":clean-deps:rm -rf node_modules"
  ∧ NamesSafeTarget ":clean-deps:rm -rf node_modules"
  ∧ ContainsRmRf ":clean-deps:rm -rf node_modules"
  ∧ isDangerousRmRf ":clean-deps:rm -rf node_modules" = false.
Proof.
  assert (Hno : ¬ HasDangerMark ":clean-deps:rm -rf node_modules").
  { rewrite <- some_DANGEROUS_RM_PATTERNS. by vm_compute. }
  assert (Hsafe : NamesSafeTarget ":clean-deps:rm -rf node_modules").
  { apply some_SAFE_RM_TARGETS. vm_compute. reflexivity. }
  split; [exact Hno |]. split; [exact Hsafe |].
  split; [apply test_rmRf; vm_compute; reflexivity |].
  exact (build_cleanup_is_not_dangerous _ Hno Hsafe).
Defined.

End RemovalFacts.

Section TemplateFacts.

Lemma Occurs_anchored b w :
  bos b = true → eos b = true → (Occurs b w ↔ Lang (body b) w).
Proof.
  intros Hb He. unfold Occurs. split.
  - intros (pre & mid & post & -> & Hmid & Hpre & Hpost).
    rewrite (Hpre Hb), (Hpost He), app_nil_r. done.
  - intros H. exists [], w, []. rewrite app_nil_r. by repeat split.
Qed.

Lemma Lang_alternatives prefixes w :
  Lang (match prefixes with [] => Eps | _ => AltL (map Lit prefixes) end) w ↔
  ∃ a, (In a prefixes ∨ (prefixes = [] ∧ a = EmptyString))
       ∧ w = list_ascii_of_string a.
Proof.
  destruct prefixes as [| p ps].
  - rewrite Lang_Eps. split.
    + intros ->. exists EmptyString. split; [by right | done].
    + by intros (a & [[] | [_ ->]] & ->).
  - rewrite Lang_AltL. split.
    + intros (r & Hin & Hr). apply in_map_iff in Hin as (a & <- & Hin).
      apply Lang_Lit in Hr. exists a. split; [by left | done].
    + intros (a & [Hin | [[=] _]] & ->). exists (Lit a).
      split; [by apply in_map | by apply Lang_Lit].
Qed.

Lemma template_accepts (prefixes : list string) (pattern : string) :
  test (buildSafeTemplate prefixes) pattern = true ↔
  AllowedShape prefixes (list_ascii_of_string pattern).
Proof.
  unfold test, buildSafeTemplate, AllowedShape. cbv zeta.
  set (w := list_ascii_of_string pattern). rewrite testL_Occurs. split.
  - intros (b & [<- | [<- | []]] & Hocc); apply Occurs_anchored in Hocc; try done;
      cbn [body] in Hocc.
    + right.
      apply Lang_cat_cons in Hocc as (w1 & w2 & -> & H1 & Hocc).
      apply Lang_cat_cons in Hocc as (wa & w3 & -> & Ha & Hocc).
      apply Lang_cat_cons in Hocc as (wh & w4 & -> & Hh & Hocc).
      apply Lang_cat_cons in Hocc as (m & w5 & -> & Hm & Hocc).
      apply Lang_cat_cons in Hocc as (t & w6 & -> & Ht & Hocc).
      apply Lang_Eps in Hocc as ->.
      apply (Lang_Lit ":") in H1 as ->. apply (Lang_Lit "-") in Hh as ->.
      apply Lang_alternatives in Ha as (a & Ha & ->).
      apply Lang_Cls_plus in Hm as [Hm1 Hm2].
      exists a, m, t. split; [done |]. split; [by rewrite app_nil_r |].
      split; [done |]. split; [done |].
      apply Lang_Opt in Ht as [Ht | ->]; [| by left]. right.
      apply Lang_cat_cons in Ht as (tc & t' & -> & Hc & Ht).
      apply (Lang_Lit ":") in Hc as ->.
      cbn [cat] in Ht. apply Lang_Cls_plus in Ht as [Ht1 Ht2]. by exists t'.
    + left. by apply (Lang_Lit ":clean") in Hocc.
  - intros [Hw | (a & m & t & Ha & Hw & Hm1 & Hm2 & Ht)].
    + eexists. split; [right; by left |]. apply Occurs_anchored; [done | done |].
      cbn [body]. by apply (Lang_Lit ":clean").
    + eexists. split; [by left |]. apply Occurs_anchored; [done | done |].
      cbn [body]. rewrite Hw.
      apply Lang_cat_cons. exists [":"%char], (list_ascii_of_string a ++ "-"%char :: m ++ t).
      split; [done |]. split; [by apply (Lang_Lit ":") |].
      apply Lang_cat_cons. exists (list_ascii_of_string a), ("-"%char :: m ++ t).
      split; [done |]. split; [apply Lang_alternatives; by exists a |].
      apply Lang_cat_cons. exists ["-"%char], (m ++ t).
      split; [done |]. split; [by apply (Lang_Lit "-") |].
      apply Lang_cat_cons. exists m, t.
      split; [done |]. split; [by apply Lang_Cls_plus |].
      cbn [cat]. apply Lang_Opt. destruct Ht as [-> | (t' & -> & Ht1 & Ht2)]; [by right |].
      left. apply Lang_Seq. exists [":"%char], t'.
      split; [done |]. split; [by apply (Lang_Lit ":") |].
      by apply Lang_Cls_plus.
Qed.

(** What the allow template accepts. *)
Theorem test_buildSafeTemplate (prefixes : list string) (pattern : string) :
  test (buildSafeTemplate prefixes) pattern = true ↔
  AllowedShape prefixes (list_ascii_of_string pattern).
Proof. exact (template_accepts prefixes pattern). Qed.

End TemplateFacts.

Section VerdictFacts.

Lemma verdict_Safe explicitPrefixes pattern :
  verdict explicitPrefixes pattern = Safe ↔
  isRiskyPattern pattern = false ∧ isDangerousRmRf pattern = false
  ∧ isAllowed explicitPrefixes pattern = true
  ∧ valid (validatePatternSyntax pattern) = true.
Proof.
  unfold verdict, isRisky.
  destruct (isRiskyPattern pattern), (isDangerousRmRf pattern),
    (isAllowed explicitPrefixes pattern), (valid (validatePatternSyntax pattern));
    simpl; intuition congruence.
Qed.

(** With a non-empty allow-list made of identifiers, a pattern that is
    judged safe consists of identifier characters and colons only: it has
    no white space and no shell metacharacter. *)
Theorem safe_pattern_is_plain_text (explicitPrefixes : list string) (pattern : string) :
  explicitPrefixes ≠ [] →
  (∀ a, In a explicitPrefixes → IdentText (list_ascii_of_string a)) →
  verdict explicitPrefixes pattern = Safe →
  Forall (λ c, isIdent c = true ∨ c = ":"%char) (list_ascii_of_string pattern).
Proof.
  intros Hne Hids Hsafe. apply verdict_Safe in Hsafe as (_ & _ & Hallowed & _).
  unfold isAllowed in Hallowed. destruct explicitPrefixes as [| p0 ps]; [done |].
  apply template_accepts in Hallowed.
  assert (Hplain : ∀ u, IdentText u → Forall (λ c, isIdent c = true ∨ c = ":"%char) u).
  { intros u Hu. eapply Forall_impl; [exact Hu | by left]. }
  destruct Hallowed as [-> | (a & m & t & Ha & -> & _ & Hm & Ht)].
  - apply List.Forall_forall. intros c Hc. simpl in Hc.
    destruct Hc as [<- | [<- | [<- | [<- | [<- | [<- | []]]]]]];
      [by right | by left | by left | by left | by left | by left].
  - destruct Ha as [Ha | [[=] _]].
    constructor; [by right |]. apply Forall_app. split; [by apply Hplain, Hids |].
    constructor; [by left |]. apply Forall_app. split; [by apply Hplain |].
    destruct Ht as [-> | (t' & -> & _ & Ht)]; [constructor |].
    constructor; [by right | by apply Hplain].
Qed.

Lemma safe_pattern_is_plain_text_witness :
  verdict ["tachyon"] ":tachyon-archiver:downloadZstd" = Safe
  ∧ Forall (λ c, isIdent c = true ∨ c = ":"%char)
      (list_ascii_of_string ":tachyon-archiver:downloadZstd").
Proof.
  assert (Hsafe : verdict ["tachyon"] ":tachyon-archiver:downloadZstd" = Safe)
    by (vm_compute; reflexivity).
  split; [exact Hsafe |].
  apply (safe_pattern_is_plain_text ["tachyon"]); [done | | exact Hsafe].
  intros a [<- | []]. unfold IdentText. repeat constructor.
Defined.

(** Enlarging a non-empty allow-list never turns a safe pattern risky,
    and dropping the allow-list altogether does not either. *)
Theorem verdict_monotone (small large : list string) (pattern : string) :
  small ≠ [] → incl small large →
  verdict small pattern = Safe →
  verdict large pattern = Safe ∧ verdict [] pattern = Safe.
Proof.
  intros Hne Hincl Hsafe.
  apply verdict_Safe in Hsafe as (H1 & H2 & Hallowed & H4).
  split; apply verdict_Safe; repeat split; try done.
  unfold isAllowed in *. destruct small as [| s0 small]; [done |].
  destruct large as [| l0 large]; [done |].
  apply template_accepts. apply template_accepts in Hallowed.
  destruct Hallowed as [Hw | (a & m & t & Ha & Hrest)]; [by left |]. right.
  exists a, m, t. split; [| done]. destruct Ha as [Ha | [[=] _]]. left. by apply Hincl.
Qed.

Lemma verdict_monotone_witness :
  verdict ["tachyon"] ":tachyon-build" = Safe
  ∧ verdict ["vllc"; "tachyon"] ":tachyon-build" = Safe
  ∧ verdict [] ":tachyon-build" = Safe.
Proof.
  assert (Hsafe : verdict ["tachyon"] ":tachyon-build" = Safe)
    by (vm_compute; reflexivity).
  split; [exact Hsafe |].
  apply (verdict_monotone ["tachyon"] ["vllc"; "tachyon"]); [done | | exact Hsafe].
  intros a [<- | []]. right. by left.
Defined.

(** The pattern [:clean] is judged safe under every allow-list. *)
Theorem clean_is_always_safe (explicitPrefixes : list string) :
  verdict explicitPrefixes ":clean" = Safe.
Proof.
  apply verdict_Safe.
  split; [vm_compute; reflexivity |]. split; [vm_compute; reflexivity |].
  split; [| vm_compute; reflexivity].
  unfold isAllowed. destruct explicitPrefixes as [| p ps]; [reflexivity |].
  apply template_accepts. by left.
Qed.

End VerdictFacts.

Section PrefixOfFacts.

(** The prefix of a pattern: [unknown] when the prefix expression does not
    match, and otherwise the longest identifier between the leading colon
    and a hyphen. *)
Theorem prefixOf_spec (pattern : string) :
  (test prefixRe pattern = false → prefixOf pattern = "unknown")
  ∧ (test prefixRe pattern = true →
     GreedyGroup (list_ascii_of_string pattern)
                 (list_ascii_of_string (prefixOf pattern))).
Proof.
  unfold prefixOf. split.
  - intros Hno. destruct (prefixMatch pattern) as [g |] eqn:Hg; [| done].
    assert (Hyes : test prefixRe pattern = true) by (apply test_prefixRe; by rewrite Hg).
    congruence.
  - intros Hyes. apply test_prefixRe in Hyes as [g Hg]. rewrite Hg.
    unfold prefixMatch in Hg.
    destruct (groupOf (list_ascii_of_string pattern)) as [u |] eqn:Hu; [| done].
    injection Hg as <-. rewrite list_ascii_of_string_of_list_ascii.
    by apply groupOf_greedy.
Qed.

End PrefixOfFacts.

(* ===================================================================== *)
(** ** Further properties of the aggregator *)
(* ===================================================================== *)

Section HealthFacts.

Variable explicitPrefixes : list string.

(** The health map holds, for every key, the entry that the patterns
    seen so far call for. *)
Let Tracks (hm : HealthMap) (seen : list string) : Prop :=
  (∀ k, bindings hm !! k = healthOf explicitPrefixes k seen)
  ∧ keys hm = firstOccurrences (map prefixOf seen).

Lemma withPrefix_snoc k seen p :
  withPrefix k (seen ++ [p])
  = withPrefix k seen ++ (if String.eqb (prefixOf p) k then [p] else []).
Proof. unfold withPrefix. by rewrite List.filter_app. Qed.

Lemma withPrefix_nil k seen :
  withPrefix k seen = [] ↔ ¬ In k (map prefixOf seen).
Proof.
  unfold withPrefix. induction seen as [| p seen IH]; simpl; [tauto |].
  destruct (String.eqb_spec (prefixOf p) k) as [-> | Hne].
  - split; [done | tauto].
  - rewrite IH. tauto.
Qed.

Lemma firstOccurrences_snoc l k :
  firstOccurrences (l ++ [k])
  = if in_dec string_dec k l then firstOccurrences l else firstOccurrences l ++ [k].
Proof.
  unfold firstOccurrences. rewrite rev_app_distr. simpl.
  destruct (in_dec string_dec k (rev l)) as [Hin | Hno];
    destruct (in_dec string_dec k l) as [Hin' | Hno']; try done.
  - apply in_rev in Hin. contradiction.
  - apply in_rev in Hin'. contradiction.
Qed.

Lemma healthOf_Some k seen :
  withPrefix k seen ≠ [] →
  healthOf explicitPrefixes k seen
  = Some {| prefix := k;
            totalPatterns := List.length (withPrefix k seen);
            riskyCount :=
              List.length (List.filter (isRisky explicitPrefixes) (withPrefix k seen));
            safePatterns :=
              List.length (withPrefix k seen)
              - List.length (List.filter (isRisky explicitPrefixes) (withPrefix k seen));
            patterns := withPrefix k seen;
            riskyList := List.filter (isRisky explicitPrefixes) (withPrefix k seen) |}.
Proof. unfold healthOf. by destruct (withPrefix k seen). Qed.

Lemma healthOf_None k seen :
  withPrefix k seen = [] → healthOf explicitPrefixes k seen = None.
Proof. unfold healthOf. by intros ->. Qed.

(** The bindings after the iteration over a boolean entry. *)
Lemma ingestEntry_bindings st pattern b :
  bindings (healthAcc (ingestEntry explicitPrefixes st (pattern, JBool b)))
  = <[prefixOf pattern :=
        tally explicitPrefixes pattern (healthBefore st (prefixOf pattern))]>
      (bindings (healthAcc st)).
Proof.
  unfold ingestEntry, tally, healthBefore. cbv zeta.
  by destruct (bindings (healthAcc st) !! prefixOf pattern),
    (isRisky explicitPrefixes pattern).
Qed.

Lemma ingestEntry_keys_eq st pattern b :
  keys (healthAcc (ingestEntry explicitPrefixes st (pattern, JBool b)))
  = match bindings (healthAcc st) !! prefixOf pattern with
    | Some _ => keys (healthAcc st)
    | None => keys (healthAcc st) ++ [prefixOf pattern]
    end.
Proof.
  unfold ingestEntry. cbv zeta.
  by destruct (bindings (healthAcc st) !! prefixOf pattern),
    (isRisky explicitPrefixes pattern).
Qed.

Lemma filter_length_bound (f : string → bool) l :
  (List.length (List.filter f l) ≤ List.length l)%nat.
Proof.
  induction l as [| x l IH]; simpl; [done |]. destruct (f x); simpl; lia.
Qed.

Lemma tally_snoc k seen pattern :
  prefixOf pattern = k →
  Some (tally explicitPrefixes pattern
          match healthOf explicitPrefixes k seen with
          | Some h => h
          | None => freshHealth k
          end)
  = healthOf explicitPrefixes k (seen ++ [pattern]).
Proof.
  intros Hk.
  assert (Hsnoc : withPrefix k (seen ++ [pattern]) = withPrefix k seen ++ [pattern]).
  { rewrite withPrefix_snoc, Hk. by rewrite String.eqb_refl. }
  rewrite (healthOf_Some k (seen ++ [pattern])); [| rewrite Hsnoc; by destruct (withPrefix k seen)].
  rewrite Hsnoc, List.filter_app, !length_app. cbn [List.filter List.length].
  pose proof (filter_length_bound (isRisky explicitPrefixes) (withPrefix k seen)) as Hle.
  destruct (withPrefix k seen) as [| p1 ps] eqn:Hps.
  - rewrite (healthOf_None k seen Hps). unfold tally, freshHealth.
    destruct (isRisky explicitPrefixes pattern); reflexivity.
  - rewrite (healthOf_Some k seen); [| by rewrite Hps]. rewrite Hps.
    set (ps1 := p1 :: ps) in *. set (rs := List.filter (isRisky explicitPrefixes) ps1) in *.
    unfold tally. cbn [prefix totalPatterns riskyCount safePatterns patterns riskyList].
    destruct (isRisky explicitPrefixes pattern); cbn [List.length];
      rewrite ?app_nil_r; f_equal; f_equal; lia.
Qed.

Lemma Tracks_boolean st seen pattern b :
  Tracks (healthAcc st) seen →
  Tracks (healthAcc (ingestEntry explicitPrefixes st (pattern, JBool b)))
         (seen ++ [pattern]).
Proof.
  intros [Hget Hkeys]. split.
  - intros k. rewrite ingestEntry_bindings. unfold healthBefore.
    destruct (decide (prefixOf pattern = k)) as [Hk | Hne].
    + rewrite Hk, lookup_insert_eq, Hget. by apply tally_snoc.
    + rewrite lookup_insert_ne by done. rewrite Hget. unfold healthOf.
      rewrite withPrefix_snoc.
      destruct (String.eqb_spec (prefixOf pattern) k); [done |]. by rewrite app_nil_r.
  - rewrite ingestEntry_keys_eq, map_app, Hget. cbn [map].
    rewrite firstOccurrences_snoc, <- Hkeys.
    pose proof (withPrefix_nil (prefixOf pattern) seen) as Hnil.
    destruct (in_dec string_dec (prefixOf pattern) (map prefixOf seen)) as [Hin | Hno].
    + rewrite healthOf_Some; [done | tauto].
    + rewrite healthOf_None; [done | tauto].
Qed.

Lemma Tracks_entry st seen entry :
  Tracks (healthAcc st) seen →
  Tracks (healthAcc (ingestEntry explicitPrefixes st entry))
         (seen ++ booleanPatterns [entry]).
Proof.
  destruct entry as [pattern val]. unfold booleanPatterns. cbn [flat_map fst snd].
  destruct val; rewrite ?app_nil_r; try done.
  cbn [app]. apply Tracks_boolean.
Qed.

Lemma booleanPatterns_cons e entries :
  booleanPatterns (e :: entries) = booleanPatterns [e] ++ booleanPatterns entries.
Proof. unfold booleanPatterns. simpl. by rewrite app_nil_r. Qed.

Lemma Tracks_fold entries st seen :
  Tracks (healthAcc st) seen →
  Tracks (healthAcc (fold_left (ingestEntry explicitPrefixes) entries st))
         (seen ++ booleanPatterns entries).
Proof.
  revert st seen. induction entries as [| e entries IH]; intros st seen Ht.
  - simpl. by rewrite app_nil_r.
  - rewrite booleanPatterns_cons, app_assoc. simpl. by apply IH, Tracks_entry.
Qed.

Lemma Tracks_files load files a seen :
  Tracks (prefixHealth a) seen →
  Tracks (prefixHealth (fold_left (auditFile explicitPrefixes load) files a))
         (seen ++ batchPatterns load files).
Proof.
  revert a seen. induction files as [| f files IH]; intros a seen Ht.
  - simpl. by rewrite app_nil_r.
  - unfold batchPatterns. cbn [flat_map fold_left]. rewrite app_assoc.
    apply IH. unfold auditFile. destruct (ruleMapOf (load f)) as [entries |].
    + cbn [prefixHealth]. by apply Tracks_fold.
    + by rewrite app_nil_r.
Qed.

Lemma bindings_summary (load : string → option json) (files : list string) (k : string) :
  bindings (prefixHealth (auditFiles explicitPrefixes load files)) !! k
  = healthOf explicitPrefixes k (batchPatterns load files).
Proof.
  unfold auditFiles.
  destruct (Tracks_files load files
              {| findings := []; prefixHealth := emptyHealth |} []) as [Hget _];
    [| exact (Hget k)].
  split; [| done]. intros k'. cbn. apply lookup_empty.
Qed.

(** After a batch of settings files, the entry of every key of the health
    map is the summary of the boolean patterns with that prefix, in the
    order met; a key has no entry exactly when no pattern has it as
    prefix. *)
Theorem prefix_health_summary (load : string → option json) (files : list string) (k : string) :
  bindings (prefixHealth (auditFiles explicitPrefixes load files)) !! k
  = healthOf explicitPrefixes k (batchPatterns load files).
Proof. exact (bindings_summary load files k). Qed.

(** The keys of the health map, in insertion order, are the prefixes of
    the boolean patterns in the order of their first occurrences. *)
Theorem prefix_health_keys (load : string → option json) (files : list string) :
  keys (prefixHealth (auditFiles explicitPrefixes load files))
  = firstOccurrences (map prefixOf (batchPatterns load files)).
Proof.
  unfold auditFiles.
  destruct (Tracks_files load files
              {| findings := []; prefixHealth := emptyHealth |} []) as [_ Hkeys];
    [| exact Hkeys].
  split; [| done]. intros k'. cbn. apply lookup_empty.
Qed.

End HealthFacts.

Section FindingFacts.

Variable explicitPrefixes : list string.

Lemma findingOf_ingest f hm entries :
  findingOf f (ingest explicitPrefixes hm entries)
  = let r := flat_map (riskyOf explicitPrefixes) entries in
    let nb := flat_map nonBooleanOf entries in
    if nonEmpty r || nonEmpty nb
    then Some {| file := f; riskyPatterns := r;
                 nonBoolean := if nonEmpty nb then Some nb else None |}
    else None.
Proof.
  unfold findingOf.
  by destruct (ingest_lists explicitPrefixes hm entries) as [-> ->].
Qed.

Lemma auditFile_findings load a f :
  findings (auditFile explicitPrefixes load a f)
  = findings a ++ match fileFinding explicitPrefixes load f with
                  | Some fd => [fd]
                  | None => []
                  end.
Proof.
  unfold auditFile, fileFinding. destruct (ruleMapOf (load f)) as [entries |].
  - cbn [findings]. rewrite findingOf_ingest. cbv zeta.
    destruct (nonEmpty _ || nonEmpty _); [done | by rewrite app_nil_r].
  - by rewrite app_nil_r.
Qed.

Lemma fold_auditFile_findings load files a :
  findings (fold_left (auditFile explicitPrefixes load) files a)
  = findings a ++ omap (fileFinding explicitPrefixes load) files.
Proof.
  revert a. induction files as [| f files IH]; intros a; simpl.
  - by rewrite app_nil_r.
  - rewrite IH, auditFile_findings, <- app_assoc.
    by destruct (fileFinding explicitPrefixes load f).
Qed.

Lemma findings_omap (load : string → option json) (files : list string) :
  findings (auditFiles explicitPrefixes load files)
  = omap (fileFinding explicitPrefixes load) files.
Proof. unfold auditFiles. by rewrite fold_auditFile_findings. Qed.

Lemma fileFinding_file load f fd :
  fileFinding explicitPrefixes load f = Some fd → file fd = f.
Proof.
  unfold fileFinding. destruct (ruleMapOf (load f)); [| done]. cbv zeta.
  destruct (nonEmpty _ || nonEmpty _); [| done]. by intros [= <-].
Qed.

(** The findings of a batch are the findings of its files, each computed
    from the file alone, in the order of the files. *)
Theorem findings_per_file (load : string → option json) (files : list string) :
  findings (auditFiles explicitPrefixes load files)
  = omap (fileFinding explicitPrefixes load) files.
Proof. exact (findings_omap load files). Qed.

(** The files of the findings are files of the batch, in the same order,
    with at most one finding for each place of a file in the batch. *)
Theorem findings_follow_files (load : string → option json) (files : list string) :
  sublist (map file (findings (auditFiles explicitPrefixes load files))) files.
Proof.
  rewrite findings_omap. induction files as [| f files IH]; simpl; [constructor |].
  destruct (fileFinding explicitPrefixes load f) as [fd |] eqn:Hfd.
  - simpl. apply fileFinding_file in Hfd as ->. by constructor.
  - by constructor.
Qed.

(** In a finding, the list of non-boolean keys is present only when it
    is not empty, and a finding with no such list has a risky pattern. *)
Theorem finding_is_never_empty (load : string → option json) (files : list string)
    (fd : Finding) :
  In fd (findings (auditFiles explicitPrefixes load files)) →
  nonBoolean fd ≠ Some []
  ∧ (nonBoolean fd = None → riskyPatterns fd ≠ []).
Proof.
  rewrite findings_omap. intros Hin.
  apply list_elem_of_In, list_elem_of_omap in Hin as (f & _ & Hfd).
  unfold fileFinding in Hfd. destruct (ruleMapOf (load f)) as [entries |]; [| done].
  cbv zeta in Hfd.
  destruct (nonEmpty (flat_map (riskyOf explicitPrefixes) entries)) eqn:Hr;
    destruct (nonEmpty (flat_map nonBooleanOf entries)) eqn:Hnb;
    simpl in Hfd; try done; injection Hfd as <-; cbn [nonBoolean riskyPatterns].
  - split; [| done]. intros [= Heq]. by rewrite Heq in Hnb.
  - split; [done |]. intros _. by apply nonEmpty_true.
  - split; [| done]. intros [= Heq]. by rewrite Heq in Hnb.
Qed.

End FindingFacts.

Section PrefixListFacts.

Let Blank (w : list ascii) : Prop := Forall (λ c, isSpace c = true) w.

Lemma trimStart_spec w :
  ∃ sp, w = sp ++ trimStart w ∧ Blank sp
        ∧ ∀ c w', trimStart w = c :: w' → isSpace c = false.
Proof.
  induction w as [| a w (sp & Hw & Hsp & Hhead)]; simpl.
  - exists []. repeat split; [constructor | done].
  - destruct (isSpace a) eqn:Ha.
    + exists (a :: sp). repeat split; [simpl; congruence | by constructor | done].
    + exists []. repeat split; [constructor |]. by intros c w' [= <- _].
Qed.

(** [trim] removes white space at both ends, and nothing else. *)
Lemma trim_spec w :
  ∃ sp1 sp2, w = sp1 ++ trim w ++ sp2 ∧ Blank sp1 ∧ Blank sp2 ∧ Trimmed (trim w).
Proof.
  unfold trim. destruct (trimStart_spec w) as (sp1 & Hw & Hsp1 & Hhead).
  destruct (trimStart_spec (rev (trimStart w))) as (sp2 & Hrev & Hsp2 & Hlast).
  set (u := trimStart w) in *. set (v := trimStart (rev u)) in *.
  assert (Hu : u = rev v ++ rev sp2).
  { rewrite <- rev_app_distr, <- Hrev. by rewrite rev_involutive. }
  exists sp1, (rev sp2). split; [by rewrite <- Hu |]. split; [done |].
  split; [by apply Forall_rev |]. split.
  - intros c w' Hv. apply (Hhead c (w' ++ rev sp2)). by rewrite Hu, Hv.
  - intros c w' Hv. apply (Hlast c (rev w')).
    rewrite <- (rev_involutive v), Hv, rev_app_distr. done.
Qed.

Lemma splitComma_no_comma w :
  Forall (λ piece, ¬ In ","%char piece) (splitComma w).
Proof.
  induction w as [| c w IH]; simpl; [constructor; [by intros [] | constructor] |].
  destruct (Ascii.eqb_spec c ",") as [-> | Hne].
  - constructor; [by intros [] | done].
  - destruct (splitComma w) as [| piece pieces].
    + constructor; [| constructor]. intros [Hc | []]. congruence.
    + inversion IH as [| ? ? Hp Hps]; subst. constructor; [| done].
      intros [Hc | Hin]; [congruence | done].
Qed.

Lemma splitComma_not_nil w : splitComma w ≠ [].
Proof.
  destruct w as [| c w]; simpl; [done |].
  destruct (Ascii.eqb c ","); [done |]. by destruct (splitComma w).
Qed.

(** Joining the pieces of the split with commas gives the text back. *)
Lemma splitComma_unsplit w : unsplit (splitComma w) = w.
Proof.
  induction w as [| c w IH]; simpl; [done |].
  destruct (Ascii.eqb_spec c ",") as [-> | Hne].
  - pose proof (splitComma_not_nil w) as Hnn.
    destruct (splitComma w) as [| p0 pieces]; [done |]. simpl in *. by rewrite IH.
  - destruct (splitComma w) as [| p0 pieces]; [by rewrite <- IH |].
    rewrite <- IH. by destruct pieces.
Qed.

Lemma unsplit_factor pieces piece :
  In piece pieces → ∃ pre post, unsplit pieces = pre ++ piece ++ post.
Proof.
  induction pieces as [| p0 pieces IH]; [done |].
  intros [<- | Hin].
  - destruct pieces as [| p1 pieces].
    + exists [], []. simpl. by rewrite app_nil_r.
    + by exists [], (","%char :: unsplit (p1 :: pieces)).
  - destruct (IH Hin) as (pre & post & Heq).
    destruct pieces as [| p1 pieces]; [done |].
    exists (p0 ++ ","%char :: pre), post.
    change (unsplit (p0 :: p1 :: pieces)) with (p0 ++ ","%char :: unsplit (p1 :: pieces)).
    rewrite Heq. by rewrite <- app_assoc.
Qed.

(** What the explicit prefixes are: none when the option is absent or
    empty; otherwise non-empty texts without comma and without white
    space at either end, each a part of the text of the option. *)
Theorem explicitPrefixes_are_clean (o : option string) :
  (o = None ∨ o = Some EmptyString → explicitPrefixesOf o = [])
  ∧ ∀ p, In p (explicitPrefixesOf o) →
      p ≠ EmptyString
      ∧ ¬ In ","%char (list_ascii_of_string p)
      ∧ Trimmed (list_ascii_of_string p)
      ∧ ∃ s, o = Some s ∧ Substring p s.
Proof.
  split; [by intros [-> | ->] |].
  intros p Hin. unfold explicitPrefixesOf in Hin.
  destruct o as [s |]; [| done]. destruct (given (Some s)); [| done].
  apply filter_In in Hin as [Hin Hne].
  apply in_map_iff in Hin as (piece & <- & Hpiece).
  rewrite list_ascii_of_string_of_list_ascii.
  destruct (trim_spec piece) as (sp1 & sp2 & Hpiece_eq & _ & _ & Htrimmed).
  split; [| split; [| split]].
  - intros Heq. by rewrite Heq in Hne.
  - intros Hcomma.
    pose proof (splitComma_no_comma (list_ascii_of_string s)) as Hall.
    rewrite List.Forall_forall in Hall. apply (Hall piece Hpiece).
    rewrite Hpiece_eq. apply in_or_app. right. apply in_or_app. by left.
  - exact Htrimmed.
  - exists s. split; [done |]. unfold Substring.
    rewrite list_ascii_of_string_of_list_ascii.
    destruct (unsplit_factor _ _ Hpiece) as (pre & post & Hs).
    rewrite splitComma_unsplit in Hs.
    exists (pre ++ sp1), (sp2 ++ post). rewrite Hs.
    rewrite Hpiece_eq at 1. by rewrite <- !app_assoc.
Qed.

(** An option value with no comma gives the one prefix it spells, with
    the white space around it removed. *)
Lemma single_prefix (s : string) :
  ¬ In ","%char (list_ascii_of_string s) →
  trim (list_ascii_of_string s) ≠ [] →
  explicitPrefixesOf (Some s)
  = [string_of_list_ascii (trim (list_ascii_of_string s))].
Proof.
  intros Hno Hne. unfold explicitPrefixesOf, given.
  destruct (String.eqb_spec s EmptyString) as [-> | Hs]; [done |]. simpl.
  assert (Hsplit : splitComma (list_ascii_of_string s) = [list_ascii_of_string s]).
  { clear Hne Hs. induction (list_ascii_of_string s) as [| c w IH]; [done |]. simpl.
    destruct (Ascii.eqb_spec c ",") as [-> | Hc]; [exfalso; apply Hno; by left |].
    rewrite IH; [done |]. intros Hin. apply Hno. by right. }
  rewrite Hsplit. simpl.
  destruct (String.eqb_spec (string_of_list_ascii (trim (list_ascii_of_string s))) EmptyString)
    as [Heq | _]; [| done].
  exfalso. apply Hne. rewrite <- (list_ascii_of_string_of_list_ascii (trim _)).
  by rewrite Heq.
Qed.

Lemma single_prefix_witness :
  explicitPrefixesOf (Some "  tachyon ") = ["tachyon"].
Proof.
  rewrite (single_prefix "  tachyon ").
  - reflexivity.
  - by vm_compute; intuition discriminate.
  - by vm_compute.
Defined.

End PrefixListFacts.

Section FindingWitness.

Lemma finding_is_never_empty_witness :
  let fd := {| file := settingsPath; riskyPatterns := [":unknown-task"];
               nonBoolean := Some [":odd-entry"] |} in
  In fd (findings (auditFiles ["tachyon"] (loadSettings (oneFile mixed_rules))
                     [settingsPath]))
  ∧ nonBoolean fd ≠ Some [].
Proof.
  intros fd.
  assert (Hin : In fd (findings (auditFiles ["tachyon"]
                         (loadSettings (oneFile mixed_rules)) [settingsPath]))).
  { vm_compute. by left. }
  split; [exact Hin |].
  exact (proj1 (finding_is_never_empty ["tachyon"] _ _ fd Hin)).
Defined.

End FindingWitness.

(* ===================================================================== *)
(** ** The report and the options *)
(* ===================================================================== *)

Section ReportFacts.

Lemma insertByTotal_Permutation x l : insertByTotal x l ≡ₚ x :: l.
Proof.
  induction l as [| y l IH]; simpl; [done |].
  destruct (totalPatterns y <=? totalPatterns x)%nat; [done |].
  rewrite IH. apply Permutation_swap.
Qed.

Lemma sortByTotal_Permutation l : sortByTotal l ≡ₚ l.
Proof.
  induction l as [| x l IH]; simpl; [done |].
  unfold sortByTotal in *. simpl. by rewrite insertByTotal_Permutation, IH.
Qed.

Let Descending : list PrefixHealth → Prop :=
  StronglySorted (λ a b, (totalPatterns b ≤ totalPatterns a)%nat).

Lemma insertByTotal_sorted x l : Descending l → Descending (insertByTotal x l).
Proof.
  induction 1 as [| y l Hl IH Hy]; simpl.
  - by repeat constructor.
  - destruct (totalPatterns y <=? totalPatterns x)%nat eqn:Hle.
    + apply Nat.leb_le in Hle. constructor; [by constructor |].
      constructor; [done |]. eapply Forall_impl; [exact Hy |]. simpl. lia.
    + apply Nat.leb_gt in Hle. constructor; [done |].
      rewrite insertByTotal_Permutation. constructor; [lia | done].
Qed.

Lemma sortByTotal_sorted l : Descending (sortByTotal l).
Proof.
  induction l as [| x l IH]; [constructor |]. by apply insertByTotal_sorted.
Qed.

(** The sort is stable: the entries of any given total keep their order. *)
Lemma insertByTotal_stable n x l :
  Descending l →
  List.filter (λ h, totalPatterns h =? n)%nat (insertByTotal x l)
  = List.filter (λ h, totalPatterns h =? n)%nat (x :: l).
Proof.
  induction 1 as [| y l Hl IH Hy]; [done |]. cbn [insertByTotal].
  destruct (totalPatterns y <=? totalPatterns x)%nat eqn:Hle; [done |].
  apply Nat.leb_gt in Hle. cbn [List.filter] in *. rewrite IH.
  destruct (totalPatterns y =? n)%nat eqn:Hyn; [| done].
  destruct (totalPatterns x =? n)%nat eqn:Hxn; [| done].
  apply Nat.eqb_eq in Hyn, Hxn. lia.
Qed.

(** The sort of the report keeps the entries, puts larger totals first,
    and keeps the order of the entries of equal total. *)
Theorem sortByTotal_spec (l : list PrefixHealth) :
  sortByTotal l ≡ₚ l
  ∧ StronglySorted (λ a b, (totalPatterns b ≤ totalPatterns a)%nat) (sortByTotal l)
  ∧ ∀ n, List.filter (λ h, totalPatterns h =? n)%nat (sortByTotal l)
         = List.filter (λ h, totalPatterns h =? n)%nat l.
Proof.
  split; [apply sortByTotal_Permutation |]. split; [apply sortByTotal_sorted |].
  intros n. induction l as [| x l IH]; [done |].
  change (sortByTotal (x :: l)) with (insertByTotal x (sortByTotal l)).
  rewrite insertByTotal_stable by apply sortByTotal_sorted.
  cbn [List.filter]. by rewrite IH.
Qed.

Lemma reportedHealth_app l1 l2 :
  reportedHealth (l1 ++ l2) = reportedHealth l1 ++ reportedHealth l2.
Proof. unfold reportedHealth. apply flat_map_app. Qed.

Lemma reportedHealth_lines hs :
  reportedHealth (flat_map healthLines hs)
  = map (λ h, (prefix h, totalPatterns h)) hs.
Proof.
  induction hs as [| h hs IH]; [done |]. cbn [flat_map map].
  rewrite reportedHealth_app, IH. unfold healthLines.
  by destruct (0 <? riskyCount h)%nat.
Qed.

Lemma healthValues_keys hm :
  KeysAgree hm →
  (∀ k h, bindings hm !! k = Some h → prefix h = k) →
  map prefix (healthValues hm) = keys hm.
Proof.
  intros [_ Hdom] Hprefix. unfold healthValues.
  assert (Hgen : ∀ ks, (∀ k, In k ks → is_Some (bindings hm !! k)) →
            map prefix (omap (λ k, bindings hm !! k) ks) = ks).
  { induction ks as [| k ks IH]; intros Hks; [done |]. cbn [omap list_omap].
    destruct (Hks k) as [h Hh]; [by left |]. rewrite Hh. cbn [map].
    rewrite (Hprefix k h Hh), IH; [done |]. intros k' Hk'. apply Hks. by right. }
  apply Hgen. intros k Hk. by apply Hdom.
Qed.

(** The report of a batch has one health line for every key of the map,
    and the lines come by decreasing total. *)
Theorem report_covers_every_prefix
    (explicitPrefixes : list string) (load : string → option json)
    (files : list string) :
  let hm := prefixHealth (auditFiles explicitPrefixes load files) in
  let shown := reportedHealth (reportPrefixHealth hm false) in
  map fst shown ≡ₚ keys hm
  ∧ NoDup (keys hm)
  ∧ StronglySorted (λ a b, (b.2 ≤ a.2)%nat) shown.
Proof.
  intros hm shown.
  pose proof (auditFiles_keys explicitPrefixes load files) as Hkeys. fold hm in Hkeys.
  assert (Hprefix : ∀ k h, bindings hm !! k = Some h → prefix h = k).
  { intros k h. unfold hm. rewrite bindings_summary. unfold healthOf.
    destruct (withPrefix k _); [done |]. by intros [= <-]. }
  assert (Hshown : shown = map (λ h, (prefix h, totalPatterns h))
                             (sortByTotal (healthValues hm))).
  { unfold shown, reportPrefixHealth. cbv zeta.
    rewrite !reportedHealth_app, reportedHealth_lines. simpl. by rewrite app_nil_r. }
  split; [| split; [apply Hkeys |]].
  - rewrite Hshown, map_map. cbn [fst].
    rewrite <- (healthValues_keys hm Hkeys Hprefix).
    by rewrite sortByTotal_Permutation.
  - rewrite Hshown. clear Hshown.
    pose proof (sortByTotal_sorted (healthValues hm)) as Hs.
    induction Hs as [| h hs Hhs IH Hh]; [constructor |]. cbn [map].
    constructor; [exact IH |]. apply Forall_map. exact Hh.
Qed.

End ReportFacts.

Section OptionFacts.

(** With JSON output, a run whose discovery of the settings files
    returns logs one line, the JSON document, whatever the other options;
    a run whose discovery throws logs nothing. *)
Theorem json_logs_one_document (env : Env) (opts : Options) :
  json_ opts = true →
  let o := auditAutoApprove env opts in
  (DiscoveryReturns env opts →
     logged o = [LogJson (findings (result o))
                         (explicitPrefixesOf (allowPrefix opts))
                         (prefixHealth (result o))])
  ∧ (¬ DiscoveryReturns env opts → logged o = []).
Proof.
  intros Hjson o. split.
  - intros Hret. apply DiscoveryReturns_files in Hret as [files Hfiles].
    unfold o, auditAutoApprove. rewrite Hfiles. unfold auditSettingsFiles.
    cbv zeta. cbn [logged result].
    rewrite Hjson. unfold reportPrefixHealth.
    by destruct (scanPrefixes opts || negb (given (allowPrefix opts))).
  - intros Hthrow. apply not_DiscoveryReturns in Hthrow.
    unfold o. by rewrite (auditAutoApprove_thrown env opts Hthrow).
Qed.

Lemma json_logs_one_document_witness :
  List.length (logged (auditAutoApprove (oneFile scenarioE_rules) (scenarioE_opts true)))
  = 1%nat
  ∧ ¬ DiscoveryReturns (envOn locked_machine (λ _, None)) (scenarioE_opts true)
  ∧ logged (auditAutoApprove (envOn locked_machine (λ _, None)) (scenarioE_opts true))
    = [].
Proof.
  split; [| split].
  - destruct (json_logs_one_document (oneFile scenarioE_rules) (scenarioE_opts true) eq_refl)
      as [Hret _].
    rewrite Hret; [done | by right].
  - apply not_DiscoveryReturns. vm_compute. reflexivity.
  - destruct (json_logs_one_document (envOn locked_machine (λ _, None))
                (scenarioE_opts true) eq_refl) as [_ Hthrow].
    apply Hthrow. apply not_DiscoveryReturns. vm_compute. reflexivity.
Defined.

(** In silent mode, without fail-on-risk and JSON output, a run whose
    discovery of the settings files returns exits with code 0 and logs
    nothing but the prefix health report, and nothing at all when an
    allow-prefix is given and no prefix scan is requested.  A run whose
    discovery throws logs nothing, not even the report, and its exit code
    is not 0. *)
Theorem silent_run (env : Env) (opts : Options) :
  silent opts = true → failOnRisk opts = false → json_ opts = false →
  let o := auditAutoApprove env opts in
  (DiscoveryReturns env opts →
     exitCode o = 0%nat
     ∧ logged o
       = (if scanPrefixes opts || negb (given (allowPrefix opts))
          then reportPrefixHealth (prefixHealth (result o)) false else [])
     ∧ (given (allowPrefix opts) = true → scanPrefixes opts = false → logged o = []))
  ∧ (¬ DiscoveryReturns env opts → logged o = [] ∧ exitCode o ≠ 0%nat).
Proof.
  intros Hs Hf Hj o. split.
  - intros Hret. apply DiscoveryReturns_files in Hret as [files Hfiles].
    unfold o, auditAutoApprove. rewrite Hfiles.
    unfold auditSettingsFiles, exitCode. cbv zeta.
    cbn [logged result exited thrown]. rewrite Hs, Hf, Hj, andb_false_r. simpl.
    split; [done |].
    assert (Hnone : (if negb (nonEmpty (findings (auditFiles
                (explicitPrefixesOf (allowPrefix opts)) (loadSettings env)
                files))) then [] else []) = ([] : list LogLine))
      by (by destruct (negb _)).
    rewrite Hnone, app_nil_r. split; [done |].
    intros -> ->. done.
  - intros Hthrow. apply not_DiscoveryReturns in Hthrow.
    unfold o. by rewrite (auditAutoApprove_thrown env opts Hthrow).
Qed.

Lemma silent_run_witness :
  let opts := {| allowPrefix := Some "tachyon"; settingsFile := None;
                 failOnRisk := false; json_ := false; silent := true;
                 scanPrefixes := false |} in
  let o := auditAutoApprove (oneFile scenarioB_rules) opts in
  let o' := auditAutoApprove (envOn locked_machine (λ _, None)) opts in
  (findings (result o) ≠ [] ∧ logged o = [] ∧ exitCode o = 0%nat)
  ∧ (¬ DiscoveryReturns (envOn locked_machine (λ _, None)) opts
     ∧ logged o' = [] ∧ exitCode o' ≠ 0%nat).
Proof.
  intros opts o o'. split.
  - destruct (silent_run (oneFile scenarioB_rules) opts eq_refl eq_refl eq_refl)
      as [Hret _].
    destruct Hret as (Hexit & _ & Hlog); [by right |].
    split; [by vm_compute |]. split; [by apply Hlog | exact Hexit].
  - assert (Hthrow : ¬ DiscoveryReturns (envOn locked_machine (λ _, None)) opts)
      by (apply not_DiscoveryReturns; vm_compute; reflexivity).
    split; [exact Hthrow |].
    destruct (silent_run (envOn locked_machine (λ _, None)) opts eq_refl eq_refl eq_refl)
      as [_ Hno].
    exact (Hno Hthrow).
Defined.

(** An explicit settings file replaces the discovery: the run does not
    depend on the result of the discovery, be it a list of files or an
    exception, and has at most one finding, for the file given. *)
Theorem explicit_file_replaces_discovery (env : Env) (opts : Options) (f : string) :
  settingsFile opts = Some f → f ≠ EmptyString →
  (∀ discovered,
     auditAutoApprove {| readSettingsFiles := discovered;
                         loadSettings := loadSettings env |} opts
     = auditAutoApprove env opts)
  ∧ ∀ fd, In fd (findings (result (auditAutoApprove env opts))) → file fd = f.
Proof.
  intros Hfile Hne.
  assert (Hfiles : ∀ e, settingsFilesOf e opts = Some [f]).
  { intros e. unfold settingsFilesOf, given. rewrite Hfile.
    by destruct (String.eqb_spec f EmptyString). }
  split.
  - intros discovered. unfold auditAutoApprove. by rewrite !Hfiles.
  - intros fd. unfold auditAutoApprove. rewrite Hfiles.
    unfold auditSettingsFiles. cbv zeta. cbn [result].
    rewrite findings_omap. cbn [omap list_omap].
    destruct (fileFinding _ _ f) as [fd' |] eqn:Hfd; [| done].
    intros [<- | []]. by apply fileFinding_file in Hfd.
Qed.

Lemma explicit_file_replaces_discovery_witness :
  let opts := {| allowPrefix := Some "tachyon"; settingsFile := Some "custom.json";
                 failOnRisk := false; json_ := false; silent := false;
                 scanPrefixes := false |} in
  map file (findings (result (auditAutoApprove (oneFile scenarioB_rules) opts)))
  = ["custom.json"].
Proof.
  intros opts.
  pose proof (explicit_file_replaces_discovery (oneFile scenarioB_rules) opts
                "custom.json" eq_refl) as H.
  destruct H as [_ Hfd]; [done |].
  destruct (findings (result (auditAutoApprove (oneFile scenarioB_rules) opts)))
    as [| fd [| fd' fds]] eqn:Hfs; [by vm_compute in Hfs | | by vm_compute in Hfs].
  simpl. by rewrite (Hfd fd (or_introl eq_refl)).
Defined.

End OptionFacts.

(* ===================================================================== *)
(** ** The earlier revision against the present one *)
(* ===================================================================== *)

Section LegacyFacts.

Variable prefixes : list string.

Lemma legacy_fold entries risky nonBoolean :
  fold_left (Legacy.ingestEntry (buildSafeTemplate prefixes)) entries (risky, nonBoolean)
  = (risky ++ map fst (List.filter (legacyRisky prefixes) entries),
     nonBoolean ++ flat_map nonBooleanOf entries).
Proof.
  revert risky nonBoolean.
  induction entries as [| [pattern val] entries IH]; intros risky nonBoolean.
  - simpl. by rewrite !app_nil_r.
  - cbn [fold_left List.filter flat_map]. unfold Legacy.ingestEntry at 2.
    unfold legacyRisky at 1, nonBooleanOf at 1. cbn [fst snd].
    destruct val as [| b | | | |]; rewrite ?IH; cbn [map fst app];
      rewrite ?app_nil_r, <- ?app_assoc; try done.
    destruct (b && negb (test (buildSafeTemplate prefixes) pattern));
      rewrite IH; cbn [map fst app]; by rewrite <- ?app_assoc.
Qed.

(** The earlier revision lists as risky the enabled rules that the
    template does not accept, and as non-boolean the same keys as the
    present revision. *)
Lemma legacy_ingest_spec (entries : list (string * json)) (hm : HealthMap) :
  Legacy.ingest prefixes entries
  = (map fst (List.filter (legacyRisky prefixes) entries),
     nonBooleanAcc (ingest prefixes hm entries)).
Proof.
  unfold Legacy.ingest. rewrite legacy_fold. cbn [app].
  by destruct (ingest_lists prefixes hm entries) as [_ ->].
Qed.

Lemma legacy_risky_in_present (entries : list (string * json)) (hm : HealthMap)
    (pattern : string) :
  prefixes ≠ [] →
  In pattern (Legacy.ingest prefixes entries).1 →
  In pattern (riskyAcc (ingest prefixes hm entries)).
Proof.
  intros Hne. rewrite (legacy_ingest_spec entries hm). cbn [fst].
  destruct (ingest_lists prefixes hm entries) as [-> _].
  intros Hin. apply in_map_iff in Hin as ([p val] & <- & Hin).
  apply filter_In in Hin as [Hin Hrisky]. apply in_flat_map.
  exists (p, val). split; [done |]. unfold legacyRisky in Hrisky. cbn [fst snd] in *.
  destruct val as [| b | | | |]; try done. unfold riskyOf. cbn [fst snd].
  apply andb_true_iff in Hrisky as [_ Hno]. apply negb_true_iff in Hno.
  assert (Hr : isRisky prefixes p = true).
  { apply isRisky_iff. right. right. right. by split. }
  rewrite Hr. apply in_or_app. right. by left.
Qed.

(** With a non-empty allow-list, every pattern that the earlier revision
    lists as risky is listed as risky by the present one. *)
Theorem legacy_risky_still_risky (entries : list (string * json)) (hm : HealthMap)
    (pattern : string) :
  prefixes ≠ [] →
  In pattern (Legacy.ingest prefixes entries).1 →
  In pattern (riskyAcc (ingest prefixes hm entries)).
Proof. exact (legacy_risky_in_present entries hm pattern). Qed.

End LegacyFacts.

Lemma legacy_risky_still_risky_witness :
  In ":unknown-task" (Legacy.ingest ["tachyon"] scenarioB_rules).1
  ∧ In ":unknown-task" (riskyAcc (ingest ["tachyon"] emptyHealth scenarioB_rules)).
Proof.
  assert (Hin : In ":unknown-task" (Legacy.ingest ["tachyon"] scenarioB_rules).1).
  { vm_compute. by left. }
  split; [exact Hin |].
  by apply (legacy_risky_still_risky ["tachyon"] scenarioB_rules emptyHealth).
Defined.

Section LegacyAuditFacts.


(** In silent mode the earlier revision logs nothing, findings or not,
    and still exits with code 1 when asked to fail on risk; the present
    revision logs the warning block in that case. *)
Theorem legacy_silent_hides_failure (env : Env) (s : string) :
  let old := LegacyAudit.auditAutoApprove env
               {| LegacyAudit.allowPrefix := s; LegacyAudit.failOnRisk := true;
                  LegacyAudit.json_ := false; LegacyAudit.silent := true |} in
  let new := auditAutoApprove env
               {| allowPrefix := Some s; settingsFile := None; failOnRisk := true;
                  json_ := false; silent := true; scanPrefixes := false |} in
  LegacyAudit.logged old = []
  ∧ (LegacyAudit.found old ≠ [] → LegacyAudit.exited old = Some 1%nat)
  ∧ (findings (result new) ≠ [] →
     In (LogFoundIssues (List.length (findings (result new)))) (logged new)).
Proof.
  intros old new. split; [| split].
  - unfold old, LegacyAudit.auditAutoApprove.
    destruct (readSettingsFiles env) as [files |]; [| done].
    unfold LegacyAudit.auditSettingsFiles. cbv zeta.
    cbn [LegacyAudit.logged LegacyAudit.json_ LegacyAudit.silent negb].
    by destruct (negb _).
  - unfold old, LegacyAudit.auditAutoApprove.
    destruct (readSettingsFiles env) as [files |]; [| done].
    intros Hne. apply nonEmpty_true in Hne.
    unfold LegacyAudit.auditSettingsFiles in *. cbv zeta in *.
    cbn [LegacyAudit.exited LegacyAudit.found LegacyAudit.failOnRisk
         LegacyAudit.allowPrefix] in *.
    by rewrite Hne.
  - destruct (settingsFilesOf env
                {| allowPrefix := Some s; settingsFile := None; failOnRisk := true;
                   json_ := false; silent := true; scanPrefixes := false |})
      as [files |] eqn:Hfiles.
    + intros Hne. apply nonEmpty_true in Hne.
      destruct (auditAutoApprove_run env _ files Hfiles) as (Hres & _ & _ & l & Hlog).
      fold new in Hres, Hlog. rewrite <- Hres in Hlog.
      cbn [json_ silent failOnRisk negb orb] in Hlog. rewrite Hne in Hlog.
      cbn [negb] in Hlog. rewrite Hlog. apply in_or_app. right. by left.
    + unfold new. by rewrite (auditAutoApprove_thrown env _ Hfiles).
Qed.









End LegacyAuditFacts.

(* ===================================================================== *)
(** ** Properties of the discovery *)
(* ===================================================================== *)

Section WalkFacts.

(** Induction over a directory tree. *)
Lemma Dirent_tree_ind (P : Dirent → Prop) :
  (∀ name, P (DFile name)) →
  (∀ name sub, Forall P sub → P (DDir name (Some sub))) →
  (∀ name, P (DDir name None)) →
  (∀ name, P (DOther name)) →
  ∀ e, P e.
Proof.
  intros Hfile Hdir Hnone Hother.
  fix IH 1. intros [name | name [sub |] | name];
    [apply Hfile | | apply Hnone | apply Hother].
  apply Hdir. induction sub as [| e sub IHsub]; constructor; [apply IH | exact IHsub].
Qed.

Lemma chars_app (a b : string) :
  list_ascii_of_string (a ++ b) = list_ascii_of_string a ++ list_ascii_of_string b.
Proof. induction a as [| c a IH]; simpl; [done | by rewrite IH]. Qed.

Lemma joinPath_StartsWith dir name : StartsWith dir (joinPath dir name).
Proof.
  unfold joinPath, StartsWith. destruct (String.eqb_spec dir "/") as [-> | Hne].
  - exists (list_ascii_of_string name). by rewrite chars_app.
  - eexists. by rewrite chars_app.
Qed.

Lemma joinPath_EndsWith dir name : EndsWith ("/" ++ name) (joinPath dir name).
Proof.
  unfold joinPath, EndsWith. destruct (String.eqb_spec dir "/") as [-> | Hne].
  - by exists [].
  - exists (list_ascii_of_string dir). by rewrite chars_app.
Qed.

Lemma StartsWith_trans a b c : StartsWith a b → StartsWith b c → StartsWith a c.
Proof.
  intros [p1 H1] [p2 H2]. exists (p1 ++ p2). by rewrite H2, H1, <- app_assoc.
Qed.

Lemma StartsWith_Substring needle a b :
  Substring needle a → StartsWith a b → Substring needle b.
Proof.
  intros (pre & post & H1) [p2 H2]. exists pre, (post ++ p2).
  by rewrite H2, H1, <- !app_assoc.
Qed.

Lemma forEntries_Some visit entries found :
  forEntries visit entries = Some found →
  ∀ p, In p found → ∃ e found', In e entries ∧ visit e = Some found' ∧ In p found'.
Proof.
  revert found. induction entries as [| e entries IH]; intros found; simpl.
  - by intros [= <-] p [].
  - destruct (visit e) as [here |] eqn:Hhere; [| done].
    destruct (forEntries visit entries) as [others |]; [| done].
    intros [= <-] p Hin. apply in_app_or in Hin as [Hin | Hin].
    + exists e, here. auto.
    + destruct (IH others eq_refl p Hin) as (e' & found' & He' & Hv & Hp).
      exists e', found'. auto.
Qed.

Lemma visitEntry_sound e :
  ∀ dir found, visitEntry dir e = Some found →
    ∀ p, In p found →
      EndsWith "/settings.json" p ∧ Substring ".vscode" p ∧ StartsWith dir p.
Proof.
  induction e as [name | name sub IH | name | name] using Dirent_tree_ind;
    intros dir found; cbn [visitEntry]; try done.
  - cbv zeta.
    destruct (String.eqb_spec name "settings.json") as [-> | Hne]; simpl;
      [| by intros [= <-] p []].
    destruct (includes ".vscode" (joinPath dir "settings.json")) eqn:Hinc;
      [| by intros [= <-] p []].
    intros [= <-] p [<- | []]. split; [apply joinPath_EndsWith |].
    split; [by apply includes_Substring | apply joinPath_StartsWith].
  - intros Hfound p Hp.
    destruct (forEntries_Some _ _ _ Hfound p Hp) as (e & found' & He & Hv & Hp').
    rewrite List.Forall_forall in IH.
    destruct (IH e He _ _ Hv p Hp') as (H1 & H2 & H3).
    split; [done |]. split; [done |].
    eapply StartsWith_trans; [apply joinPath_StartsWith | exact H3].
  - by intros [= <-] p [].
Qed.

Lemma recurse_found (dir : string) (entries : list Dirent) (found : list string) :
  recurse dir entries = Some found →
  ∀ p, In p found →
    EndsWith "/settings.json" p ∧ Substring ".vscode" p ∧ StartsWith dir p.
Proof.
  intros Hfound p Hp. unfold recurse in Hfound.
  destruct (forEntries_Some _ _ _ Hfound p Hp) as (e & found' & He & Hv & Hp').
  by apply (visitEntry_sound e dir found').
Qed.

Lemma forEntries_incl visit entries found e here :
  forEntries visit entries = Some found →
  In e entries → visit e = Some here → incl here found.
Proof.
  revert found. induction entries as [| e' entries IH]; intros found; simpl; [done |].
  destruct (visit e') as [here' |] eqn:Hhere'; [| done].
  destruct (forEntries visit entries) as [others |]; [| done].
  intros [= <-] [-> | Hin] Hv p Hp; apply in_or_app.
  - left. congruence.
  - right. by apply (IH others eq_refl Hin Hv).
Qed.

Lemma forEntries_visited visit entries found e :
  forEntries visit entries = Some found → In e entries → is_Some (visit e).
Proof.
  revert found. induction entries as [| e' entries IH]; intros found; simpl; [done |].
  destruct (visit e') as [here' |] eqn:Hhere'; [| done].
  destruct (forEntries visit entries) as [others |]; [| done].
  intros _ [<- | Hin]; [by rewrite Hhere' | by apply (IH others)].
Qed.

(** What the walk pushes for an entry is the path of a regular file named
    [settings.json]. *)
Lemma visitEntry_file e :
  ∀ dir found, visitEntry dir e = Some found →
    ∀ p, In p found → ∀ entries, In e entries → SettingsFileAt dir entries p.
Proof.
  induction e as [name | name sub IH | name | name] using Dirent_tree_ind;
    intros dir found; cbn [visitEntry]; try done.
  - cbv zeta.
    destruct (String.eqb_spec name "settings.json") as [-> | Hne]; simpl;
      [| by intros [= <-] p []].
    destruct (includes ".vscode" (joinPath dir "settings.json"));
      [| by intros [= <-] p []].
    intros [= <-] p [<- | []] entries Hin. by constructor.
  - intros Hfound p Hp entries Hin.
    destruct (forEntries_Some _ _ _ Hfound p Hp) as (e & found' & He & Hv & Hp').
    rewrite List.Forall_forall in IH.
    apply (SettingsFile_below dir entries name sub p Hin).
    by apply (IH e He _ _ Hv p Hp').
  - by intros [= <-] p [].
Qed.

(** The walk pushes the path of every regular file named [settings.json]
    whose path contains [.vscode]. *)
Lemma recurse_complete dir entries p :
  SettingsFileAt dir entries p → Substring ".vscode" p →
  ∀ found, recurse dir entries = Some found → In p found.
Proof.
  induction 1 as [dir entries Hin | dir entries name sub p Hin Hat IH];
    intros Hsub found Hfound; unfold recurse in Hfound.
  - apply (forEntries_incl _ _ _ (DFile "settings.json")
             [joinPath dir "settings.json"] Hfound Hin); [| by left].
    cbn [visitEntry]. cbv zeta.
    apply includes_Substring in Hsub. by rewrite Hsub.
  - destruct (forEntries_visited _ _ _ _ Hfound Hin) as [here Hhere].
    apply (forEntries_incl _ _ _ _ here Hfound Hin Hhere).
    cbn [visitEntry] in Hhere. by apply (IH Hsub here).
Qed.

Lemma forEntries_length_le visit entries found (count : Dirent → nat) :
  (∀ e found', In e entries → visit e = Some found' →
     (List.length found' ≤ count e)%nat) →
  forEntries visit entries = Some found →
  (List.length found ≤ list_sum (map count entries))%nat.
Proof.
  revert found. induction entries as [| e entries IH]; intros found Hcount; simpl.
  - by intros [= <-].
  - destruct (visit e) as [here |] eqn:Hhere; [| done].
    destruct (forEntries visit entries) as [others |]; [| done].
    intros [= <-]. rewrite length_app.
    assert (H1 : (List.length here ≤ count e)%nat) by (apply Hcount; [by left | done]).
    assert (H2 : (List.length others ≤ list_sum (map count entries))%nat).
    { apply IH; [| done]. intros e' f' Hin. apply Hcount. by right. }
    lia.
Qed.

Lemma visitEntry_count_le e :
  ∀ dir found, visitEntry dir e = Some found →
    (List.length found ≤ settingsIn e)%nat.
Proof.
  induction e as [name | name sub IH | name | name] using Dirent_tree_ind;
    intros dir found; cbn [visitEntry settingsIn]; try done.
  - cbv zeta. destruct (String.eqb name "settings.json"); simpl.
    + destruct (includes _ _); intros [= <-]; simpl; lia.
    + intros [= <-]. simpl. lia.
  - apply forEntries_length_le. intros e found' Hin. rewrite List.Forall_forall in IH.
    apply (IH e Hin).
  - intros [= <-]. simpl. lia.
Qed.

(** When the walk returns, the paths found are exactly the paths of the
    regular files named [settings.json] in the tree that have [.vscode]
    somewhere in their path; each of them ends with [/settings.json] and
    lies below the directory the walk started from; and there are no more
    paths than such files: a directory, and an entry that is neither a
    file nor a directory (a link, a socket), is never pushed, whatever its
    name. *)
Theorem recurse_sound (dir : string) (entries : list Dirent) (found : list string) :
  recurse dir entries = Some found →
  (∀ p, In p found ↔ SettingsFileAt dir entries p ∧ Substring ".vscode" p)
  ∧ (∀ p, In p found →
       EndsWith "/settings.json" p ∧ Substring ".vscode" p ∧ StartsWith dir p)
  ∧ (List.length found ≤ settingsCount entries)%nat.
Proof.
  intros Hfound. split; [| split].
  - intros p. split.
    + intros Hp. split; [| by apply (recurse_found dir entries found Hfound p)].
      unfold recurse in Hfound.
      destruct (forEntries_Some _ _ _ Hfound p Hp) as (e & found' & He & Hv & Hp').
      by apply (visitEntry_file e dir found' Hv p Hp').
    + intros [Hat Hsub]. by apply (recurse_complete dir entries p).
  - exact (recurse_found dir entries found Hfound).
  - unfold recurse in Hfound. unfold settingsCount.
    apply (forEntries_length_le (visitEntry dir) entries found settingsIn); [| done].
    intros e found' _. apply visitEntry_count_le.
Qed.

Lemma recurse_sound_witness :
  recurse "/work/.vscode" linked_tree = Some ["/work/.vscode/b/settings.json"]
  ∧ SettingsFileAt "/work/.vscode" linked_tree "/work/.vscode/b/settings.json"
  ∧ ¬ SettingsFileAt "/work/.vscode" linked_tree "/work/.vscode/a/settings.json"
  ∧ settingsCount linked_tree = 1%nat.
Proof.
  assert (Hrun : recurse "/work/.vscode" linked_tree
                 = Some ["/work/.vscode/b/settings.json"])
    by (vm_compute; reflexivity).
  destruct (recurse_sound _ _ _ Hrun) as (Hiff & _ & _).
  split; [exact Hrun |]. split; [| split; [| reflexivity]].
  - apply Hiff. by left.
  - intros Hat.
    assert (Hin : In "/work/.vscode/a/settings.json" ["/work/.vscode/b/settings.json"]).
    { apply Hiff. split; [exact Hat |]. apply includes_Substring.
      vm_compute. reflexivity. }
    destruct Hin as [Heq | []]. discriminate Heq.
Defined.

Lemma forEntries_None visit entries :
  forEntries visit entries = None ↔ ∃ e, In e entries ∧ visit e = None.
Proof.
  induction entries as [| e entries IH]; simpl.
  - split; [done | by intros (e & [] & _)].
  - destruct (visit e) as [here |] eqn:Hhere.
    + destruct (forEntries visit entries) as [others |].
      * split; [done |]. intros (e' & [<- | Hin] & Hv); [congruence |].
        assert (Hsome : Some others = None) by (apply IH; eauto). done.
      * split; [| done]. intros _. destruct IH as [IH _].
        destruct (IH eq_refl) as (e' & Hin & Hv). exists e'. auto.
    + split; [| done]. intros _. exists e. auto.
Qed.

Lemma visitEntry_None e : ∀ dir, visitEntry dir e = None ↔ unreadableIn e = true.
Proof.
  induction e as [name | name sub IH | name | name] using Dirent_tree_ind;
    intros dir; cbn [visitEntry unreadableIn]; try done.
  - cbv zeta. by destruct (_ && _).
  - rewrite forEntries_None, existsb_exists. rewrite List.Forall_forall in IH.
    split; intros (e & Hin & He); exists e; (split; [done |]);
      by apply (IH e Hin (joinPath dir name)).
Qed.

Lemma recurse_None (dir : string) (entries : list Dirent) :
  recurse dir entries = None ↔ hasUnreadable entries = true.
Proof.
  unfold recurse, hasUnreadable. rewrite forEntries_None, existsb_exists.
  split; intros (e & Hin & He); exists e; (split; [done |]);
    by apply (visitEntry_None e dir).
Qed.

(** The discovery throws exactly when some directory of the tree cannot
    be read, however deep and whatever it contains. *)
Theorem recurse_throws_iff (dir : string) (entries : list Dirent) :
  recurse dir entries = None ↔ hasUnreadable entries = true.
Proof. exact (recurse_None dir entries). Qed.

(** On a machine, the discovery of the command returns exactly when a
    settings file is given or every directory from the working directory
    down can be read. *)
Lemma DiscoveryReturns_on (m : Machine) (load : string → option json) (opts : Options) :
  DiscoveryReturns (envOn m load) opts
  ↔ given (settingsFile opts) = true
    ∨ ∃ entries, tree m = Some entries ∧ hasUnreadable entries = false.
Proof.
  unfold DiscoveryReturns, envOn, readSettingsFilesOn. cbn [readSettingsFiles]. cbv zeta.
  destruct (tree m) as [entries |].
  - destruct (recurse (cwd m) entries) as [found |] eqn:Hrun.
    + split; (intros [Hgiven | H]; [by left |]).
      * right. exists entries. split; [done |].
        destruct (hasUnreadable entries) eqn:Hbad; [| done].
        apply (recurse_None (cwd m)) in Hbad. congruence.
      * by right.
    + apply recurse_None in Hrun. split; (intros [Hgiven | H]; [by left |]).
      * done.
      * destruct H as (entries' & [= <-] & Hok). congruence.
  - split; (intros [Hgiven | H]; [by left |]).
    + done.
    + by destruct H as (entries & ? & _).
Qed.

Lemma forEntries_length visit entries found (count : Dirent → nat) :
  (∀ e found', In e entries → visit e = Some found' → List.length found' = count e) →
  forEntries visit entries = Some found →
  List.length found = list_sum (map count entries).
Proof.
  revert found. induction entries as [| e entries IH]; intros found Hcount; simpl.
  - by intros [= <-].
  - destruct (visit e) as [here |] eqn:Hhere; [| done].
    destruct (forEntries visit entries) as [others |]; [| done].
    intros [= <-]. rewrite length_app, (Hcount e here); [| by left | done].
    rewrite (IH others); [done | | done]. intros e' f' Hin. apply Hcount. by right.
Qed.

Lemma visitEntry_count e :
  ∀ dir found, Substring ".vscode" dir → visitEntry dir e = Some found →
    List.length found = settingsIn e.
Proof.
  induction e as [name | name sub IH | name | name] using Dirent_tree_ind;
    intros dir found Hdir; cbn [visitEntry settingsIn]; try done.
  - cbv zeta.
    assert (Hinc : includes ".vscode" (joinPath dir name) = true).
    { apply includes_Substring.
      eapply StartsWith_Substring; [exact Hdir | apply joinPath_StartsWith]. }
    rewrite Hinc, andb_true_r. destruct (String.eqb name "settings.json"); by intros [= <-].
  - apply forEntries_length. intros e found' Hin. rewrite List.Forall_forall in IH.
    apply (IH e Hin).
    eapply StartsWith_Substring; [exact Hdir | apply joinPath_StartsWith].
  - by intros [= <-].
Qed.

(** When the path of the working directory itself contains [.vscode],
    every file named [settings.json] below it is found, in whatever
    folder it lies. *)
Theorem recurse_below_vscode_path (dir : string) (entries : list Dirent)
    (found : list string) :
  Substring ".vscode" dir →
  recurse dir entries = Some found →
  List.length found = settingsCount entries.
Proof.
  intros Hdir. unfold recurse, settingsCount. apply forEntries_length.
  intros e found' _. by apply visitEntry_count.
Qed.

Lemma recurse_below_vscode_path_witness :
  Substring ".vscode" "/work/my.vscode-files"
  ∧ settingsCount nested_tree = 2%nat
  ∧ ∃ found, recurse "/work/my.vscode-files" nested_tree = Some found
             ∧ List.length found = 2%nat.
Proof.
  assert (Hdir : Substring ".vscode" "/work/my.vscode-files")
    by (apply includes_Substring; vm_compute; reflexivity).
  split; [exact Hdir |]. split; [reflexivity |].
  destruct (recurse "/work/my.vscode-files" nested_tree) as [found |] eqn:Hrun;
    [| by vm_compute in Hrun].
  exists found. split; [done |].
  exact (recurse_below_vscode_path _ _ _ Hdir Hrun).
Defined.

(** *** The paths of the walk *)

Lemma EntryName_chars name : EntryName name → list_ascii_of_string name ≠ [].
Proof. intros [Hne _]. by destruct name. Qed.

Lemma segments_not_nil w : segments w ≠ [].
Proof.
  induction w as [| c w IH]; simpl; [done |].
  destruct (Ascii.eqb c "/"); [done |]. by destruct (segments w).
Qed.

Lemma segments_plain w : ¬ In "/"%char w → segments w = [w].
Proof.
  induction w as [| c w IH]; intros Hno; simpl; [done |].
  destruct (Ascii.eqb_spec c "/") as [-> | Hne]; [destruct Hno; by left |].
  rewrite IH; [done |]. intros Hin. apply Hno. by right.
Qed.

Lemma segments_slash a b : segments (a ++ "/"%char :: b) = segments a ++ segments b.
Proof.
  induction a as [| c a IH]; simpl; [done |].
  destruct (Ascii.eqb c "/"); [by rewrite IH |].
  rewrite IH. pose proof (segments_not_nil a) as Hnn.
  by destruct (segments a).
Qed.

Lemma segments_join segs :
  Forall EntryName segs → segs ≠ [] →
  segments (list_ascii_of_string (join "/" segs)) = map list_ascii_of_string segs.
Proof.
  induction 1 as [| x segs Hx Hall IH]; intros Hne; [done |].
  destruct segs as [| y segs].
  - simpl. apply segments_plain. apply Hx.
  - change (join "/" (x :: y :: segs)) with (x ++ "/" ++ join "/" (y :: segs))%string.
    rewrite chars_app.
    change (list_ascii_of_string ("/" ++ join "/" (y :: segs))%string)
      with ("/"%char :: list_ascii_of_string (join "/" (y :: segs))).
    rewrite segments_slash, segments_plain by apply Hx. rewrite IH by done. done.
Qed.

Lemma string_of_chars s : string_of_list_ascii (list_ascii_of_string s) = s.
Proof. apply string_of_list_ascii_of_string. Qed.

Lemma normalizeStep_name b kept name :
  EntryName name → normalizeStep b kept name = name :: kept.
Proof.
  intros (H1 & H2 & H3 & _). unfold normalizeStep.
  destruct (String.eqb_spec name EmptyString); [done |].
  destruct (String.eqb_spec name "."); [done |].
  destruct (String.eqb_spec name ".."); done.
Qed.

Lemma fold_normalizeStep b names kept :
  Forall EntryName names →
  fold_left (normalizeStep b) names kept = rev names ++ kept.
Proof.
  intros Hall. revert kept. induction Hall as [| x names Hx Hall IH]; intros kept; simpl.
  - done.
  - rewrite normalizeStep_name by done. rewrite IH. by rewrite <- app_assoc.
Qed.

Lemma string_app_assoc (a b c : string) : ((a ++ b) ++ c = a ++ (b ++ c))%string.
Proof.
  induction a as [| x a IH]; [done |].
  change (String x ((a ++ b) ++ c) = String x (a ++ (b ++ c)))%string. by rewrite IH.
Qed.

Lemma join_snoc segs name :
  segs ≠ [] → join "/" (segs ++ [name]) = (join "/" segs ++ "/" ++ name)%string.
Proof.
  induction segs as [| x segs IH]; intros Hne; [done |].
  destruct segs as [| y segs]; [done |].
  change (join "/" ((x :: y :: segs) ++ [name]))
    with (x ++ "/" ++ join "/" ((y :: segs) ++ [name]))%string.
  rewrite IH by done.
  change (join "/" (x :: y :: segs)) with (x ++ "/" ++ join "/" (y :: segs))%string.
  by rewrite !string_app_assoc.
Qed.


Lemma join_not_empty segs name :
  EntryName name → join "/" (segs ++ [name]) ≠ EmptyString.
Proof.
  intros Hname. destruct segs as [| x segs].
  - simpl. apply Hname.
  - rewrite join_snoc by done. intros Heq.
    apply (f_equal list_ascii_of_string) in Heq. rewrite !chars_app in Heq.
    apply (f_equal (@List.length _)) in Heq. rewrite length_app in Heq.
    simpl in Heq. lia.
Qed.

Lemma join_cons_length x segs :
  (List.length (list_ascii_of_string x)
   ≤ List.length (list_ascii_of_string (join "/" (x :: segs))))%nat.
Proof.
  destruct segs as [| y segs]; [done |].
  change (join "/" (x :: y :: segs)) with (x ++ "/" ++ join "/" (y :: segs))%string.
  rewrite chars_app, length_app. lia.
Qed.

Lemma joinPath_absolute segs name :
  Forall EntryName segs →
  joinPath (absolutePath segs) name = absolutePath (segs ++ [name]).
Proof.
  intros Hall. unfold joinPath, absolutePath. destruct segs as [| x segs].
  - reflexivity.
  - rewrite join_snoc by done.
    destruct (String.eqb_spec ("/" ++ join "/" (x :: segs)) "/") as [Heq | _].
    + exfalso. inversion Hall as [| ? ? Hx _]; subst.
      apply (f_equal list_ascii_of_string) in Heq. rewrite chars_app in Heq.
      apply (f_equal (@List.length _)) in Heq. rewrite length_app in Heq.
      pose proof (join_cons_length x segs) as Hlen.
      pose proof (EntryName_chars x Hx) as Hxne.
      destruct (list_ascii_of_string x); [done |]. simpl in Heq, Hlen. lia.
    + cbn [String.append]. by rewrite !string_app_assoc.
Qed.


Lemma string_app_nil_r (a : string) : (a ++ EmptyString)%string = a.
Proof.
  induction a as [| x a IH]; [done |].
  change (String x (a ++ EmptyString)%string = String x a). by rewrite IH.
Qed.

(** A text whose last segment is a name does not end with a slash. *)
Lemma no_trailing_slash c w before names name :
  segments w = before ++ map list_ascii_of_string (names ++ [name]) →
  EntryName name →
  match rev (c :: w) with
  | c' :: _ => Ascii.eqb c' "/"
  | [] => false
  end = false.
Proof.
  intros Hsegs Hname. rewrite map_app, app_assoc in Hsegs. cbn [map] in Hsegs.
  pose proof (EntryName_chars name Hname) as Hne.
  destruct w as [| c' w' _] using rev_ind.
  - simpl in Hsegs. change [[]] with ([] ++ [[] : list ascii]) in Hsegs.
    apply app_inj_tail in Hsegs as [_ Heq]. by rewrite <- Heq in Hne.
  - change (c :: w' ++ [c']) with ((c :: w') ++ [c']). rewrite rev_unit.
    destruct (Ascii.eqb_spec c' "/") as [-> | ?]; [| done].
    rewrite segments_slash in Hsegs. cbn [segments] in Hsegs.
    apply app_inj_tail in Hsegs as [_ Heq]. by rewrite <- Heq in Hne.
Qed.

Lemma map_string_of_chars names :
  map string_of_list_ascii (map list_ascii_of_string names) = names.
Proof.
  induction names as [| x names IH]; [done |]. cbn [map].
  by rewrite string_of_chars, IH.
Qed.

(** [normalize] on an absolute path whose segments are names, after any
    number of empty segments. *)
Lemma normalize_names s w (slashes : nat) names name :
  list_ascii_of_string s = "/"%char :: w →
  segments w = repeat [] slashes ++ map list_ascii_of_string (names ++ [name]) →
  Forall EntryName names → EntryName name →
  normalize s = absolutePath (names ++ [name]).
Proof.
  intros Hs Hsegs Hall Hname. unfold normalize. rewrite Hs. cbv zeta.
  rewrite (no_trailing_slash "/" w _ names name Hsegs Hname).
  change (Ascii.eqb "/" "/") with true. cbn [negb].
  change (segments ("/"%char :: w)) with ([] :: segments w). rewrite Hsegs.
  cbn [map fold_left]. change (string_of_list_ascii []) with EmptyString.
  change (normalizeStep false [] EmptyString) with ([] : list string).
  rewrite map_app, map_string_of_chars.
  rewrite fold_left_app.
  assert (Hempty : fold_left (normalizeStep false)
                     (map string_of_list_ascii (repeat [] slashes)) []
                   = ([] : list string)).
  { clear. induction slashes as [| n IH]; [done |]. cbn [repeat map fold_left]. exact IH. }
  rewrite Hempty, fold_normalizeStep, app_nil_r, rev_involutive.
  2:{ apply Forall_app. split; [done | by constructor]. }
  destruct (String.eqb_spec (join "/" (names ++ [name])) EmptyString) as [Heq | _].
  - by destruct (join_not_empty names name Hname).
  - unfold absolutePath. by rewrite string_app_nil_r.
Qed.

(** In the walk, [join(dir, name)] is [joinPath dir name], and the path
    is again an absolute path made of names. *)
Lemma pathJoin_absolute segs name :
  Forall EntryName segs → EntryName name →
  pathJoin [absolutePath segs; name] = joinPath (absolutePath segs) name
  ∧ joinPath (absolutePath segs) name = absolutePath (segs ++ [name]).
Proof.
  intros Hall Hname. split; [| by apply joinPath_absolute].
  rewrite joinPath_absolute by done.
  pose proof Hname as (Hne & _ & _ & Hns).
  unfold pathJoin. cbn [List.filter].
  change (String.eqb (absolutePath segs) EmptyString) with false.
  destruct (String.eqb_spec name EmptyString) as [-> | _]; [done |].
  cbn [negb join].
  destruct segs as [| x segs].
  - apply (normalize_names _ (list_ascii_of_string ("/" ++ name)%string) 1 [] name);
      [done | | done | done].
    change (list_ascii_of_string ("/" ++ name)%string)
      with ("/"%char :: list_ascii_of_string name).
    change (segments ("/"%char :: list_ascii_of_string name))
      with ([] :: segments (list_ascii_of_string name)).
    by rewrite segments_plain.
  - apply (normalize_names _
             (list_ascii_of_string (join "/" ((x :: segs) ++ [name]))) 0 (x :: segs) name);
      [| | done | done].
    + unfold absolutePath. rewrite join_snoc by done.
      rewrite string_app_assoc. reflexivity.
    + cbn [repeat app]. apply segments_join; [| done].
      apply (proj2 (Forall_app EntryName (x :: segs) [name])).
      split; [done | by constructor].
Qed.

Example pathJoin_normalizes :
  pathJoin ["/Users/dev/"; "Library"; "Application Support"; "Code"; "User";
            "settings.json"]
  = "/Users/dev/Library/Application Support/Code/User/settings.json"
  ∧ pathJoin ["/work"; "src"] = joinPath "/work" "src"
  ∧ pathJoin ["/"; "etc"] = joinPath "/" "etc"
  ∧ pathJoin ["a/../b"; ".."; "c"] = "c"
  ∧ pathJoin ["../x"; ".."; ".."] = "../.."
  ∧ pathJoin ["/.."; "a//b/"] = "/a/b/"
  ∧ pathJoin [EmptyString; EmptyString] = ".".
Proof. repeat split; vm_compute; reflexivity. Qed.

(** The user settings file, when it can be read, comes first; the
    command has no result when the working directory cannot be read. *)
Lemma readSettingsFilesOn_spec (m : Machine) :
  (tree m = None → readSettingsFilesOn m = None)
  ∧ ∀ files, readSettingsFilesOn m = Some files →
      ∃ found, tree m ≠ None
        ∧ files = (if readable m (userSettingsPath m)
                   then [userSettingsPath m] else []) ++ found
        ∧ ∀ p, In p found → EndsWith "/settings.json" p ∧ Substring ".vscode" p.
Proof.
  unfold readSettingsFilesOn. cbv zeta. split; [by intros -> |].
  intros files. destruct (tree m) as [entries |]; [| done].
  destruct (recurse (cwd m) entries) as [found |] eqn:Hrun; [| done].
  intros [= <-]. exists found. split; [done |]. split; [done |].
  intros p Hp. destruct (recurse_found _ _ _ Hrun p Hp) as (H1 & H2 & _). by split.
Qed.

End WalkFacts.

(* ===================================================================== *)
(** ** The escaping of the prefixes *)
(* ===================================================================== *)

Section EscapeFacts.








(** A prefix made of letters, digits and underscores is written as it
    is. *)
Lemma escapeRegExp_plain (p : string) :
  Forall (λ c, isSpecial c = false) (list_ascii_of_string p) →
  escapeRegExp p = p.
Proof.
  intros Hplain. unfold escapeRegExp.
  rewrite <- (string_of_list_ascii_of_string p) at 2. f_equal.
  induction Hplain as [| c w Hc _ IH]; [done |]. cbn [escapeL]. by rewrite Hc, IH.
Qed.

End EscapeFacts.
